(** * Task document parser and dependency inference engine

    A shallow embedding of [svao/orchestrator/parser.py] and
    [svao/orchestrator/inference.py], with the properties of the
    specification stated and settled against it.

    Conventions of the embedding:
    - a Python [str] is a [string]; characters are code points below 256,
      with the Latin-1 reading of [str.isspace] and [str.lower];
    - a Python [int] is a [Z]; [int(s)] is its value where the conversion
      returns, that is on at most 4300 digits, and the statements that a
      function returns assume that bound of the numbers it converts;
    - a [dict] whose iteration order is observed is an association list in
      insertion order; updating an existing key keeps its position;
    - a raised exception is the [Raise] branch of [result];
    - the regular expressions of the source are values of [regex], run by a
      backtracking matcher with the priorities of Python's [re]. *)

From Stdlib Require Import List String Ascii ZArith Lia Bool Arith.
From Stdlib Require Import Permutation Sorted.
From Stdlib Require Import DecimalString DecimalZ.
From Stdlib Require DecimalPos OrderedTypeEx.
Import ListNotations.
Open Scope string_scope.

Set Implicit Arguments.

(* ================================================================== *)
(** * Python primitives *)
(* ================================================================== *)

Module Py.

(** ** Exceptions *)

Inductive exn : Type :=
| TypeError.

Inductive result (A : Type) : Type :=
| Ok (a : A)
| Raise (e : exn).

Arguments Ok {A} a.
Arguments Raise {A} e.

Definition bind {A B} (m : result A) (f : A -> result B) : result B :=
  match m with
  | Ok a => f a
  | Raise e => Raise e
  end.

(** ** Characters *)

Definition code (c : ascii) : nat := nat_of_ascii c.

Definition between (lo hi : nat) (c : ascii) : bool :=
  (lo <=? code c)%nat && (code c <=? hi)%nat.

(** [\d] on the modelled code points: the ten ASCII digits. *)
Definition is_digit (c : ascii) : bool := between 48 57 c.

(** [[a-z]] *)
Definition is_lower_letter (c : ascii) : bool := between 97 122 c.

(** [str.isspace] (and [\s]) on code points below 256: TAB, LF, VT, FF, CR,
    the separators 0x1c-0x1f, space, NEL (0x85) and NBSP (0xa0). *)
Definition is_space (c : ascii) : bool :=
  between 9 13 c || between 28 32 c
  || (code c =? 133)%nat || (code c =? 160)%nat.

(** [str.lower] on code points below 256: A-Z, and the Latin-1 capitals
    0xc0-0xde except the multiplication sign 0xd7, move up by 32. *)
Definition lower_char (c : ascii) : ascii :=
  if between 65 90 c
     || (between 192 222 c && negb (code c =? 215)%nat)
  then ascii_of_nat (code c + 32)
  else c.

Definition newline : ascii := "010"%char.

(** ** Strings *)

Fixpoint lower (s : string) : string :=
  match s with
  | "" => ""
  | String c s' => String (lower_char c) (lower s')
  end.

Fixpoint lstrip (s : string) : string :=
  match s with
  | "" => ""
  | String c s' => if is_space c then lstrip s' else s
  end.

Fixpoint rstrip (s : string) : string :=
  match s with
  | "" => ""
  | String c s' =>
      match rstrip s' with
      | "" => if is_space c then "" else String c ""
      | r => String c r
      end
  end.

(** [s.strip()] *)
Definition strip (s : string) : string := rstrip (lstrip s).

(** [s.split(sep)] for a one-character separator: never the empty list. *)
Fixpoint split (sep : ascii) (s : string) : list string :=
  match s with
  | "" => [""]
  | String c s' =>
      if Ascii.eqb c sep then "" :: split sep s'
      else match split sep s' with
           | h :: t => String c h :: t
           | [] => [String c ""]
           end
  end.

(** [sep.join(l)] *)
Fixpoint join (sep : string) (l : list string) : string :=
  match l with
  | [] => ""
  | [x] => x
  | x :: l' => x ++ sep ++ join sep l'
  end.

(** [needle in hay] *)
Fixpoint contains (needle hay : string) : bool :=
  String.prefix needle hay
  || match hay with
     | "" => false
     | String _ hay' => contains needle hay'
     end.

(** [s[:n]] and [s[n:]] *)
Fixpoint take (n : nat) (s : string) : string :=
  match n, s with
  | S n', String c s' => String c (take n' s')
  | _, _ => ""
  end.

Fixpoint drop (n : nat) (s : string) : string :=
  match n, s with
  | S n', String _ s' => drop n' s'
  | _, _ => s
  end.

(** [s[i:j]] for [0 <= i], [0 <= j] *)
Definition slice (i j : nat) (s : string) : string := take (j - i) (drop i s).

(** [a < b] on [str]: lexicographic on code points. *)
Definition str_ltb (a b : string) : bool :=
  match String.compare a b with Lt => true | _ => false end.

(** [int(s)] for a string of ASCII digits: the value that the conversion
    returns. CPython converts a string of at most
    [sys.get_int_max_str_digits()] digits, 4300 unless the process changes
    it, leading zeros counted, and raises [ValueError] on a longer one;
    [int_returns] is that test. The statements that a function which
    converts numbers returns assume [int_returns] of the digit runs it
    converts. *)
Fixpoint int_acc (acc : Z) (s : string) : Z :=
  match s with
  | "" => acc
  | String c s' => int_acc (10 * acc + Z.of_nat (code c - 48)) s'
  end.

Definition int (s : string) : Z := int_acc 0 s.

Definition int_max_str_digits : nat := 4300.

Definition int_returns (s : string) : bool :=
  (String.length s <=? int_max_str_digits)%nat.

(** [str(n)] *)
Definition str (n : Z) : string := NilZero.string_of_int (Z.to_int n).

(** Truth value of an optional string: [None] and [""] are false. *)
Definition truthy (o : option string) : bool :=
  match o with
  | Some (String _ _) => true
  | _ => false
  end.

End Py.

Notation "x <- m ;; f" := (Py.bind m (fun x => f))
  (at level 61, m at next level, right associativity).

(* ================================================================== *)
(** * Regular expressions *)
(* ================================================================== *)

Module Re.

(** The fragment of Python's [re] syntax used by the two source files.
    Repetition is only ever applied to a one-character class there, so the
    repetition constructors take the class itself. *)
Inductive regex : Type :=
| Lit (s : string)                 (* literal text *)
| Set_ (p : ascii -> bool)         (* one character of a class *)
| Star (p : ascii -> bool)         (* p*  greedy *)
| Plus (p : ascii -> bool)         (* p+  greedy *)
| PlusLazy (p : ascii -> bool)     (* p+? *)
| Seq (r1 r2 : regex)
| Alt (r1 r2 : regex)              (* r1|r2, left first *)
| Opt (r : regex)                  (* r?  greedy *)
| Group (n : nat) (r : regex)      (* capturing group number n *)
| Bol                              (* ^ *)
| Eol.                             (* $ *)

Declare Scope re_scope.
Delimit Scope re_scope with re.
Bind Scope re_scope with regex.
Infix "@" := Seq (at level 60, right associativity) : re_scope.

(** Character classes of the source patterns. *)
Definition any (c : ascii) : bool := negb (Ascii.eqb c Py.newline).   (* . *)
Definition not_rparen (c : ascii) : bool := negb (Ascii.eqb c ")").   (* [^)] *)
Definition space_or_x (c : ascii) : bool :=
  Ascii.eqb c " " || Ascii.eqb c "x".                                 (* [ x] *)

(** Capture groups: the most recent binding of a number comes first. *)
Definition captures : Type := list (nat * string).

Fixpoint group_of (caps : captures) (n : nat) : option string :=
  match caps with
  | [] => None
  | (m, s) :: caps' => if (m =? n)%nat then Some s else group_of caps' n
  end.

(** A position in the subject: the character before it, if any, and the
    text from it on. *)
Definition outcome : Type := (string * captures)%type.
Definition cont : Type := option ascii -> string -> captures -> option outcome.

(** [^]: start of the subject, and with MULTILINE also after a newline. *)
Definition at_bol (multiline : bool) (prev : option ascii) : bool :=
  match prev with
  | None => true
  | Some c => multiline && Ascii.eqb c Py.newline
  end.

(** [$]: end of the subject or before its final newline, and with MULTILINE
    before any newline. *)
Definition at_eol (multiline : bool) (s : string) : bool :=
  match s with
  | "" => true
  | String c s' =>
      Ascii.eqb c Py.newline
      && (multiline || match s' with "" => true | _ => false end)
  end.

Fixpoint lit (l : string) (prev : option ascii) (s : string)
  : option (option ascii * string) :=
  match l with
  | "" => Some (prev, s)
  | String c l' =>
      match s with
      | String a s' => if Ascii.eqb a c then lit l' (Some a) s' else None
      | "" => None
      end
  end.

(** Greedy repetition of a class: the longest run first, then one shorter. *)
Fixpoint star (p : ascii -> bool) (prev : option ascii) (s : string)
  (k : option ascii -> string -> option outcome) : option outcome :=
  match s with
  | String c s' =>
      if p c then
        match star p (Some c) s' k with
        | Some r => Some r
        | None => k prev s
        end
      else k prev s
  | "" => k prev s
  end.

(** Lazy repetition of a class: the shortest run first, then one longer. *)
Fixpoint star_lazy (p : ascii -> bool) (prev : option ascii) (s : string)
  (k : option ascii -> string -> option outcome) : option outcome :=
  match k prev s with
  | Some r => Some r
  | None =>
      match s with
      | String c s' => if p c then star_lazy p (Some c) s' k else None
      | "" => None
      end
  end.

(** The backtracking matcher, in continuation-passing style: [k] is the
    rest of the pattern; a failure of [k] makes the matcher try its next
    alternative. *)
Fixpoint run (ml : bool) (r : regex) (prev : option ascii) (s : string)
  (caps : captures) (k : cont) {struct r} : option outcome :=
  match r with
  | Lit l =>
      match lit l prev s with
      | Some (prev', s') => k prev' s' caps
      | None => None
      end
  | Set_ p =>
      match s with
      | String c s' => if p c then k (Some c) s' caps else None
      | "" => None
      end
  | Star p => star p prev s (fun prev' s' => k prev' s' caps)
  | Plus p =>
      match s with
      | String c s' =>
          if p c then star p (Some c) s' (fun prev' s' => k prev' s' caps)
          else None
      | "" => None
      end
  | PlusLazy p =>
      match s with
      | String c s' =>
          if p c then star_lazy p (Some c) s' (fun prev' s' => k prev' s' caps)
          else None
      | "" => None
      end
  | Seq r1 r2 =>
      run ml r1 prev s caps (fun prev' s' caps' => run ml r2 prev' s' caps' k)
  | Alt r1 r2 =>
      match run ml r1 prev s caps k with
      | Some x => Some x
      | None => run ml r2 prev s caps k
      end
  | Opt r1 =>
      match run ml r1 prev s caps k with
      | Some x => Some x
      | None => k prev s caps
      end
  | Group n r1 =>
      run ml r1 prev s caps
        (fun prev' s' caps' =>
           k prev' s'
             ((n, Py.take (String.length s - String.length s') s) :: caps'))
  | Bol => if at_bol ml prev then k prev s caps else None
  | Eol => if at_eol ml s then k prev s caps else None
  end.

Definition accept : cont := fun _ s caps => Some (s, caps).

(** A match object: [start()], [end()] and the groups. *)
Record match_obj : Type := MatchObj {
  m_start : nat;
  m_end : nat;
  m_groups : captures
}.

Definition group (m : match_obj) (n : nat) : option string :=
  group_of (m_groups m) n.

(** [m.group(n)] of a group that takes part in every match of its
    pattern, where Python returns a [str]. *)
Definition group_str (m : match_obj) (n : nat) : string :=
  match group m n with
  | Some s => s
  | None => ""
  end.

(** [re.match(r, s)]: a match at position 0 only. *)
Definition match_ (ml : bool) (r : regex) (s : string) : option match_obj :=
  match run ml r None s [] accept with
  | Some (rest, caps) =>
      Some (MatchObj 0 (String.length s - String.length rest) caps)
  | None => None
  end.

(** [pattern.finditer(s)]: the leftmost match from each scan position, the
    scan resuming where the match ended. [skip] counts the characters still
    inside the previous match. The patterns of the source never match the
    empty string, so a match always moves the scan forward. *)
Fixpoint finditer_from (ml : bool) (r : regex) (prev : option ascii)
  (s : string) (pos skip : nat) : list match_obj :=
  match skip with
  | S skip' =>
      match s with
      | String c s' => finditer_from ml r (Some c) s' (S pos) skip'
      | "" => []
      end
  | O =>
      match run ml r prev s [] accept with
      | Some (rest, caps) =>
          let n := String.length s - String.length rest in
          MatchObj pos (pos + n) caps ::
            match s with
            | String c s' => finditer_from ml r (Some c) s' (S pos) (n - 1)
            | "" => []
            end
      | None =>
          match s with
          | String c s' => finditer_from ml r (Some c) s' (S pos) 0
          | "" => []
          end
      end
  end.

Definition finditer (ml : bool) (r : regex) (s : string) : list match_obj :=
  finditer_from ml r None s 0 0.

(** [re.sub(r, '', s)]: every match of [finditer] removed. *)
Fixpoint sub_empty_from (ml : bool) (r : regex) (prev : option ascii)
  (s : string) (skip : nat) : string :=
  match skip with
  | S skip' =>
      match s with
      | String c s' => sub_empty_from ml r (Some c) s' skip'
      | "" => ""
      end
  | O =>
      match s with
      | "" => ""
      | String c s' =>
          match run ml r prev s [] accept with
          | Some (rest, _) =>
              match String.length s - String.length rest with
              | O => String c (sub_empty_from ml r (Some c) s' 0)
              | S n => sub_empty_from ml r (Some c) s' n
              end
          | None => String c (sub_empty_from ml r (Some c) s' 0)
          end
      end
  end.

Definition sub_empty (ml : bool) (r : regex) (s : string) : string :=
  sub_empty_from ml r None s 0.

End Re.

(* ================================================================== *)
(** * The data model ([parser.py], dataclasses) *)
(* ================================================================== *)

Record Task : Type := mkTask {
  id : string;
  description : string;
  files : list string;
  depends_on : list string;
  agent_type : option string;
  complexity : string;
  completed : bool
}.

(** [Section] of the source; the name is a keyword here. *)
Record Section_ : Type := mkSection {
  number : Z;
  name : string;
  tasks : list Task
}.

Record ParseResult : Type := mkParseResult {
  sections : list Section_;
  errors : list string;
  warnings : list string
}.

(* ================================================================== *)
(** * The task document parser ([parser.py]) *)
(* ================================================================== *)

Module Parser.

Import Re.
Local Open Scope re_scope.

(** [r'^## (\d+)\. (.+)$'], MULTILINE *)
Definition section_pattern : regex :=
  Bol @ Lit "## " @ Group 1 (Plus Py.is_digit) @ Lit ". "
      @ Group 2 (Plus any) @ Eol.

(** [\s*\(<key>:\s*([^)]+)\)] with the capture numbered [n] *)
Definition annotation (key : regex) (n : nat) : regex :=
  Star Py.is_space @ Lit "(" @ key @ Lit ":" @ Star Py.is_space
    @ Group n (Plus not_rparen) @ Lit ")".

(** [r'^- \[([ x])\] (\d+\.\d+(?:\.\d+)?[a-z]?) (.+?)'
     r'(?:\s*\(files?:\s*([^)]+)\))?' r'(?:\s*\(depends?:\s*([^)]+)\))?'
     r'(?:\s*\(agent:\s*([^)]+)\))?' r'(?:\s*\(complexity:\s*([^)]+)\))?$'],
    MULTILINE *)
Definition task_pattern : regex :=
  Bol @ Lit "- [" @ Group 1 (Set_ space_or_x) @ Lit "] "
      @ Group 2 (Plus Py.is_digit @ Lit "." @ Plus Py.is_digit
                   @ Opt (Lit "." @ Plus Py.is_digit)
                   @ Opt (Set_ Py.is_lower_letter))
      @ Lit " "
      @ Group 3 (PlusLazy any)
      @ Opt (annotation (Lit "file" @ Opt (Lit "s")) 4)
      @ Opt (annotation (Lit "depend" @ Opt (Lit "s")) 5)
      @ Opt (annotation (Lit "agent") 6)
      @ Opt (annotation (Lit "complexity") 7)
      @ Eol.

Definition valid_complexity (c : string) : bool :=
  String.eqb c "low" || String.eqb c "medium" || String.eqb c "high".

(** The messages of the parser. *)
Definition mismatch_error (task_id : string) (section_num : Z) : string :=
  "Task " ++ task_id ++ " in section " ++ Py.str section_num
    ++ " should start with '" ++ Py.str section_num ++ ".'".

Definition missing_files_warning (task_id : string) : string :=
  "Task " ++ task_id
    ++ " missing (files: ...) annotation - agent routing may be less accurate".

Definition invalid_complexity_warning (task_id c : string) : string :=
  "Task " ++ task_id ++ " has invalid complexity '" ++ c
    ++ "', using 'medium'".

Definition empty_section_warning (section_num : Z) (section_name : string)
  : string :=
  "Section " ++ Py.str section_num ++ " '" ++ section_name
    ++ "' has no tasks".

Definition no_sections_error : string :=
  "No sections found. Expected format: '## 1. Section Name'".

(** The accumulators [errors] and [warnings] of [parse_tasks_md], threaded
    through the two loops. *)
Record log : Type := mkLog {
  log_errors : list string;
  log_warnings : list string
}.

Definition add_error (e : string) (l : log) : log :=
  mkLog (log_errors l ++ [e]) (log_warnings l).

Definition add_warning (w : string) (l : log) : log :=
  mkLog (log_errors l) (log_warnings l ++ [w]).

(** The section-number check of one task match (lines 90-93). *)
Definition check_section (section_num : Z) (task_id : string) (l : log) : log :=
  let task_section := Py.int (hd "" (Py.split "." task_id)) in
  if Z.eqb task_section section_num then l
  else add_error (mismatch_error task_id section_num) l.

(** The [files] annotation (lines 95-100). *)
Definition parse_files (task_id : string) (files_str : option string)
  (l : log) : list string * log :=
  match files_str with
  | Some fs =>
      if Py.truthy files_str then (map Py.strip (Py.split "," fs), l)
      else ([], add_warning (missing_files_warning task_id) l)
  | None => ([], add_warning (missing_files_warning task_id) l)
  end.

(** The [depends] annotation (lines 102-105). *)
Definition parse_depends (depends_str : option string) : list string :=
  match depends_str with
  | Some ds =>
      if Py.truthy depends_str then map Py.strip (Py.split "," ds) else []
  | None => []
  end.

(** The [complexity] annotation (lines 107-114). *)
Definition parse_complexity (task_id : string) (c : option string) (l : log)
  : string * log :=
  match c with
  | Some c0 =>
      if Py.truthy c then
        let c1 := Py.lower (Py.strip c0) in
        if valid_complexity c1 then (c1, l)
        else ("medium", add_warning (invalid_complexity_warning task_id c1) l)
      else ("medium", l)
  | None => ("medium", l)
  end.

(** [agent.strip() if agent else None] *)
Definition parse_agent (agent : option string) : option string :=
  match agent with
  | Some a => if Py.truthy agent then Some (Py.strip a) else None
  | None => None
  end.

(** The body of the inner loop: one task match of a section. *)
Definition parse_task (section_num : Z) (task_match : match_obj) (l : log)
  : Task * log :=
  let checkbox_state := group_str task_match 1 in
  let task_id := group_str task_match 2 in
  let description := Py.strip (group_str task_match 3) in
  let files_str := group task_match 4 in
  let depends_str := group task_match 5 in
  let agent := group task_match 6 in
  let complexity := group task_match 7 in
  let is_completed := String.eqb checkbox_state "x" in
  let l1 := check_section section_num task_id l in
  let '(files, l2) := parse_files task_id files_str l1 in
  let depends_on := parse_depends depends_str in
  let '(complexity', l3) := parse_complexity task_id complexity l2 in
  (mkTask task_id description files depends_on (parse_agent agent)
          complexity' is_completed, l3).

(** The inner loop: [section.tasks] grows by one task per match. *)
Fixpoint parse_task_matches (section_num : Z) (ms : list match_obj)
  (acc : list Task) (l : log) : list Task * log :=
  match ms with
  | [] => (acc, l)
  | m :: ms' =>
      let '(t, l') := parse_task section_num m l in
      parse_task_matches section_num ms' (acc ++ [t]) l'
  end.

(** One turn of the outer loop: the section of header match [m], whose
    content runs to [stop]. *)
Definition parse_section (content : string) (m : match_obj) (stop : nat)
  (l : log) : Section_ * log :=
  let section_num := Py.int (group_str m 1) in
  let section_name := Py.strip (group_str m 2) in
  let section_content := Py.slice (m_end m) stop content in
  let '(ts, l1) :=
    parse_task_matches section_num (finditer true task_pattern section_content)
      [] l in
  let l2 :=
    match ts with
    | [] => add_warning (empty_section_warning section_num section_name) l1
    | _ => l1
    end in
  (mkSection section_num section_name ts, l2).

(** The outer loop over [section_matches]; a section ends where the next
    header starts, the last one at the end of the content. *)
Fixpoint parse_sections (content : string) (ms : list match_obj)
  (acc : list Section_) (l : log) : list Section_ * log :=
  match ms with
  | [] => (acc, l)
  | m :: ms' =>
      let stop :=
        match ms' with
        | m' :: _ => m_start m'
        | [] => String.length content
        end in
      let '(s, l') := parse_section content m stop l in
      parse_sections content ms' (acc ++ [s]) l'
  end.

Definition parse_tasks_md (content : string) : ParseResult :=
  let section_matches := finditer true section_pattern content in
  match section_matches with
  | [] => mkParseResult [] [no_sections_error] []
  | _ =>
      let '(ss, l) := parse_sections content section_matches [] (mkLog [] []) in
      mkParseResult ss (log_errors l) (log_warnings l)
  end.

Definition all_task_ids (sections : list Section_) : list string :=
  flat_map (fun s => map id (tasks s)) sections.

Definition mem (x : string) (l : list string) : bool :=
  existsb (String.eqb x) l.

Definition unknown_dependency_error (task_id dep : string) : string :=
  "Task " ++ task_id ++ " depends on unknown task '" ++ dep ++ "'".

Fixpoint validate_deps (all_ids : list string) (task_id : string)
  (deps : list string) (errs : list string) : list string :=
  match deps with
  | [] => errs
  | dep :: deps' =>
      validate_deps all_ids task_id deps'
        (if mem dep all_ids then errs
         else errs ++ [unknown_dependency_error task_id dep])
  end.

Fixpoint validate_tasks (all_ids : list string) (ts : list Task)
  (errs : list string) : list string :=
  match ts with
  | [] => errs
  | t :: ts' =>
      validate_tasks all_ids ts' (validate_deps all_ids (id t) (depends_on t) errs)
  end.

Fixpoint validate_sections (all_ids : list string) (ss : list Section_)
  (errs : list string) : list string :=
  match ss with
  | [] => errs
  | s :: ss' =>
      validate_sections all_ids ss' (validate_tasks all_ids (tasks s) errs)
  end.

Definition validate_dependencies (sections : list Section_) : list string :=
  validate_sections (all_task_ids sections) sections [].

End Parser.

(* ================================================================== *)
(** * The dependency inference engine ([inference.py]) *)
(* ================================================================== *)

Record InferredDependency : Type := mkDep {
  from_task : string;
  to_task : string;
  confidence : Z;
  reason : string
}.

(** The value returned by [infer_dependencies]; an edge dictionary
    [{"from", "to", "confidence", "reason"}] is the record it is built
    from. *)
Record Inferred : Type := mkInferred {
  auto_apply : list InferredDependency;
  pending_review : list InferredDependency
}.

Module Inference.

Import Re.
Import Py.
Local Open Scope re_scope.

(** ** Identifier model *)

(** [r'^(\d+)([a-z]?)$'] *)
Definition part_pattern : regex :=
  Bol @ Group 1 (Plus is_digit) @ Group 2 (Opt (Set_ is_lower_letter)) @ Eol.

(** [r'^(\d+)'] *)
Definition digits_pattern : regex :=
  Bol @ Group 1 (Plus is_digit).

(** The body of the loop of [parse_task_id], on the pair
    [(numeric_parts, letter_suffix)]. *)
Definition parse_part (st : list Z * string) (part : string) : list Z * string :=
  let '(numeric_parts, letter_suffix) := st in
  match match_ false part_pattern part with
  | Some m =>
      ((numeric_parts ++ [int (group_str m 1)])%list,
       if truthy (group m 2) then group_str m 2 else letter_suffix)
  | None =>
      match match_ false digits_pattern part with
      | Some digits =>
          ((numeric_parts ++ [int (group_str digits 1)])%list, letter_suffix)
      | None => (numeric_parts, letter_suffix)
      end
  end.

Definition parse_task_id (task_id : string) : list Z * string :=
  fold_left parse_part (split "." task_id) ([], "").

(** An element of a sort key: the tuple [( *parts, suffix)] mixes [int]
    and [str]. *)
Inductive key_elem : Type :=
| KInt (n : Z)
| KStr (s : string).

Definition task_id_sort_key (task_id : string) : list key_elem :=
  let '(parts, suffix) := parse_task_id task_id in
  (map KInt parts ++ [KStr suffix])%list.

(** [x == y] on elements: an [int] never equals a [str]. *)
Definition elem_eqb (x y : key_elem) : bool :=
  match x, y with
  | KInt a, KInt b => Z.eqb a b
  | KStr a, KStr b => String.eqb a b
  | _, _ => false
  end.

(** [x < y] on elements: [int] against [str] raises [TypeError]. *)
Definition elem_lt (x y : key_elem) : result bool :=
  match x, y with
  | KInt a, KInt b => Ok (Z.ltb a b)
  | KStr a, KStr b => Ok (str_ltb a b)
  | _, _ => Raise TypeError
  end.

(** [a < b] on tuples: the first pair of unequal elements decides; without
    one, the shorter tuple is the smaller. *)
Fixpoint tuple_lt (a b : list key_elem) : result bool :=
  match a, b with
  | x :: a', y :: b' => if elem_eqb x y then tuple_lt a' b' else elem_lt x y
  | [], _ :: _ => Ok true
  | _, [] => Ok false
  end.

(** [key(a) < key(b)], as [sorted(..., key=task_id_sort_key)] and the
    keyword strategy evaluate it. *)
Definition key_lt (a b : string) : result bool :=
  tuple_lt (task_id_sort_key a) (task_id_sort_key b).

(** [sorted(task_ids, key=task_id_sort_key)]: a stable sort that compares
    keys with [<] only and raises when a comparison does. Each identifier
    in turn is inserted into the sorted prefix, behind the ones that are
    not greater than it. *)
Fixpoint insert_sorted (x : string) (l : list string) : result (list string) :=
  match l with
  | [] => Ok [x]
  | y :: l' =>
      b <- key_lt x y ;;
      if b then Ok (x :: y :: l')
      else (r <- insert_sorted x l' ;; Ok (y :: r))
  end.

Fixpoint sorted_from (acc : list string) (l : list string) : result (list string) :=
  match l with
  | [] => Ok acc
  | x :: l' => acc' <- insert_sorted x acc ;; sorted_from acc' l'
  end.

Definition sorted (task_ids : list string) : result (list string) :=
  sorted_from [] task_ids.

(** [get_subsection_key] *)
Definition get_subsection_key (task_id : string) : string :=
  let '(parts, _) := parse_task_id task_id in
  if (2 <=? List.length parts)%nat then join "." (map str (removelast parts))
  else match parts with
       | p :: _ => str p
       | [] => ""
       end.

(** [r'\.(ts|tsx|js|jsx|vue|py|go)$'] *)
Definition extension_pattern : regex :=
  Lit "." @ Group 1 (Alt (Lit "ts") (Alt (Lit "tsx") (Alt (Lit "js")
              (Alt (Lit "jsx") (Alt (Lit "vue") (Alt (Lit "py") (Lit "go")))))))
      @ Eol.

Definition extract_stem (filepath : string) : string :=
  let name := last (split "/" filepath) "" in
  let name := sub_empty false extension_pattern name in
  lower name.

(** The table [patterns] of [extract_keywords], in its order. *)
Definition patterns : list (string * list string) :=
  [ ("schema", ["schema"; "model"; "table"; "entity"]);
    ("type", ["type"; "interface"; "typedef"]);
    ("mutation", ["mutation"; "create"; "update"; "delete"; "write"]);
    ("query", ["query"; "read"; "fetch"; "get"; "list"]);
    ("component", ["component"; "view"; "page"; "ui"]);
    ("test", ["test"; "spec"; "coverage"]);
    ("api", ["api"; "endpoint"; "route"; "handler"]) ].

(** [extract_keywords]: the categories of a description, as the sequence
    of the [add] calls that build the set. *)
Definition extract_keywords (description : string) : list string :=
  let desc_lower := lower description in
  map fst
    (filter (fun cw => existsb (fun word => contains word desc_lower) (snd cw))
            patterns).

(** The table [keyword_deps] of [infer_from_keywords]. *)
Definition keyword_deps : list (string * list string) :=
  [ ("mutation", ["schema"; "type"]);
    ("query", ["schema"; "type"]);
    ("component", ["type"; "query"; "mutation"]);
    ("test", []);
    ("api", ["schema"; "type"]) ].

(** ** Dictionaries in insertion order *)

(** [d.get(k)] *)
Fixpoint get {V : Type} (d : list (string * V)) (k : string) : option V :=
  match d with
  | [] => None
  | (k', v) :: d' => if String.eqb k' k then Some v else get d' k
  end.

(** [d[k] = v] *)
Fixpoint set {V : Type} (d : list (string * V)) (k : string) (v : V)
  : list (string * V) :=
  match d with
  | [] => [(k, v)]
  | (k', v') :: d' =>
      if String.eqb k' k then (k', v) :: d' else (k', v') :: set d' k v
  end.

(** [d[k].append(x)], the list being created on the first use of [k]
    (a [defaultdict(list)], or the [if k not in d: d[k] = []] idiom). *)
Fixpoint append_to (d : list (string * list string)) (k x : string)
  : list (string * list string) :=
  match d with
  | [] => [(k, [x])]
  | (k', xs) :: d' =>
      if String.eqb k' k then (k', (xs ++ [x])%list) :: d'
      else (k', xs) :: append_to d' k x
  end.

(** A [for] loop whose body may raise, on the state it updates. *)
Fixpoint for_each {A S : Type} (body : S -> A -> result S) (l : list A) (s : S)
  : result S :=
  match l with
  | [] => Ok s
  | x :: l' => s' <- body s x ;; for_each body l' s'
  end.

Definition deps : Type := list InferredDependency.

(** ** Strategy 1: order within a subsection *)

Definition subsection_reason (subsection : string) : string :=
  "subsection order: sequential within " ++ subsection.

Definition group_by_subsection (tasks : list Task) : list (string * list string) :=
  fold_left (fun d task => append_to d (get_subsection_key (id task)) (id task))
            tasks [].

(** [for i in range(1, len(sorted_ids))]: each identifier against the one
    before it. *)
Fixpoint sequential (subsection : string) (sorted_ids : list string) : deps :=
  match sorted_ids with
  | prev :: (cur :: _) as rest =>
      mkDep cur prev 90 (subsection_reason subsection) :: sequential subsection rest
  | _ => []
  end.

Definition subsection_body (dependencies : deps) (g : string * list string)
  : result deps :=
  let '(subsection, task_ids) := g in
  if (List.length task_ids <? 2)%nat then Ok dependencies
  else
    sorted_ids <- sorted task_ids ;;
    Ok (dependencies ++ sequential subsection sorted_ids)%list.

Definition infer_from_subsection_order (tasks : list Task) : result deps :=
  for_each subsection_body (group_by_subsection tasks) [].

(** ** Strategy 2: shared file stems *)

Definition stem_reason (stem : string) : string :=
  "file pattern: shared stem '" ++ stem ++ "'".

Definition group_by_stem (tasks : list Task) : list (string * list string) :=
  fold_left (fun d task =>
               fold_left (fun d filepath =>
                            append_to d (extract_stem filepath) (id task))
                         (files task) d)
            tasks [].

(** [for i, later_task in enumerate(sorted_ids[1:], 1):
       for earlier_task in sorted_ids[:i]: ...] *)
Fixpoint fan_in (stem : string) (sorted_ids : list string) (i : nat)
  (later : list string) : deps :=
  match later with
  | [] => []
  | later_task :: later' =>
      (map (fun earlier_task => mkDep later_task earlier_task 85 (stem_reason stem))
           (firstn i sorted_ids)
       ++ fan_in stem sorted_ids (S i) later')%list
  end.

Definition stem_body (dependencies : deps) (g : string * list string)
  : result deps :=
  let '(stem, task_ids) := g in
  if (1 <? List.length task_ids)%nat then
    sorted_ids <- sorted task_ids ;;
    Ok (dependencies ++ fan_in stem sorted_ids 1 (tl sorted_ids))%list
  else Ok dependencies.

Definition infer_from_file_patterns (tasks : list Task) : result deps :=
  for_each stem_body (group_by_stem tasks) [].

(** ** Strategy 4: order of the sections *)

Definition section_reason (cur prev : Z) : string :=
  "section order: section " ++ str cur ++ " after section " ++ str prev.

(** [for i, section in enumerate(sections[1:], 1)], with
    [prev_section = sections[i - 1]]. *)
Fixpoint infer_from_section_order (sections : list Section_) : deps :=
  match sections with
  | prev_section :: (section :: _) as rest =>
      match tasks prev_section, tasks section with
      | _ :: _, curr_first :: _ =>
          mkDep (id curr_first)
                (id (last (tasks prev_section) curr_first))
                25
                (section_reason (number section) (number prev_section))
            :: infer_from_section_order rest
      | _, _ => infer_from_section_order rest
      end
  | _ => []
  end.

(** ** Merge and categorisation *)

Definition same_pair (a b : InferredDependency) : bool :=
  String.eqb (from_task a) (from_task b) && String.eqb (to_task a) (to_task b).

(** One turn of the deduplication loop on the dictionary [unique_deps],
    keyed by [(from_task, to_task)]: a new key is added at the end, a
    present key is overwritten in place by a strictly higher confidence. *)
Fixpoint merge_one (unique_deps : deps) (dep : InferredDependency) : deps :=
  match unique_deps with
  | [] => [dep]
  | d :: rest =>
      if same_pair d dep then
        (if (confidence d <? confidence dep)%Z then dep else d) :: rest
      else d :: merge_one rest dep
  end.

Definition merge (all_deps : deps) : deps :=
  fold_left merge_one all_deps [].

(** The categorisation loop over [unique_deps.values()]. *)
Definition categorize (unique_deps : deps) (confidence_threshold : Z) : Inferred :=
  fold_left
    (fun r dep =>
       if (confidence_threshold <=? confidence dep)%Z
       then mkInferred (auto_apply r ++ [dep]) (pending_review r)
       else mkInferred (auto_apply r) (pending_review r ++ [dep]))
    unique_deps (mkInferred [] []).

Definition all_tasks_of (sections : list Section_) : list Task :=
  flat_map tasks sections.

(** ** Strategy 3: keyword categories, and the engine *)

Section Engine.

(** The order in which a [set] of categories is iterated. Python leaves it
    unspecified; within one run it is a function of the way the set was
    built, and every set here is built by [extract_keywords]. *)
Variable set_order : list string -> list string.
Hypothesis set_order_perm : forall l, Permutation (set_order l) l.

Definition keyword_reason (kw req_kw : string) : string :=
  "keyword: '" ++ kw ++ "' typically depends on '" ++ req_kw ++ "'".

(** The first loop: [task_keywords] and [keyword_to_tasks]. *)
Definition index_task (st : list (string * list string) * list (string * list string))
  (task : Task) : list (string * list string) * list (string * list string) :=
  let '(keyword_to_tasks, task_keywords) := st in
  let keywords := extract_keywords (description task) in
  (fold_left (fun d kw => append_to d kw (id task)) (set_order keywords)
             keyword_to_tasks,
   set task_keywords (id task) keywords).

Definition index_tasks (tasks : list Task)
  : list (string * list string) * list (string * list string) :=
  fold_left index_task tasks ([], []).

(** The innermost loop: the candidates [dep_task_id] of one required
    category. *)
Definition candidate_body (task_id kw req_kw : string) (dependencies : deps)
  (dep_task_id : string) : result deps :=
  if negb (String.eqb dep_task_id task_id) then
    b <- tuple_lt (task_id_sort_key dep_task_id) (task_id_sort_key task_id) ;;
    if b then Ok (dependencies ++ [mkDep task_id dep_task_id 50 (keyword_reason kw req_kw)])%list
    else Ok dependencies
  else Ok dependencies.

Definition required_body (keyword_to_tasks : list (string * list string))
  (task_id kw : string) (dependencies : deps) (req_kw : string) : result deps :=
  match get keyword_to_tasks req_kw with
  | Some cands => for_each (candidate_body task_id kw req_kw) cands dependencies
  | None => Ok dependencies
  end.

Definition keyword_body (keyword_to_tasks : list (string * list string))
  (task_id : string) (dependencies : deps) (kw : string) : result deps :=
  let required_kws :=
    match get keyword_deps kw with Some l => l | None => [] end in
  for_each (required_body keyword_to_tasks task_id kw) required_kws dependencies.

(** The second loop, one task. *)
Definition task_body (keyword_to_tasks task_keywords : list (string * list string))
  (dependencies : deps) (task : Task) : result deps :=
  let task_kws :=
    match get task_keywords (id task) with Some l => l | None => [] end in
  for_each (keyword_body keyword_to_tasks (id task)) (set_order task_kws)
           dependencies.

Definition infer_from_keywords (tasks : list Task) : result deps :=
  let '(keyword_to_tasks, task_keywords) := index_tasks tasks in
  for_each (task_body keyword_to_tasks task_keywords) tasks [].

(** [infer_dependencies]; [parsed_data] is the list of its sections. *)
Definition all_deps_of (parsed_data : list Section_) : result deps :=
  let all_tasks := all_tasks_of parsed_data in
  d1 <- infer_from_subsection_order all_tasks ;;
  d2 <- infer_from_file_patterns all_tasks ;;
  d3 <- infer_from_keywords all_tasks ;;
  Ok (d1 ++ d2 ++ d3 ++ infer_from_section_order parsed_data)%list.

Definition infer_dependencies (parsed_data : list Section_)
  (confidence_threshold : Z) : result Inferred :=
  all_deps <- all_deps_of parsed_data ;;
  Ok (categorize (merge all_deps) confidence_threshold).

End Engine.

End Inference.


(* ================================================================== *)
(** * Vocabulary of the properties *)
(* ================================================================== *)

Module Spec.

Import Re.
Import Py.
Import Parser.
Import Inference.

(** ** Parser *)

(** The header matches of a document, each with the offset at which its
    section ends. *)
Fixpoint with_stops (content_len : nat) (ms : list match_obj)
  : list (match_obj * nat) :=
  match ms with
  | [] => []
  | m :: ms' =>
      (m, match ms' with
          | m' :: _ => m_start m'
          | [] => content_len
          end) :: with_stops content_len ms'
  end.

Definition section_spans (content : string) : list (match_obj * nat) :=
  with_stops (String.length content) (finditer true section_pattern content).

Definition span_number (sp : match_obj * nat) : Z := int (group_str (fst sp) 1).
Definition span_name (sp : match_obj * nat) : string := strip (group_str (fst sp) 2).

(** The task lines of a section that the grammar matches. *)
Definition task_matches (content : string) (sp : match_obj * nat)
  : list match_obj :=
  finditer true task_pattern (slice (m_end (fst sp)) (snd sp) content).

(** The fields of a task line as the groups of its match give them. *)
Definition match_id (tm : match_obj) : string := group_str tm 2.

Definition match_section (tm : match_obj) : Z :=
  int (hd "" (split "." (match_id tm))).

Definition complexity_of (c : option string) : string :=
  match c with
  | Some c0 =>
      if truthy c then
        (if valid_complexity (lower (strip c0)) then lower (strip c0)
         else "medium")
      else "medium"
  | None => "medium"
  end.

Definition files_of (files_str : option string) : list string :=
  match files_str with
  | Some fs => if truthy files_str then map strip (split "," fs) else []
  | None => []
  end.

Definition task_of_match (tm : match_obj) : Task :=
  mkTask (match_id tm)
         (strip (group_str tm 3))
         (files_of (group tm 4))
         (parse_depends (group tm 5))
         (parse_agent (group tm 6))
         (complexity_of (group tm 7))
         (String.eqb (group_str tm 1) "x").

(** The warnings that the [files] step of a match leaves. *)
Definition files_warnings (tm : match_obj) : list string :=
  if truthy (group tm 4) then [] else [missing_files_warning (match_id tm)].

(** The errors that one task match adds. *)
Definition task_errors (section_num : Z) (tm : match_obj) : list string :=
  if Z.eqb (match_section tm) section_num then []
  else [mismatch_error (match_id tm) section_num].

(** The section that one header match yields, and the errors it adds. *)
Definition section_of (content : string) (sp : match_obj * nat) : Section_ :=
  mkSection (span_number sp) (span_name sp)
            (map task_of_match (task_matches content sp)).

Definition section_errors (content : string) (sp : match_obj * nat)
  : list string :=
  flat_map (task_errors (span_number sp)) (task_matches content sp).

(** All pairs (task, declared dependency), in the order in which
    [validate_dependencies] visits them. *)
Definition declared_of_task (t : Task) : list (string * string) :=
  map (fun dep => (id t, dep)) (depends_on t).

Definition declared (sections : list Section_) : list (string * string) :=
  flat_map (fun s => flat_map declared_of_task (tasks s)) sections.

Definition unknown (all_ids : list string) (p : string * string) : bool :=
  negb (mem (snd p) all_ids).

Definition error_of (p : string * string) : string :=
  unknown_dependency_error (fst p) (snd p).

(** ** Inference *)

Definition pair_of (d : InferredDependency) : string * string :=
  (from_task d, to_task d).

(** [d] is the candidate that the merge keeps for its pair: an occurrence
    of [d] in the candidate list with only strictly weaker candidates of
    the same pair before it and none stronger after it. *)
Definition survives (d : InferredDependency) (l : deps) : Prop :=
  exists l1 l2,
    l = (l1 ++ d :: l2)%list
    /\ (forall x, In x l1 -> pair_of x = pair_of d ->
                  (confidence x < confidence d)%Z)
    /\ (forall x, In x l2 -> pair_of x = pair_of d ->
                  (confidence x <= confidence d)%Z).

(** The test of the categorisation loop. *)
Definition above (t : Z) (d : InferredDependency) : bool :=
  (t <=? confidence d)%Z.

(** [a] comes immediately before [b] in [l]. *)
Definition adjacent (a b : string) (l : list string) : Prop :=
  exists l1 l2, l = (l1 ++ a :: b :: l2)%list.

(** The identifiers of a subsection, in task order. *)
Definition subsection_group (tasks : list Task) (subsection : string)
  : list string :=
  filter (fun i => String.eqb (get_subsection_key i) subsection) (map id tasks).

(** An identifier with at least two numeric parts, as the grammar of task
    lines gives them. *)
Definition valid_id (task_id : string) : Prop :=
  (2 <= List.length (fst (parse_task_id task_id)))%nat.

Definition task (i d : string) (f : list string) : Task :=
  mkTask i d f [] None "medium" false.

(** The value of a dictionary of lists at a key, empty when absent. *)
Definition values (d : list (string * list string)) (k : string) : list string :=
  match get d k with
  | Some v => v
  | None => []
  end.

(** A dictionary of lists filled from a sequence of (key, item) pairs. *)
Definition group_pairs (ps : list (string * string)) : list (string * list string) :=
  fold_left (fun d p => append_to d (fst p) (snd p)) ps [].

Definition items_of (ps : list (string * string)) (k : string) : list string :=
  map snd (filter (fun p => String.eqb (fst p) k) ps).

Definition subsection_pairs (tasks : list Task) : list (string * string) :=
  map (fun t => (get_subsection_key (id t), id t)) tasks.

Definition stem_pairs (tasks : list Task) : list (string * string) :=
  flat_map (fun t => map (fun f => (extract_stem f, id t)) (files t)) tasks.

(** The edges that the turns of a loop add, one list per turn. *)
Fixpoint gather {A : Type} (f : A -> result deps) (l : list A) : result deps :=
  match l with
  | [] => Ok []
  | x :: l' => e <- f x ;; es <- gather f l' ;; Ok (e ++ es)%list
  end.

(** The edges of one subsection group, and of one stem group. *)
Definition subsection_edges (g : string * list string) : result deps :=
  if (List.length (snd g) <? 2)%nat then Ok []
  else sorted_ids <- sorted (snd g) ;; Ok (sequential (fst g) sorted_ids).

Definition stem_edges (g : string * list string) : result deps :=
  if (1 <? List.length (snd g))%nat then
    sorted_ids <- sorted (snd g) ;;
    Ok (fan_in (fst g) sorted_ids 1 (tl sorted_ids))
  else Ok [].

(** The edges of the keyword strategy, level by level. *)
Definition candidate_edges (task_id kw req_kw dep_task_id : string) : result deps :=
  if negb (String.eqb dep_task_id task_id) then
    b <- key_lt dep_task_id task_id ;;
    Ok (if b then [mkDep task_id dep_task_id 50 (keyword_reason kw req_kw)]
        else [])
  else Ok [].

Definition required_edges (keyword_to_tasks : list (string * list string))
  (task_id kw req_kw : string) : result deps :=
  match get keyword_to_tasks req_kw with
  | Some cands => gather (candidate_edges task_id kw req_kw) cands
  | None => Ok []
  end.

Definition required_of (kw : string) : list string :=
  match get keyword_deps kw with
  | Some l => l
  | None => []
  end.

Definition keyword_edges (keyword_to_tasks : list (string * list string))
  (task_id kw : string) : result deps :=
  gather (required_edges keyword_to_tasks task_id kw) (required_of kw).

Definition task_edges (set_order : list string -> list string)
  (keyword_to_tasks task_keywords : list (string * list string)) (t : Task)
  : result deps :=
  gather (keyword_edges keyword_to_tasks (id t))
         (set_order (values task_keywords (id t))).

(** Identifiers whose sort keys can be compared, whatever the order. *)
Definition comparable (l : list string) : Prop :=
  forall a b, In a l -> In b l -> exists r, key_lt a b = Ok r.

(** The number of dots of a string. *)
Fixpoint dots (s : string) : nat :=
  match s with
  | "" => 0
  | String c s' => (if Ascii.eqb c "." then 1 else 0) + dots s'
  end.

(** The (category, task) pairs that the first loop of the keyword strategy
    files, in its order. *)
Definition keyword_pairs (set_order : list string -> list string)
  (tasks : list Task) : list (string * string) :=
  flat_map (fun t => map (fun kw => (kw, id t))
                         (set_order (extract_keywords (description t))))
           tasks.

(** [a] may stand before [b] in sorted order: [b] is not smaller. *)
Definition in_order (a b : string) : Prop := key_lt b a = Ok false.

(** The shape of the identifiers of task lines. *)
Definition starts_with_digit (s : string) : bool :=
  match s with
  | String c _ => is_digit c
  | "" => false
  end.

Fixpoint all_digits (s : string) : bool :=
  match s with
  | "" => true
  | String c s' => is_digit c && all_digits s'
  end.

Definition number_text (s : string) : Prop :=
  all_digits s = true /\ s <> "".

(** [p] is a strict beginning of [q]. *)
Fixpoint proper_prefix (p q : list Z) : bool :=
  match p, q with
  | [], _ :: _ => true
  | x :: p', y :: q' => Z.eqb x y && proper_prefix p' q'
  | _, [] => false
  end.

Definition numeric_parts (task_id : string) : list Z :=
  fst (parse_task_id task_id).

(** ** Sample documents *)

Definition lines (l : list string) : string := join (String newline "") l.

(** A task line without a complexity annotation. *)
Definition doc_plain : string :=
  lines ["## 1. Setup";
         "- [ ] 1.1 Add schema (files: schema.ts)"].

(** Two task lines with the same identifier. *)
Definition doc_twice : string :=
  lines ["## 1. Setup";
         "- [ ] 1.1 Add schema (files: schema.ts)";
         "- [ ] 1.1 Add model (files: model.ts)"].

(** A task line whose identifier starts with another section's number. *)
Definition doc_mismatch : string :=
  lines ["## 2. Build";
         "- [x] 1.3a Add handler (files: api.ts) (depends: 1.1) (agent: bob) (complexity: High)"].

(** ** Sample inputs *)

(** One task with two files of the same stem. *)
Definition tasks_same_stem : list Task :=
  [task "1.1" "Add user schema" ["src/user.ts"; "tests/user.py"]].




(** Scenario 1 of the specification. *)
Definition parsed_setup : list Section_ :=
  [mkSection 1 "Setup"
     [task "1.1" "Add schema" ["schema.ts"];
      task "1.2" "Add mutation" ["mutation.ts"]]].

(** The identity as iteration order of a set. *)
Definition in_table_order (l : list string) : list string := l.

(** The document of scenario 1 of the specification. *)
Definition doc_setup : string :=
  lines ["## 1. Setup";
         "- [ ] 1.1 Add schema (files: schema.ts)";
         "- [ ] 1.2 Add mutation (files: mutation.ts) (depends: 1.1)"].

(** ** The words that a pattern consumes *)

Fixpoint all_in (p : ascii -> bool) (w : string) : bool :=
  match w with
  | "" => true
  | String c w' => p c && all_in p w'
  end.

(** [consumes ml r w rest caps caps']: the pattern can match the word [w]
    in front of [rest], turning the captures [caps] into [caps']. Where a
    match starts is left open: [^] consumes nothing. *)
Fixpoint consumes (ml : bool) (r : regex) (w rest : string)
  (caps caps' : captures) : Prop :=
  match r with
  | Lit l => w = l /\ caps' = caps
  | Set_ p => (exists c, w = String c "" /\ p c = true) /\ caps' = caps
  | Star p => all_in p w = true /\ caps' = caps
  | Plus p | PlusLazy p => (all_in p w = true /\ w <> "") /\ caps' = caps
  | Seq r1 r2 =>
      exists w1 w2 c1,
        w = (w1 ++ w2)%string
        /\ consumes ml r1 w1 (w2 ++ rest)%string caps c1
        /\ consumes ml r2 w2 rest c1 caps'
  | Alt r1 r2 =>
      consumes ml r1 w rest caps caps' \/ consumes ml r2 w rest caps caps'
  | Opt r1 =>
      consumes ml r1 w rest caps caps' \/ (w = "" /\ caps' = caps)
  | Group n r1 =>
      exists c1, consumes ml r1 w rest caps c1 /\ caps' = (n, w) :: c1
  | Bol => w = "" /\ caps' = caps
  | Eol => (w = "" /\ at_eol ml rest = true) /\ caps' = caps
  end.

(** The group numbers that a pattern can bind. *)
Fixpoint binds (r : regex) : list nat :=
  match r with
  | Seq r1 r2 | Alt r1 r2 => binds r1 ++ binds r2
  | Opt r1 => binds r1
  | Group n r1 => n :: binds r1
  | _ => []
  end.

(** ** The shape of what the task pattern captures *)

Definition optional_letter (l : string) : Prop :=
  l = "" \/ exists c, is_lower_letter c = true /\ l = String c "".

Definition optional_part (tail : string) : Prop :=
  tail = "" \/ exists d3, number_text d3 /\ tail = String "." d3.

(** [DIGITS "." DIGITS ["." DIGITS] [LETTER]] *)
Definition grammar_id (w : string) : Prop :=
  exists d1 d2 tail letter,
    w = (d1 ++ String "." (d2 ++ tail ++ letter))%string
    /\ number_text d1 /\ number_text d2
    /\ optional_part tail /\ optional_letter letter.

Definition annotation_text (t : string) : Prop :=
  all_in not_rparen t = true /\ t <> "".

Definition task_captures (caps : captures) : Prop :=
  (exists c, group_of caps 1 = Some (String c "") /\ space_or_x c = true)
  /\ (exists w, group_of caps 2 = Some w /\ grammar_id w)
  /\ (exists d, group_of caps 3 = Some d /\ all_in any d = true /\ d <> "")
  /\ (forall n t, (4 <= n <= 7)%nat -> group_of caps n = Some t ->
                  annotation_text t).

(** ** The warnings of a parse *)

Definition complexity_warnings (tm : match_obj) : list string :=
  match group tm 7 with
  | Some c =>
      if truthy (Some c) && negb (valid_complexity (lower (strip c)))
      then [invalid_complexity_warning (match_id tm) (lower (strip c))]
      else []
  | None => []
  end.

Definition task_warnings (tm : match_obj) : list string :=
  files_warnings tm ++ complexity_warnings tm.

Definition section_warnings (content : string) (sp : match_obj * nat)
  : list string :=
  flat_map task_warnings (task_matches content sp)
  ++ match task_matches content sp with
     | [] => [empty_section_warning (span_number sp) (span_name sp)]
     | _ => []
     end.

(** A text without white space at either end. *)
Definition trimmed (s : string) : Prop := strip s = s.

(** The number of occurrences of a character. *)
Fixpoint occurrences (c : ascii) (s : string) : nat :=
  match s with
  | "" => 0
  | String a s' => (if Ascii.eqb a c then 1 else 0) + occurrences c s'
  end.

(** The extensions that [extract_stem] removes. *)
Definition extensions : list string :=
  ["ts"; "tsx"; "js"; "jsx"; "vue"; "py"; "go"].

(** ** What the engine reads of a task *)

Definition core_task (t : Task) : Task :=
  mkTask (id t) (description t) (files t) [] None "medium" false.

Definition core_section (s : Section_) : Section_ :=
  mkSection (number s) "" (map core_task (tasks s)).

(** The confidences that the four strategies give. *)
Definition confidences : list Z := [90; 85; 50; 25]%Z.

(** Three tasks that list a file of the same stem. *)
Definition tasks_shared_stem : list Task :=
  [task "1.1" "Add user schema" ["db/user.ts"];
   task "1.3" "Add user page" ["ui/User.vue"];
   task "1.2" "Add user query" ["api/user.py"]].


(** ** Numbers that [int()] converts *)

(** The digits at the start of a segment of an identifier: what
    [parse_task_id] hands to [int()]. *)
Fixpoint leading_digits (s : string) : string :=
  match s with
  | String c s' => if is_digit c then String c (leading_digits s') else ""
  | "" => ""
  end.

(** [int()] returns on every digit run of the identifier. *)
Definition within_int_limit (task_id : string) : Prop :=
  forall part, In part (split "." task_id) ->
               int_returns (leading_digits part) = true.

(** A task whose only category is test, ahead of a task of another
    category with the same identifier. *)
Definition tasks_test_twice : list Task :=
  [task "1.2" "Run tests" [];
   task "1.1" "Add schema" [];
   task "1.2" "Add mutation" []].

(** ** Identifiers as the specification reads them *)

(** A digit run that [int()] converts. *)
Definition converts (d : string) : Prop :=
  number_text d /\ int_returns d = true.

(** [reads w k]: [w] is written [DIGITS "." DIGITS ["." DIGITS] [LETTER]],
    and [k] holds the numbers of its digit runs, in order, and its letter,
    empty without one. *)
Inductive reads : string -> list Z * string -> Prop :=
| reads_two d1 d2 l :
    converts d1 -> converts d2 -> optional_letter l ->
    reads (d1 ++ String "." (d2 ++ l))%string ([int d1; int d2], l)
| reads_three d1 d2 d3 l :
    converts d1 -> converts d2 -> converts d3 -> optional_letter l ->
    reads (d1 ++ String "." (d2 ++ String "." (d3 ++ l)))%string
          ([int d1; int d2; int d3], l).

(** The subsection of an identifier: its numeric parts except the last;
    and the name of a subsection, its numbers joined with dots. *)
Definition parent (k : list Z * string) : list Z := removelast (fst k).

Definition subsection_name (p : list Z) : string := join "." (map str p).

(** The order of identifiers: the numbers first, one after the other,
    then the letter, no letter before any letter. *)
Fixpoint numbers_compare (p q : list Z) : comparison :=
  match p, q with
  | [], [] => Eq
  | [], _ :: _ => Lt
  | _ :: _, [] => Gt
  | x :: p', y :: q' =>
      match Z.compare x y with
      | Eq => numbers_compare p' q'
      | c => c
      end
  end.

Definition earlier (k1 k2 : list Z * string) : bool :=
  match numbers_compare (fst k1) (fst k2) with
  | Lt => true
  | Gt => false
  | Eq => str_ltb (snd k1) (snd k2)
  end.

Fixpoint numbers_eqb (p q : list Z) : bool :=
  match p, q with
  | [], [] => true
  | x :: p', y :: q' => Z.eqb x y && numbers_eqb p' q'
  | _, _ => false
  end.

(** The identifiers of the tasks that belong to subsection [p], in task
    order, when [key] reads the identifiers. *)
Definition subsection_members (key : string -> list Z * string)
  (tasks : list Task) (p : list Z) : list string :=
  filter (fun i => numbers_eqb (parent (key i)) p) (map id tasks).

Definition has_key (key : string -> list Z * string) (k : list Z * string)
  (i : string) : bool :=
  numbers_eqb (fst (key i)) (fst k) && String.eqb (snd (key i)) (snd k).

(** [s] is [g] in sorted order: the same identifiers, none earlier than
    one that stands before it, and those that read the same in the order
    they have in [g]. *)
Definition arranged (key : string -> list Z * string) (g s : list string)
  : Prop :=
  Permutation g s
  /\ StronglySorted (fun a b => earlier (key b) (key a) = false) s
  /\ forall k, filter (has_key key k) s = filter (has_key key k) g.

(** A reading of the two identifiers of scenario 1. *)
Definition key_setup (w : string) : list Z * string :=
  if String.eqb w "1.1" then ([1; 1]%Z, "") else ([1; 2]%Z, "").

End Spec.

(* ================================================================== *)
(** * Properties of the parser *)
(* ================================================================== *)

Module ParserFacts.

Import Re.
Import Py.
Import Parser.
Import Spec.

Lemma parse_files_fst task_id files_str l :
  fst (parse_files task_id files_str l) = files_of files_str.
Proof.
  unfold parse_files, files_of.
  destruct files_str as [fs|]; [|reflexivity].
  destruct (truthy (Some fs)); reflexivity.
Qed.

Lemma parse_files_errors task_id files_str l :
  log_errors (snd (parse_files task_id files_str l)) = log_errors l.
Proof.
  unfold parse_files.
  destruct files_str as [fs|]; [|reflexivity].
  destruct (truthy (Some fs)); reflexivity.
Qed.

Lemma parse_complexity_fst task_id c l :
  fst (parse_complexity task_id c l) = complexity_of c.
Proof.
  unfold parse_complexity, complexity_of.
  destruct c as [c0|]; [|reflexivity].
  destruct (truthy (Some c0)); [|reflexivity].
  destruct (valid_complexity (lower (strip c0))); reflexivity.
Qed.

Lemma parse_complexity_errors task_id c l :
  log_errors (snd (parse_complexity task_id c l)) = log_errors l.
Proof.
  unfold parse_complexity.
  destruct c as [c0|]; [|reflexivity].
  destruct (truthy (Some c0)); [|reflexivity].
  destruct (valid_complexity (lower (strip c0))); reflexivity.
Qed.

(** The task built from a match depends neither on the section it stands
    in nor on the log. *)
Lemma parse_task_fst section_num tm l :
  fst (parse_task section_num tm l) = task_of_match tm.
Proof.
  unfold parse_task, task_of_match, match_id.
  pose proof (parse_files_fst (group_str tm 2) (group tm 4)
                (check_section section_num (group_str tm 2) l)) as Hf.
  destruct (parse_files (group_str tm 2) (group tm 4)
              (check_section section_num (group_str tm 2) l)) as [fl l2].
  pose proof (parse_complexity_fst (group_str tm 2) (group tm 7) l2) as Hc.
  destruct (parse_complexity (group_str tm 2) (group tm 7) l2) as [c l3].
  simpl in *. subst. reflexivity.
Qed.

Lemma parse_task_errors section_num tm l :
  log_errors (snd (parse_task section_num tm l))
  = (log_errors l ++ task_errors section_num tm)%list.
Proof.
  unfold parse_task.
  pose proof (parse_files_errors (group_str tm 2) (group tm 4)
                (check_section section_num (group_str tm 2) l)) as Hf.
  destruct (parse_files (group_str tm 2) (group tm 4)
              (check_section section_num (group_str tm 2) l)) as [fl l2].
  pose proof (parse_complexity_errors (group_str tm 2) (group tm 7) l2) as Hc.
  destruct (parse_complexity (group_str tm 2) (group tm 7) l2) as [c l3].
  simpl in *. rewrite Hc, Hf.
  unfold check_section, task_errors, match_section, match_id.
  destruct (Z.eqb _ _); simpl; [rewrite app_nil_r|]; reflexivity.
Qed.

Lemma parse_task_matches_spec section_num ms : forall acc l,
  fst (parse_task_matches section_num ms acc l)
  = (acc ++ map task_of_match ms)%list
  /\ log_errors (snd (parse_task_matches section_num ms acc l))
     = (log_errors l ++ flat_map (task_errors section_num) ms)%list.
Proof.
  induction ms as [|m ms IH]; intros acc l; simpl.
  - now rewrite !app_nil_r.
  - pose proof (parse_task_fst section_num m l) as Ht.
    pose proof (parse_task_errors section_num m l) as He.
    destruct (parse_task section_num m l) as [t l']. simpl in Ht, He.
    destruct (IH (acc ++ [t])%list l') as [IH1 IH2].
    rewrite IH1, IH2, He, Ht, <- !app_assoc. split; reflexivity.
Qed.

Lemma parse_section_spec content m stop l :
  fst (parse_section content m stop l) = section_of content (m, stop)
  /\ log_errors (snd (parse_section content m stop l))
     = (log_errors l ++ section_errors content (m, stop))%list.
Proof.
  unfold parse_section, section_of, section_errors, task_matches,
    span_number, span_name. simpl fst. simpl snd.
  destruct (parse_task_matches_spec (int (group_str m 1))
              (finditer true task_pattern (slice (m_end m) stop content))
              [] l) as [H1 H2].
  destruct (parse_task_matches (int (group_str m 1))
              (finditer true task_pattern (slice (m_end m) stop content))
              [] l) as [ts l1].
  simpl in H1, H2. subst ts. simpl. split; [reflexivity|].
  destruct (map task_of_match _); simpl; exact H2.
Qed.

Lemma parse_sections_spec content ms : forall acc l,
  fst (parse_sections content ms acc l)
  = (acc ++ map (section_of content) (with_stops (String.length content) ms))%list
  /\ log_errors (snd (parse_sections content ms acc l))
     = (log_errors l
        ++ flat_map (section_errors content)
             (with_stops (String.length content) ms))%list.
Proof.
  induction ms as [|m ms IH]; intros acc l.
  - simpl. now rewrite !app_nil_r.
  - cbn [parse_sections with_stops map flat_map].
    set (stop := match ms with
                 | m' :: _ => m_start m'
                 | [] => String.length content
                 end).
    destruct (parse_section_spec content m stop l) as [H1 H2].
    destruct (parse_section content m stop l) as [s l'].
    simpl in H1, H2.
    destruct (IH (acc ++ [s])%list l') as [IH1 IH2].
    rewrite IH1, IH2, H2, H1, <- !app_assoc. split; reflexivity.
Qed.

(** The sections of a parse are the header matches of the document, each
    with one task per matched task line, in document order. *)
Lemma parse_sections_of content :
  sections (parse_tasks_md content)
  = map (section_of content) (section_spans content).
Proof.
  unfold parse_tasks_md, section_spans.
  destruct (finditer true section_pattern content) as [|m ms] eqn:E.
  - reflexivity.
  - destruct (parse_sections_spec content (m :: ms) [] (mkLog [] [])) as [H _].
    destruct (parse_sections content (m :: ms) [] (mkLog [] [])) as [ss l].
    simpl in H. simpl. exact H.
Qed.

Lemma parse_errors_of content :
  section_spans content <> [] ->
  errors (parse_tasks_md content)
  = flat_map (section_errors content) (section_spans content).
Proof.
  unfold parse_tasks_md, section_spans.
  destruct (finditer true section_pattern content) as [|m ms] eqn:E.
  - intros H; now elim H.
  - intros _.
    destruct (parse_sections_spec content (m :: ms) [] (mkLog [] [])) as [_ H].
    destruct (parse_sections content (m :: ms) [] (mkLog [] [])) as [ss l].
    simpl in H. simpl. exact H.
Qed.

End ParserFacts.

Module ParserClaims.

Import Re.
Import Py.
Import Parser.
Import Inference.
Import Spec.
Import ParserFacts.

(** C4, as the parser has it. For every task line matched by the grammar:
    a missing complexity annotation gives complexity "medium" and records
    no warning; an annotation whose value, trimmed and lowercased, is not
    one of low, medium, high records a warning and gives "medium"; any
    other annotation gives its trimmed, lowercased value and records no
    complexity warning. The warnings after the match are those before it,
    the missing-files warning if any, and the complexity warning if any. *)
Theorem C4_complexity_annotation :
  forall (section_num : Z) (tm : match_obj) (l : log),
    let t := fst (parse_task section_num tm l) in
    let w := log_warnings (snd (parse_task section_num tm l)) in
    let w0 := (log_warnings l ++ files_warnings tm)%list in
    match group tm 7 with
    | None => complexity t = "medium" /\ w = w0
    | Some c =>
        if truthy (Some c) then
          if valid_complexity (lower (strip c))
          then complexity t = lower (strip c) /\ w = w0
          else complexity t = "medium"
               /\ w = (w0 ++ [invalid_complexity_warning (match_id tm)
                                (lower (strip c))])%list
        else complexity t = "medium" /\ w = w0
    end.
Proof.
  intros section_num tm l. cbv zeta.
  unfold parse_task, files_warnings, match_id, parse_files.
  assert (Hw : log_warnings (check_section section_num (group_str tm 2) l)
               = log_warnings l).
  { unfold check_section. destruct (Z.eqb _ _); reflexivity. }
  destruct (group tm 4) as [fs|] eqn:E4;
    [destruct (truthy (Some fs)) eqn:T4|];
    (destruct (group tm 7) as [c|] eqn:E7;
     [unfold parse_complexity; destruct (truthy (Some c)) eqn:T7;
      [destruct (valid_complexity (lower (strip c))) eqn:V|]|]);
    simpl; rewrite ?Hw, ?app_nil_r; split; reflexivity.
Qed.

(** C4, the claim as written fails: the only task line of [doc_plain] has
    no complexity annotation, its task gets "medium", and the parse
    records no warning at all. *)
Lemma C4_missing_complexity_is_silent :
  map (fun tm => group tm 7)
      (flat_map (task_matches doc_plain) (section_spans doc_plain)) = [None]
  /\ map complexity (all_tasks_of (sections (parse_tasks_md doc_plain)))
     = ["medium"]
  /\ warnings (parse_tasks_md doc_plain) = [].
Proof. vm_compute. repeat split. Qed.

Lemma all_task_ids_of content :
  all_task_ids (sections (parse_tasks_md content))
  = flat_map (fun sp => map match_id (task_matches content sp))
             (section_spans content).
Proof.
  rewrite parse_sections_of. unfold all_task_ids.
  induction (section_spans content) as [|sp sps IH]; simpl; [reflexivity|].
  rewrite IH, map_map. reflexivity.
Qed.

(** C8, as the parser has it. The parser keeps one task per matched task
    line and compares no identifiers: the identifiers of the parse result
    are those of the matched task lines, in document order and with their
    repetitions, so they are pairwise distinct exactly when the matched
    lines' identifiers are. *)
Theorem C8_identifiers_as_written :
  forall content : string,
    let line_ids :=
      flat_map (fun sp => map match_id (task_matches content sp))
               (section_spans content) in
    all_task_ids (sections (parse_tasks_md content)) = line_ids
    /\ (NoDup (all_task_ids (sections (parse_tasks_md content)))
        <-> NoDup line_ids).
Proof.
  intros content line_ids. subst line_ids.
  rewrite all_task_ids_of. split; [reflexivity|tauto].
Qed.

(** C8, the claim as written fails: both task lines of [doc_twice] carry
    the identifier 1.1, and the parse result holds two tasks with it. *)
Lemma C8_duplicate_identifier :
  all_task_ids (sections (parse_tasks_md doc_twice)) = ["1.1"; "1.1"]
  /\ ~ NoDup (all_task_ids (sections (parse_tasks_md doc_twice))).
Proof.
  assert (E : all_task_ids (sections (parse_tasks_md doc_twice))
              = ["1.1"; "1.1"]) by (vm_compute; reflexivity).
  split; [exact E|]. rewrite E. intros H.
  inversion H as [|? ? Hn _]; subst. apply Hn. now left.
Qed.

Lemma validate_deps_spec all_ids task_id deps : forall errs,
  validate_deps all_ids task_id deps errs
  = (errs ++ map error_of
              (filter (unknown all_ids) (map (fun dep => (task_id, dep)) deps)))%list.
Proof.
  induction deps as [|dep deps IH]; intros errs; simpl.
  - now rewrite app_nil_r.
  - rewrite IH. unfold unknown at 2. simpl.
    destruct (mem dep all_ids); simpl; [reflexivity|].
    now rewrite <- app_assoc.
Qed.

Lemma validate_tasks_spec all_ids ts : forall errs,
  validate_tasks all_ids ts errs
  = (errs ++ map error_of
              (filter (unknown all_ids) (flat_map declared_of_task ts)))%list.
Proof.
  induction ts as [|t ts IH]; intros errs; simpl.
  - now rewrite app_nil_r.
  - rewrite IH, validate_deps_spec, filter_app, map_app, <- app_assoc.
    reflexivity.
Qed.

Lemma validate_sections_spec all_ids ss : forall errs,
  validate_sections all_ids ss errs
  = (errs ++ map error_of (filter (unknown all_ids) (declared ss)))%list.
Proof.
  induction ss as [|s ss IH]; intros errs; simpl.
  - now rewrite app_nil_r.
  - rewrite IH, validate_tasks_spec, filter_app, map_app, <- app_assoc.
    reflexivity.
Qed.

Lemma mem_In x l : mem x l = true <-> In x l.
Proof.
  unfold mem. rewrite existsb_exists. split.
  - intros [y [Hy E]]. apply String.eqb_eq in E. now subst.
  - intros H. exists x. split; [exact H|apply String.eqb_refl].
Qed.

Lemma In_all_task_ids x ss :
  In x (all_task_ids ss)
  <-> exists s t, In s ss /\ In t (tasks s) /\ id t = x.
Proof.
  unfold all_task_ids. rewrite in_flat_map. split.
  - intros [s [Hs Hx]]. apply in_map_iff in Hx. destruct Hx as [t [E Ht]].
    exists s, t. auto.
  - intros [s [t [Hs [Ht E]]]]. exists s. split; [exact Hs|].
    apply in_map_iff. exists t. auto.
Qed.

Lemma In_declared p ss :
  In p (declared ss)
  <-> exists s t, In s ss /\ In t (tasks s) /\ In (snd p) (depends_on t)
                  /\ fst p = id t.
Proof.
  unfold declared, declared_of_task. rewrite in_flat_map. split.
  - intros [s [Hs Hp]]. apply in_flat_map in Hp. destruct Hp as [t [Ht Hp]].
    apply in_map_iff in Hp. destruct Hp as [dep [E Hd]]. subst p.
    exists s, t. simpl. auto.
  - intros [s [t [Hs [Ht [Hd E]]]]]. exists s. split; [exact Hs|].
    apply in_flat_map. exists t. split; [exact Ht|].
    apply in_map_iff. exists (snd p). split; [|exact Hd].
    destruct p; simpl in *. now subst.
Qed.

(** C9. [validate_dependencies] returns, in the order of the declarations,
    one error for each declared [depends_on] entry that is not among the
    task identifiers of all sections, and nothing else; the list is empty
    exactly when every declared dependency of every task is the identifier
    of a task of some section. *)
Theorem C9_validate_dependencies :
  forall ss : list Section_,
    validate_dependencies ss
    = map error_of (filter (unknown (all_task_ids ss)) (declared ss))
    /\ (validate_dependencies ss = []
        <-> (forall s t dep,
               In s ss -> In t (tasks s) -> In dep (depends_on t) ->
               exists s' t', In s' ss /\ In t' (tasks s') /\ id t' = dep)).
Proof.
  intros ss.
  assert (E : validate_dependencies ss
              = map error_of (filter (unknown (all_task_ids ss)) (declared ss))).
  { unfold validate_dependencies. now rewrite validate_sections_spec. }
  split; [exact E|]. rewrite E. split.
  - intros Hnil s t dep Hs Ht Hd.
    apply In_all_task_ids, mem_In.
    destruct (mem dep (all_task_ids ss)) eqn:M; [reflexivity|].
    assert (Hin : In (id t, dep)
                     (filter (unknown (all_task_ids ss)) (declared ss))).
    { apply filter_In. split.
      - apply In_declared. exists s, t. simpl. auto.
      - unfold unknown. simpl. now rewrite M. }
    apply (in_map error_of) in Hin. rewrite Hnil in Hin. destruct Hin.
  - intros Hall.
    destruct (filter (unknown (all_task_ids ss)) (declared ss)) as [|p ps] eqn:F;
      [reflexivity|].
    assert (Hp : In p (filter (unknown (all_task_ids ss)) (declared ss)))
      by (rewrite F; now left).
    apply filter_In in Hp. destruct Hp as [Hd Hu].
    apply In_declared in Hd. destruct Hd as [s [t [Hs [Ht [Hd _]]]]].
    specialize (Hall s t (snd p) Hs Ht Hd).
    apply In_all_task_ids, mem_In in Hall.
    unfold unknown in Hu. rewrite Hall in Hu. discriminate.
Qed.

(** C10. A task line whose identifier starts with a number other than its
    section's is kept: the section of the parse result holds the task that
    the line's groups give, the same task that any section and any log
    would give, so the flattened task list that inference reads has it; and
    the parse records the blocking error of the mismatch. *)
Theorem C10_mismatched_task_is_kept :
  forall (content : string) (sp : match_obj * nat) (tm : match_obj),
    In sp (section_spans content) ->
    In tm (task_matches content sp) ->
    match_section tm <> span_number sp ->
    In (section_of content sp) (sections (parse_tasks_md content))
    /\ In (task_of_match tm) (tasks (section_of content sp))
    /\ (forall n l, fst (parse_task n tm l) = task_of_match tm)
    /\ In (task_of_match tm) (all_tasks_of (sections (parse_tasks_md content)))
    /\ In (mismatch_error (match_id tm) (span_number sp))
          (errors (parse_tasks_md content)).
Proof.
  intros content sp tm Hsp Htm Hne.
  assert (Hs : In (section_of content sp) (sections (parse_tasks_md content))).
  { rewrite parse_sections_of. now apply in_map. }
  assert (Ht : In (task_of_match tm) (tasks (section_of content sp))).
  { simpl. now apply in_map. }
  repeat split.
  - exact Hs.
  - exact Ht.
  - intros n l. apply parse_task_fst.
  - unfold all_tasks_of. apply in_flat_map. eauto.
  - rewrite parse_errors_of.
    + apply in_flat_map. exists sp. split; [exact Hsp|].
      unfold section_errors. apply in_flat_map. exists tm. split; [exact Htm|].
      unfold task_errors. apply Z.eqb_neq in Hne. rewrite Hne. now left.
    + intros E. rewrite E in Hsp. destruct Hsp.
Qed.

(** C10 at [doc_mismatch]: task 1.3a under the header of section 2. *)
Lemma C10_mismatched_task_is_kept_witness :
  let sp := hd (MatchObj 0 0 [], 0%nat) (section_spans doc_mismatch) in
  let tm := hd (MatchObj 0 0 []) (task_matches doc_mismatch sp) in
  task_of_match tm
  = mkTask "1.3a" "Add handler" ["api.ts"] ["1.1"] (Some "bob") "high" true
  /\ In (task_of_match tm)
        (all_tasks_of (sections (parse_tasks_md doc_mismatch)))
  /\ In (mismatch_error "1.3a" 2) (errors (parse_tasks_md doc_mismatch)).
Proof.
  intros sp tm.
  destruct (C10_mismatched_task_is_kept doc_mismatch sp tm)
    as [_ [_ [_ [H1 H2]]]].
  - vm_compute. left. reflexivity.
  - vm_compute. left. reflexivity.
  - vm_compute. discriminate.
  - split; [vm_compute; reflexivity|]. split; [exact H1|exact H2].
Defined.

End ParserClaims.

(* ================================================================== *)
(** * Properties of the inference engine *)
(* ================================================================== *)

Module InferenceFacts.

Import Py.
Import Inference.
Import Spec.

Local Open Scope list_scope.
Local Open Scope Z_scope.

(** ** Categorisation *)

Lemma categorize_from u t : forall r,
  fold_left
    (fun r dep =>
       if t <=? confidence dep
       then mkInferred (auto_apply r ++ [dep]) (pending_review r)
       else mkInferred (auto_apply r) (pending_review r ++ [dep]))
    u r
  = mkInferred (auto_apply r ++ filter (above t) u)
               (pending_review r ++ filter (fun d => negb (above t d)) u).
Proof.
  induction u as [|d u IH]; intros r; simpl.
  - rewrite !app_nil_r. now destruct r.
  - rewrite IH. unfold above.
    destruct (t <=? confidence d); simpl; rewrite <- ?app_assoc; reflexivity.
Qed.

Lemma categorize_spec u t :
  categorize u t
  = mkInferred (filter (above t) u) (filter (fun d => negb (above t d)) u).
Proof. unfold categorize. now rewrite categorize_from. Qed.

Lemma filter_split {A} (f : A -> bool) (l : list A) :
  Permutation (filter f l ++ filter (fun x => negb (f x)) l) l.
Proof.
  induction l as [|x l IH]; simpl; [constructor|].
  destruct (f x); simpl.
  - now constructor.
  - apply Permutation_sym, Permutation_cons_app, Permutation_sym, IH.
Qed.

(** ** Merge *)

Lemma same_pair_iff a b : same_pair a b = true <-> pair_of a = pair_of b.
Proof.
  unfold same_pair, pair_of. rewrite andb_true_iff, !String.eqb_eq. split.
  - intros [-> ->]. reflexivity.
  - intros E. now inversion E.
Qed.

Lemma same_pair_sym a b : same_pair a b = same_pair b a.
Proof. unfold same_pair. now rewrite (String.eqb_sym (from_task a)), (String.eqb_sym (to_task a)). Qed.

Lemma same_pair_trans a b c :
  same_pair a b = true -> same_pair b c = true -> same_pair a c = true.
Proof. rewrite !same_pair_iff. congruence. Qed.

Lemma merge_snoc l x : merge (l ++ [x]) = merge_one (merge l) x.
Proof. unfold merge. now rewrite fold_left_app. Qed.

Lemma pairs_merge_one u x :
  map pair_of (merge_one u x)
  = if existsb (fun y => same_pair y x) u then map pair_of u
    else (map pair_of u ++ [pair_of x])%list.
Proof.
  induction u as [|y u IH]; simpl; [reflexivity|].
  destruct (same_pair y x) eqn:S; simpl.
  - destruct (confidence y <? confidence x); simpl; [|reflexivity].
    apply same_pair_iff in S. now rewrite S.
  - rewrite IH. now destruct (existsb _ u).
Qed.

Lemma NoDup_merge_one u x :
  NoDup (map pair_of u) -> NoDup (map pair_of (merge_one u x)).
Proof.
  intros ND. rewrite pairs_merge_one.
  destruct (existsb (fun y => same_pair y x) u) eqn:E; [exact ND|].
  apply NoDup_app_remove_l with (l := []). simpl.
  apply Permutation_NoDup with (l := pair_of x :: map pair_of u).
  - apply Permutation_cons_append.
  - constructor; [|exact ND].
    intros Hin. apply in_map_iff in Hin. destruct Hin as [y [Ey Hy]].
    assert (existsb (fun y => same_pair y x) u = true).
    { apply existsb_exists. exists y. split; [exact Hy|].
      now apply same_pair_iff. }
    congruence.
Qed.

Lemma In_merge_one u x d :
  NoDup (map pair_of u) ->
  In d (merge_one u x)
  <-> (In d u /\ (same_pair d x = true -> confidence x <= confidence d))
      \/ (d = x /\ forall y, In y u -> same_pair y x = true ->
                             confidence y < confidence x).
Proof.
  induction u as [|y u IH]; intros ND.
  - simpl. split.
    + intros [E|[]]. right. split; [now subst|]. intros ? [].
    + intros [[[] _]|[E _]]. now left.
  - inversion ND as [|? ? Hy ND']; subst.
    assert (Hother : forall z, In z u -> same_pair y x = true ->
                               same_pair z x = true -> False).
    { intros z Hz S1 S2. apply Hy. apply in_map_iff. exists z.
      split; [|exact Hz]. apply same_pair_iff.
      apply same_pair_trans with x; [exact S2|].
      now rewrite same_pair_sym. }
    simpl. destruct (same_pair y x) eqn:S.
    + destruct (confidence y <? confidence x) eqn:L.
      * apply Z.ltb_lt in L. simpl. split.
        -- intros [E|Hd].
           ++ right. split; [now subst|]. intros z [->|Hz] Sz; [exact L|].
              exfalso. eauto.
           ++ left. split; [now right|]. intros Sd. exfalso. eauto.
        -- intros [[[E|Hd] Hc]|[E _]].
           ++ subst d. specialize (Hc S). lia.
           ++ now right.
           ++ now left.
      * apply Z.ltb_ge in L. simpl. split.
        -- intros [E|Hd].
           ++ left. subst d. split; [now left|]. intros _. exact L.
           ++ left. split; [now right|]. intros Sd. exfalso. eauto.
        -- intros [[Hd _]|[E Hall]]; [exact Hd|].
           specialize (Hall y (or_introl eq_refl) S). lia.
    + simpl. rewrite (IH ND'). split.
      * intros [E|[[Hd Hc]|[E Hall]]].
        -- left. subst d. split; [now left|]. intros Sd. congruence.
        -- left. split; [now right|exact Hc].
        -- right. split; [exact E|]. intros z [->|Hz] Sz; [congruence|auto].
      * intros [[[E|Hd] Hc]|[E Hall]].
        -- now left.
        -- right. left. auto.
        -- right. right. split; [exact E|]. intros z Hz. apply Hall. now right.
Qed.

Lemma survives_In d l : survives d l -> In d l.
Proof.
  intros [l1 [l2 [E _]]]. subst l. apply in_or_app. right. now left.
Qed.

(** The same, with the test of the loop in place of the equality of the
    pairs. *)
Lemma survives_test d l :
  survives d l
  <-> exists l1 l2,
        l = l1 ++ d :: l2
        /\ (forall x, In x l1 -> same_pair x d = true ->
                      confidence x < confidence d)
        /\ (forall x, In x l2 -> same_pair x d = true ->
                      confidence x <= confidence d).
Proof.
  unfold survives. split; intros [l1 [l2 [E [H1 H2]]]]; exists l1, l2;
    (split; [exact E|]); split; intros x Hx S;
    first [apply H1|apply H2]; try exact Hx; now apply same_pair_iff.
Qed.

Lemma survives_snoc d l x :
  survives d (l ++ [x])
  <-> (survives d l /\ (same_pair x d = true -> confidence x <= confidence d))
      \/ (d = x /\ forall y, In y l -> same_pair y x = true ->
                             confidence y < confidence x).
Proof.
  rewrite !survives_test.
  split.
  - intros [l1 [l2 [E [H1 H2]]]].
    induction l2 as [|x' l2' _] using rev_ind.
    + right. apply app_inj_tail in E. destruct E as [-> ->]. split; [reflexivity|].
      exact H1.
    + left. rewrite app_comm_cons, app_assoc in E.
      apply app_inj_tail in E. destruct E as [-> ->]. split.
      * exists l1, l2'. split; [reflexivity|]. split; [exact H1|].
        intros z Hz. apply H2. apply in_or_app. now left.
      * apply H2. apply in_or_app. right. now left.
  - intros [[[l1 [l2 [E [H1 H2]]]] Hx]|[E Hall]].
    + exists l1, (l2 ++ [x])%list. subst l. rewrite <- app_assoc. simpl.
      split; [reflexivity|]. split; [exact H1|].
      intros z Hz Sz. apply in_app_or in Hz. destruct Hz as [Hz|[->|[]]]; auto.
    + subst d. exists l, []. split; [reflexivity|]. split; [exact Hall|].
      intros ? [].
Qed.

Lemma merge_invariant l :
  NoDup (map pair_of (merge l))
  /\ (forall d, In d (merge l) <-> survives d l)
  /\ (forall c, In c l ->
        exists d, In d (merge l) /\ same_pair d c = true
                  /\ confidence c <= confidence d).
Proof.
  induction l as [|x l IH] using rev_ind.
  - split; [constructor|]. split.
    + intros d. split; [intros []|].
      intros [l1 [l2 [E _]]]. now destruct l1.
    + intros c [].
  - destruct IH as [ND [Hin Hdom]]. rewrite merge_snoc.
    assert (Hweak : (forall y, In y (merge l) -> same_pair y x = true ->
                               confidence y < confidence x)
                    <-> (forall y, In y l -> same_pair y x = true ->
                                   confidence y < confidence x)).
    { split.
      - intros H y Hy Sy. destruct (Hdom y Hy) as [d [Hd [Sd Hc]]].
        specialize (H d Hd (same_pair_trans _ _ _ Sd Sy)). lia.
      - intros H y Hy. apply H. apply survives_In. now apply Hin. }
    split; [now apply NoDup_merge_one|]. split.
    + intros d. rewrite (@In_merge_one (merge l) x d ND), survives_snoc, Hin, Hweak.
      rewrite (same_pair_sym x d). reflexivity.
    + intros c Hc.
      assert (Hx : exists d, In d (merge_one (merge l) x)
                             /\ same_pair d x = true
                             /\ confidence x <= confidence d).
      { destruct (existsb (fun y => same_pair y x
                                    && (confidence x <=? confidence y))
                          (merge l)) eqn:E.
        - apply existsb_exists in E. destruct E as [y [Hy E]].
          apply andb_true_iff in E. destruct E as [Sy Ly].
          apply Z.leb_le in Ly. exists y. split; [|auto].
          apply (@In_merge_one (merge l) x y ND). left. auto.
        - exists x. split.
          + apply (@In_merge_one (merge l) x x ND). right. split; [reflexivity|].
            intros y Hy Sy.
            destruct (Z.lt_ge_cases (confidence y) (confidence x)) as [?|G];
              [assumption|].
            assert (existsb (fun y => same_pair y x
                                      && (confidence x <=? confidence y))
                            (merge l) = true).
            { apply existsb_exists. exists y. split; [exact Hy|].
              apply andb_true_iff. split; [exact Sy|now apply Z.leb_le]. }
            congruence.
          + split; [|lia]. apply same_pair_iff. reflexivity. }
      apply in_app_or in Hc. destruct Hc as [Hc|[->|[]]]; [|exact Hx].
      destruct (Hdom c Hc) as [d [Hd [Sd Ld]]].
      destruct (same_pair d x) eqn:Sx.
      * destruct Hx as [e [He [Se Le]]].
        destruct (Z.lt_ge_cases (confidence d) (confidence x)) as [Lt|Ge].
        -- exists e. split; [exact He|]. split; [|lia].
           apply same_pair_trans with x; [exact Se|].
           apply same_pair_trans with d; [now rewrite same_pair_sym|exact Sd].
        -- exists d. split; [|auto].
           apply (@In_merge_one (merge l) x d ND). left. split; [exact Hd|]. intros _. lia.
      * exists d. split; [|auto].
        apply (@In_merge_one (merge l) x d ND). left. split; [exact Hd|].
        intros ?. congruence.
Qed.

(** ** Loops that append *)

Lemma for_each_gather {A} (body : deps -> A -> result deps)
  (f : A -> result deps) :
  (forall d x, body d x = (e <- f x ;; Ok (d ++ e))) ->
  forall l acc, for_each body l acc = (es <- gather f l ;; Ok (acc ++ es)).
Proof.
  intros Hbody. induction l as [|x l IH]; intros acc; simpl.
  - now rewrite app_nil_r.
  - rewrite Hbody. destruct (f x) as [e|err]; simpl; [|reflexivity].
    rewrite IH. destruct (gather f l) as [es|err]; simpl; [|reflexivity].
    now rewrite app_assoc.
Qed.

Lemma gather_In {A} (f : A -> result deps) l es :
  gather f l = Ok es ->
  forall d, In d es <-> exists x e, In x l /\ f x = Ok e /\ In d e.
Proof.
  revert es. induction l as [|x l IH]; intros es; simpl.
  - intros E. inversion E; subst. intros d. split; [intros []|].
    intros [? [? [[] _]]].
  - destruct (f x) as [e|err] eqn:Fx; simpl; [|discriminate].
    destruct (gather f l) as [es'|err] eqn:G; simpl; [|discriminate].
    intros E. inversion E; subst. intros d. rewrite in_app_iff, (IH es' eq_refl).
    split.
    + intros [Hd|[y [e' [Hy [Fy Hd]]]]].
      * exists x, e. auto.
      * exists y, e'. auto.
    + intros [y [e' [[->|Hy] [Fy Hd]]]].
      * left. congruence.
      * right. exists y, e'. auto.
Qed.

Lemma gather_total {A} (f : A -> result deps) l :
  (forall x, In x l -> exists e, f x = Ok e) -> exists es, gather f l = Ok es.
Proof.
  induction l as [|x l IH]; intros H; simpl.
  - eauto.
  - destruct (H x (or_introl eq_refl)) as [e ->].
    destruct IH as [es ->]; [intros y Hy; apply H; now right|].
    simpl. eauto.
Qed.

Lemma gather_Ok_each {A} (f : A -> result deps) l es :
  gather f l = Ok es -> forall x, In x l -> exists e, f x = Ok e.
Proof.
  revert es. induction l as [|x l IH]; intros es; simpl; [intros _ ? []|].
  destruct (f x) as [e|err] eqn:Fx; simpl; [|discriminate].
  destruct (gather f l) as [es'|err] eqn:G; simpl; [|discriminate].
  intros _ y [->|Hy]; [eauto|]. eapply IH; eauto.
Qed.

(** ** Sorting *)

Lemma insert_sorted_perm x l r :
  insert_sorted x l = Ok r -> Permutation (x :: l) r.
Proof.
  revert r. induction l as [|y l IH]; intros r; simpl.
  - intros E. inversion E. constructor. constructor.
  - destruct (key_lt x y) as [[|]|err]; simpl; try discriminate.
    + intros E. inversion E. apply Permutation_refl.
    + destruct (insert_sorted x l) as [r'|err] eqn:I; simpl; [|discriminate].
      intros E. inversion E; subst.
      eapply Permutation_trans; [apply perm_swap|].
      constructor. now apply IH.
Qed.

Lemma insert_sorted_total x l :
  (forall y, In y l -> exists r, key_lt x y = Ok r) ->
  exists r, insert_sorted x l = Ok r.
Proof.
  induction l as [|y l IH]; intros H; simpl; [eauto|].
  destruct (H y (or_introl eq_refl)) as [b ->]. simpl.
  destruct b; [eauto|].
  destruct IH as [r ->]; [intros z Hz; apply H; now right|]. simpl. eauto.
Qed.

Lemma sorted_from_perm l : forall acc r,
  sorted_from acc l = Ok r -> Permutation (acc ++ l) r.
Proof.
  induction l as [|x l IH]; intros acc r; simpl.
  - intros E. inversion E. now rewrite app_nil_r.
  - destruct (insert_sorted x acc) as [acc'|err] eqn:I; simpl; [|discriminate].
    intros E. apply IH in E. apply insert_sorted_perm in I.
    eapply Permutation_trans; [|exact E].
    eapply Permutation_trans; [apply Permutation_sym, Permutation_middle|].
    exact (Permutation_app_tail l I).
Qed.

Lemma sorted_perm l r : sorted l = Ok r -> Permutation l r.
Proof. intros E. now apply sorted_from_perm in E. Qed.

Lemma sorted_from_total l : forall acc,
  comparable (acc ++ l) -> exists r, sorted_from acc l = Ok r.
Proof.
  induction l as [|x l IH]; intros acc C; simpl; [eauto|].
  destruct (@insert_sorted_total x acc) as [acc' I].
  { intros y Hy. apply C; apply in_or_app; [right; now left|now left]. }
  rewrite I. simpl. apply IH.
  apply insert_sorted_perm in I.
  assert (P : Permutation (acc' ++ l) (acc ++ x :: l)).
  { eapply Permutation_trans;
      [exact (Permutation_app_tail l (Permutation_sym I))|].
    apply Permutation_middle. }
  intros a b Ha Hb.
  apply C; eapply Permutation_in; eauto.
Qed.

Lemma sorted_total l : comparable l -> exists r, sorted l = Ok r.
Proof. intros C. now apply sorted_from_total. Qed.

(** ** Dictionaries of lists *)

Lemma get_append_to d k x k' :
  get (append_to d k x) k'
  = if String.eqb k k' then Some (values d k' ++ [x]) else get d k'.
Proof.
  unfold values. induction d as [|[k0 v0] d IH]; simpl.
  - destruct (String.eqb k k'); reflexivity.
  - destruct (String.eqb k0 k) eqn:E0; simpl.
    + apply String.eqb_eq in E0. subst k0.
      destruct (String.eqb k k'); reflexivity.
    + destruct (String.eqb k0 k') eqn:E1.
      * apply String.eqb_eq in E1. subst k0.
        rewrite String.eqb_sym, E0. reflexivity.
      * exact IH.
Qed.

Lemma keys_append_to d k x :
  map fst (append_to d k x)
  = if existsb (String.eqb k) (map fst d) then map fst d
    else map fst d ++ [k].
Proof.
  induction d as [|[k0 v0] d IH]; simpl; [reflexivity|].
  rewrite (String.eqb_sym k k0).
  destruct (String.eqb k0 k) eqn:E0; simpl; [reflexivity|].
  rewrite IH. now destruct (existsb _ _).
Qed.

Lemma NoDup_append_to d k x :
  NoDup (map fst d) -> NoDup (map fst (append_to d k x)).
Proof.
  intros ND. rewrite keys_append_to.
  destruct (existsb (String.eqb k) (map fst d)) eqn:E; [exact ND|].
  apply Permutation_NoDup with (l := k :: map fst d).
  - apply Permutation_cons_append.
  - constructor; [|exact ND]. intros Hin.
    assert (existsb (String.eqb k) (map fst d) = true).
    { apply existsb_exists. exists k. split; [exact Hin|apply String.eqb_refl]. }
    congruence.
Qed.

Lemma group_pairs_snoc ps p :
  group_pairs (ps ++ [p]) = append_to (group_pairs ps) (fst p) (snd p).
Proof. unfold group_pairs. now rewrite fold_left_app. Qed.

Lemma NoDup_group_pairs ps : NoDup (map fst (group_pairs ps)).
Proof.
  induction ps as [|p ps IH] using rev_ind; [constructor|].
  rewrite group_pairs_snoc. now apply NoDup_append_to.
Qed.

Lemma items_of_snoc ps p k :
  items_of (ps ++ [p]) k
  = items_of ps k ++ (if String.eqb (fst p) k then [snd p] else []).
Proof.
  unfold items_of. rewrite filter_app, map_app. simpl.
  now destruct (String.eqb (fst p) k).
Qed.

Lemma get_group_pairs ps k :
  get (group_pairs ps) k
  = match items_of ps k with
    | [] => None
    | v => Some v
    end.
Proof.
  induction ps as [|p ps IH] using rev_ind; [reflexivity|].
  rewrite group_pairs_snoc, get_append_to, items_of_snoc.
  unfold values. rewrite IH.
  destruct (String.eqb (fst p) k).
  - destruct (items_of ps k); reflexivity.
  - now rewrite app_nil_r.
Qed.

Lemma In_get {V} (d : list (string * V)) k v :
  NoDup (map fst d) -> (In (k, v) d <-> get d k = Some v).
Proof.
  induction d as [|[k0 v0] d IH]; intros ND; simpl.
  - split; [intros []|discriminate].
  - inversion ND as [|? ? Hk ND']; subst.
    destruct (String.eqb k0 k) eqn:E.
    + apply String.eqb_eq in E. subst k0. split.
      * intros [E|Hin]; [congruence|].
        exfalso. apply Hk. apply in_map_iff. exists (k, v). auto.
      * intros E. left. congruence.
    + apply String.eqb_neq in E. rewrite <- (IH ND'). split.
      * intros [E'|Hin]; [congruence|exact Hin].
      * intros Hin. now right.
Qed.

(** A group of the dictionary is a key with its items, in order, and has
    at least one. *)
Lemma In_group_pairs ps k v :
  In (k, v) (group_pairs ps) <-> v = items_of ps k /\ v <> [].
Proof.
  rewrite (@In_get _ (group_pairs ps) k v (NoDup_group_pairs ps)),
    get_group_pairs.
  destruct (items_of ps k) as [|i is_]; split.
  - discriminate.
  - intros [-> H]. now elim H.
  - intros E. inversion E. split; [reflexivity|discriminate].
  - intros [-> _]. reflexivity.
Qed.

Lemma fold_left_map {A B C} (f : C -> B -> C) (g : A -> B) l : forall c,
  fold_left (fun c a => f c (g a)) l c = fold_left f (map g l) c.
Proof. induction l as [|a l IH]; intros c; simpl; [reflexivity|apply IH]. Qed.

Lemma group_by_subsection_pairs tasks :
  group_by_subsection tasks = group_pairs (subsection_pairs tasks).
Proof.
  unfold group_by_subsection, group_pairs, subsection_pairs.
  now rewrite <- fold_left_map.
Qed.

Lemma group_by_stem_pairs tasks :
  group_by_stem tasks = group_pairs (stem_pairs tasks).
Proof.
  unfold group_by_stem, group_pairs, stem_pairs.
  generalize (@nil (string * list string)).
  induction tasks as [|t tasks IH]; intros d; simpl; [reflexivity|].
  rewrite fold_left_app, IH. f_equal.
  now rewrite <- fold_left_map.
Qed.

Lemma items_of_subsection tasks k :
  items_of (subsection_pairs tasks) k = subsection_group tasks k.
Proof.
  unfold items_of, subsection_pairs, subsection_group.
  induction tasks as [|t tasks IH]; simpl; [reflexivity|].
  destruct (String.eqb (get_subsection_key (id t)) k); simpl; now rewrite IH.
Qed.

(** ** Sort keys within a subsection *)

Lemma dots_app a b : dots (a ++ b)%string = (dots a + dots b)%nat.
Proof. induction a as [|c a IH]; simpl; [reflexivity|]. rewrite IH. lia. Qed.

Lemma dots_uint d : dots (NilEmpty.string_of_uint d) = 0%nat.
Proof. induction d; simpl; auto. Qed.

Lemma dots_str z : dots (str z) = 0%nat.
Proof.
  unfold str, NilZero.string_of_int, NilZero.string_of_uint.
  destruct (Z.to_int z) as [d|d]; destruct d; simpl; auto using dots_uint.
Qed.

Lemma dots_join l :
  l <> [] -> dots (join "." (map str l)) = (List.length l - 1)%nat.
Proof.
  induction l as [|z l IH]; intros Hne; [now elim Hne|].
  destruct l as [|z' l].
  - simpl. apply dots_str.
  - change (join "." (map str (z :: z' :: l)))
      with (str z ++ "." ++ join "." (map str (z' :: l)))%string.
    rewrite !dots_app, dots_str, IH by discriminate. simpl. lia.
Qed.

Lemma length_removelast {A} (l : list A) :
  List.length (removelast l) = (List.length l - 1)%nat.
Proof.
  induction l as [|x l IH]; [reflexivity|].
  destruct l as [|y l]; [reflexivity|].
  change (removelast (x :: y :: l)) with (x :: removelast (y :: l)).
  simpl List.length in *. rewrite IH. lia.
Qed.

Lemma subsection_key_length a b :
  valid_id a -> valid_id b ->
  get_subsection_key a = get_subsection_key b ->
  List.length (fst (parse_task_id a)) = List.length (fst (parse_task_id b)).
Proof.
  unfold valid_id, get_subsection_key.
  destruct (parse_task_id a) as [pa sa], (parse_task_id b) as [pb sb].
  cbn [fst]. intros Ha Hb.
  rewrite (proj2 (Nat.leb_le 2 _) Ha), (proj2 (Nat.leb_le 2 _) Hb).
  intros E. apply (f_equal dots) in E.
  rewrite !dots_join, !length_removelast in E.
  - lia.
  - intros N. apply (f_equal (@List.length Z)) in N.
    rewrite length_removelast in N. simpl in N. lia.
  - intros N. apply (f_equal (@List.length Z)) in N.
    rewrite length_removelast in N. simpl in N. lia.
Qed.

Lemma tuple_lt_same_length pa : forall pb sa sb,
  List.length pa = List.length pb ->
  exists r, tuple_lt (map KInt pa ++ [KStr sa]) (map KInt pb ++ [KStr sb]) = Ok r.
Proof.
  induction pa as [|x pa IH]; intros [|y pb] sa sb L; simpl in L; try discriminate.
  - simpl. destruct (String.eqb sa sb); eauto.
  - simpl. destruct (x =? y); [|eauto]. apply IH. lia.
Qed.

Lemma key_lt_same_length a b :
  List.length (fst (parse_task_id a)) = List.length (fst (parse_task_id b)) ->
  exists r, key_lt a b = Ok r.
Proof.
  unfold key_lt, task_id_sort_key.
  destruct (parse_task_id a) as [pa sa], (parse_task_id b) as [pb sb].
  apply tuple_lt_same_length.
Qed.

(** The valid identifiers of one subsection can be sorted. *)
Lemma subsection_comparable l k :
  (forall a, In a l -> valid_id a /\ get_subsection_key a = k) ->
  comparable l.
Proof.
  intros H a b Ha Hb. apply key_lt_same_length.
  destruct (H a Ha) as [Va Ka], (H b Hb) as [Vb Kb].
  apply subsection_key_length; congruence.
Qed.

(** ** The edges of a sorted group *)

Lemma adjacent_cons a b x l :
  adjacent a b (x :: l)
  <-> (exists l', l = b :: l' /\ x = a) \/ adjacent a b l.
Proof.
  unfold adjacent. split.
  - intros [[|y l1] [l2 E]]; simpl in E; inversion E; subst.
    + left. eauto.
    + right. eauto.
  - intros [[l' [-> ->]]|[l1 [l2 ->]]].
    + exists [], l'. reflexivity.
    + exists (x :: l1), l2. reflexivity.
Qed.

Lemma In_sequential k s d :
  In d (sequential k s)
  <-> exists a b, adjacent a b s /\ d = mkDep b a 90 (subsection_reason k).
Proof.
  induction s as [|x s IH].
  - simpl. split; [intros []|]. intros [a [b [[l1 [l2 E]] _]]].
    now destruct l1.
  - destruct s as [|y s].
    + simpl. split; [intros []|]. intros [a [b [[l1 [l2 E]] _]]].
      destruct l1 as [|? [|? ?]]; discriminate.
    + change (sequential k (x :: y :: s))
        with (mkDep y x 90 (subsection_reason k) :: sequential k (y :: s)).
      simpl In. rewrite IH. split.
      * intros [E|[a [b [Hadj E]]]].
        -- exists x, y. split; [|now subst]. exists [], s. reflexivity.
        -- exists a, b. split; [|exact E]. apply adjacent_cons. now right.
      * intros [a [b [Hadj E]]]. apply adjacent_cons in Hadj.
        destruct Hadj as [[l' [E' ->]]|Hadj].
        -- left. inversion E'; subst. reflexivity.
        -- right. eauto.
Qed.

Lemma adjacent_In a b l : adjacent a b l -> In a l /\ In b l.
Proof.
  intros [l1 [l2 ->]]. split; apply in_or_app; right; simpl; auto.
Qed.

Lemma adjacent_length a b l : adjacent a b l -> (2 <= List.length l)%nat.
Proof. intros [l1 [l2 ->]]. rewrite length_app. simpl. lia. Qed.

Lemma subsection_body_edges d g :
  subsection_body d g = (e <- subsection_edges g ;; Ok (d ++ e)).
Proof.
  destruct g as [k ids]. unfold subsection_body, subsection_edges. simpl.
  destruct (List.length ids <? 2)%nat; simpl; [now rewrite app_nil_r|].
  destruct (sorted ids); reflexivity.
Qed.

Lemma infer_from_subsection_order_gather tasks :
  infer_from_subsection_order tasks
  = gather subsection_edges (group_pairs (subsection_pairs tasks)).
Proof.
  unfold infer_from_subsection_order.
  rewrite (for_each_gather _ _ subsection_body_edges), group_by_subsection_pairs.
  destruct (gather _ _); reflexivity.
Qed.

Lemma In_subsection_group tasks k a :
  In a (subsection_group tasks k)
  <-> In a (map id tasks) /\ get_subsection_key a = k.
Proof.
  unfold subsection_group. rewrite filter_In, String.eqb_eq. reflexivity.
Qed.

(** ** The order of sort keys *)

Lemma elem_eqb_sym x y : elem_eqb x y = elem_eqb y x.
Proof.
  destruct x, y; simpl; auto using Z.eqb_sym, String.eqb_sym.
Qed.

Lemma str_ltb_asym a b : str_ltb a b = true -> str_ltb b a = false.
Proof.
  unfold str_ltb. rewrite (String.compare_antisym b a).
  destruct (String.compare a b); simpl; congruence.
Qed.

Lemma elem_lt_asym x y : elem_lt x y = Ok true -> elem_lt y x = Ok false.
Proof.
  destruct x, y; simpl; try discriminate; intros H; inversion H as [H']; f_equal.
  - apply Z.ltb_lt in H'. apply Z.ltb_ge. lia.
  - now apply str_ltb_asym.
Qed.

Lemma tuple_lt_asym a : forall b,
  tuple_lt a b = Ok true -> tuple_lt b a = Ok false.
Proof.
  induction a as [|x a IH]; intros [|y b]; simpl; try discriminate; auto.
  rewrite (elem_eqb_sym y x).
  destruct (elem_eqb x y); [apply IH|apply elem_lt_asym].
Qed.

Lemma key_lt_asym a b : key_lt a b = Ok true -> in_order a b.
Proof. apply tuple_lt_asym. Qed.

Lemma insert_sorted_hd y x l r :
  insert_sorted x l = Ok r ->
  HdRel in_order y l -> in_order y x -> HdRel in_order y r.
Proof.
  destruct l as [|z l]; simpl.
  - intros E _ Hx. inversion E. now constructor.
  - destruct (key_lt x z) as [[|]|err]; simpl; try discriminate.
    + intros E _ Hx. inversion E. now constructor.
    + destruct (insert_sorted x l) as [r'|err]; simpl; [|discriminate].
      intros E Hz _. inversion E. inversion Hz. now constructor.
Qed.

Lemma insert_sorted_ordered x l : forall r,
  insert_sorted x l = Ok r -> Sorted in_order l -> Sorted in_order r.
Proof.
  induction l as [|y l IH]; intros r; simpl.
  - intros E _. inversion E. repeat constructor.
  - destruct (key_lt x y) as [[|]|err] eqn:K; simpl; try discriminate.
    + intros E S. inversion E. constructor; [exact S|].
      constructor. now apply key_lt_asym.
    + destruct (insert_sorted x l) as [r'|err] eqn:I; simpl; [|discriminate].
      intros E S. inversion E. apply Sorted_inv in S. destruct S as [S Hd].
      constructor; [now apply IH|].
      eapply insert_sorted_hd; eauto.
Qed.

Lemma sorted_from_ordered l : forall acc r,
  sorted_from acc l = Ok r -> Sorted in_order acc -> Sorted in_order r.
Proof.
  induction l as [|x l IH]; intros acc r; simpl.
  - intros E S. now inversion E; subst.
  - destruct (insert_sorted x acc) as [acc'|err] eqn:I; simpl; [|discriminate].
    intros E S. eapply IH; [exact E|]. eapply insert_sorted_ordered; eauto.
Qed.

(** What [sorted] returns is in the order of the sort keys. *)
Lemma sorted_ordered l r : sorted l = Ok r -> Sorted in_order r.
Proof. intros E. eapply sorted_from_ordered; [exact E|constructor]. Qed.

Lemma Sorted_adjacent (R : string -> string -> Prop) l a b :
  Sorted R l -> adjacent a b l -> R a b.
Proof.
  intros S [l1 [l2 ->]]. induction l1 as [|x l1 IH]; simpl in S.
  - apply Sorted_inv in S. destruct S as [_ H]. now inversion H.
  - apply Sorted_inv in S. destruct S as [S _]. auto.
Qed.

(** ** Identifiers with a subsection *)

Lemma star_total p k :
  (forall prev s, k prev s <> None) ->
  forall s prev, Re.star p prev s k <> None.
Proof.
  intros Hk. induction s as [|c s IH]; intros prev; simpl; [apply Hk|].
  destruct (p c); [|apply Hk].
  destruct (Re.star p (Some c) s k) eqn:E; [discriminate|].
  now apply IH in E.
Qed.

Lemma parse_part_length st part :
  List.length (fst (parse_part st part))
  = (List.length (fst st) + if starts_with_digit part then 1 else 0)%nat.
Proof.
  destruct st as [ps sfx]. unfold parse_part.
  destruct part as [|c part].
  - cbn. lia.
  - unfold starts_with_digit. destruct (is_digit c) eqn:D.
    + destruct (Re.match_ false part_pattern (String c part)) as [m|].
      * cbn [fst]. rewrite length_app. reflexivity.
      * destruct (Re.match_ false digits_pattern (String c part)) as [m|] eqn:M.
        -- cbn [fst]. rewrite length_app. reflexivity.
        -- exfalso. revert M. unfold Re.match_, digits_pattern.
           cbn [Re.run Re.at_bol]. rewrite D.
           destruct (Re.star _ _ _ _) as [[rest caps]|] eqn:S; [discriminate|].
           intros _. revert S. apply star_total. intros ? ?. discriminate.
    + unfold Re.match_, part_pattern, digits_pattern.
      cbn [Re.run Re.at_bol]. rewrite D. cbn [fst]. lia.
Qed.

Lemma parse_parts_length parts : forall st,
  List.length (fst (fold_left parse_part parts st))
  = (List.length (fst st)
     + List.length (filter starts_with_digit parts))%nat.
Proof.
  induction parts as [|p parts IH]; intros st; simpl; [lia|].
  rewrite IH, parse_part_length.
  destruct (starts_with_digit p); simpl; lia.
Qed.

(** An identifier is valid exactly when at least two of its dot-separated
    segments start with a digit. *)
Lemma valid_id_segments task_id :
  valid_id task_id
  <-> (2 <= List.length (filter starts_with_digit (split "." task_id)))%nat.
Proof.
  unfold valid_id, parse_task_id. rewrite parse_parts_length. simpl. reflexivity.
Qed.

Lemma is_digit_not_dot c : is_digit c = true -> Ascii.eqb c "." = false.
Proof.
  unfold is_digit, between, code. intros H.
  destruct (Ascii.eqb_spec c "."); [|reflexivity]. subst c. discriminate.
Qed.

Lemma split_number d r :
  all_digits d = true ->
  split "." (d ++ String "." r)%string = d :: split "." r.
Proof.
  induction d as [|c d IH]; simpl; [reflexivity|].
  intros H. apply andb_true_iff in H. destruct H as [Hc Hd].
  rewrite (is_digit_not_dot _ Hc), (IH Hd). reflexivity.
Qed.

Lemma split_starts_with_digit d r :
  number_text d ->
  exists h t, split "." (d ++ r)%string = h :: t /\ starts_with_digit h = true.
Proof.
  intros [Hd Hne]. destruct d as [|c d]; [now elim Hne|].
  simpl in Hd. apply andb_true_iff in Hd. destruct Hd as [Hc _].
  simpl. rewrite (is_digit_not_dot _ Hc).
  destruct (split "." (d ++ r)) as [|h t]; eauto.
Qed.

(** Identifiers of the grammar of task lines, [DIGITS "." DIGITS] and what
    follows, are valid. *)
Lemma grammar_id_valid d1 d2 rest :
  number_text d1 -> number_text d2 ->
  valid_id (d1 ++ String "." (d2 ++ rest))%string.
Proof.
  intros H1 H2. apply valid_id_segments.
  rewrite (@split_number d1 (d2 ++ rest) (proj1 H1)).
  destruct (@split_starts_with_digit d2 rest H2) as [h [t [-> Hh]]].
  destruct H1 as [Hd Hne]. destruct d1 as [|c d1]; [now elim Hne|].
  simpl in Hd. apply andb_true_iff in Hd. destruct Hd as [Hc _].
  simpl. rewrite Hc, Hh. simpl. lia.
Qed.

(** ** When the comparison of two sort keys raises *)

Lemma tuple_lt_raises pa : forall pb sa sb,
  tuple_lt (map KInt pa ++ [KStr sa]) (map KInt pb ++ [KStr sb])
  = Raise TypeError
  <-> proper_prefix pa pb || proper_prefix pb pa = true.
Proof.
  induction pa as [|x pa IH]; intros [|y pb] sa sb; simpl.
  - destruct (String.eqb sa sb); split; discriminate.
  - split; reflexivity.
  - split; reflexivity.
  - rewrite (Z.eqb_sym y x). destruct (x =? y)%Z; simpl; [apply IH|].
    split; discriminate.
Qed.

(** The comparison of two sort keys raises exactly when the numeric parts
    of one identifier are a strict beginning of the other's. *)
Lemma key_lt_raises a b :
  key_lt a b = Raise TypeError
  <-> proper_prefix (numeric_parts a) (numeric_parts b)
      || proper_prefix (numeric_parts b) (numeric_parts a) = true.
Proof.
  unfold key_lt, task_id_sort_key, numeric_parts.
  destruct (parse_task_id a) as [pa sa], (parse_task_id b) as [pb sb].
  apply tuple_lt_raises.
Qed.

(** ** The file-pattern strategy *)

Lemma stem_body_edges d g :
  stem_body d g = (e <- stem_edges g ;; Ok (d ++ e)).
Proof.
  destruct g as [k ids]. unfold stem_body, stem_edges. simpl.
  destruct (1 <? List.length ids)%nat; simpl; [|now rewrite app_nil_r].
  destruct (sorted ids); reflexivity.
Qed.

Lemma infer_from_file_patterns_gather tasks :
  infer_from_file_patterns tasks
  = gather stem_edges (group_pairs (stem_pairs tasks)).
Proof.
  unfold infer_from_file_patterns.
  rewrite (for_each_gather _ _ stem_body_edges), group_by_stem_pairs.
  destruct (gather _ _); reflexivity.
Qed.

Lemma In_stem_items tasks stem i :
  In i (items_of (stem_pairs tasks) stem) ->
  exists t f, In t tasks /\ In f (files t) /\ extract_stem f = stem
              /\ id t = i.
Proof.
  unfold items_of, stem_pairs. intros H.
  apply in_map_iff in H. destruct H as [[k j] [<- H]].
  apply filter_In in H. destruct H as [H Hk]. simpl in Hk.
  apply String.eqb_eq in Hk. subst k.
  apply in_flat_map in H. destruct H as [t [Ht H]].
  apply in_map_iff in H. destruct H as [f [E Hf]]. inversion E; subst.
  exists t, f. auto.
Qed.

Lemma In_firstn {A} (x : A) n l : In x (firstn n l) -> In x l.
Proof.
  intros H. rewrite <- (firstn_skipn n l). apply in_or_app. now left.
Qed.

Lemma In_fan_in stem s later d : forall i,
  In d (fan_in stem s i later) ->
  In (from_task d) later /\ In (to_task d) s
  /\ confidence d = 85 /\ reason d = stem_reason stem.
Proof.
  induction later as [|x later IH]; intros i; simpl; [intros []|].
  intros H. apply in_app_or in H. destruct H as [H|H].
  - apply in_map_iff in H. destruct H as [e [<- He]]. simpl.
    repeat split; auto. revert He. apply In_firstn.
  - destruct (IH _ H) as [H1 H2]. split; [now right|exact H2].
Qed.

(** Every edge of the file-pattern strategy has confidence 85 and joins
    the identifiers of two entries of one stem group. *)
Lemma file_pattern_edge_origin tasks deps d :
  infer_from_file_patterns tasks = Ok deps -> In d deps ->
  confidence d = 85
  /\ exists stem t1 f1 t2 f2,
       In t1 tasks /\ In f1 (files t1) /\ extract_stem f1 = stem
       /\ id t1 = from_task d
       /\ In t2 tasks /\ In f2 (files t2) /\ extract_stem f2 = stem
       /\ id t2 = to_task d
       /\ reason d = stem_reason stem.
Proof.
  rewrite infer_from_file_patterns_gather. intros G Hd.
  apply (gather_In _ _ G) in Hd. destruct Hd as [[stem ids] [e [Hg [He Hd]]]].
  apply In_group_pairs in Hg. destruct Hg as [Hids _].
  unfold stem_edges in He. simpl in He.
  destruct (1 <? List.length ids)%nat; [|inversion He; subst; destruct Hd].
  destruct (sorted ids) as [s|err] eqn:S; simpl in He; [|discriminate].
  inversion He; subst e. apply In_fan_in in Hd.
  destruct Hd as [Hf [Ht [Hc Hr]]]. split; [exact Hc|].
  assert (Hs : forall i, In i s -> In i (items_of (stem_pairs tasks) stem)).
  { intros i Hi. rewrite <- Hids.
    eapply Permutation_in; [apply Permutation_sym, sorted_perm; exact S|exact Hi]. }
  assert (Hf' : In (from_task d) s) by (destruct s; [destruct Hf|now right]).
  destruct (In_stem_items _ _ _ (Hs _ Hf')) as [t1 [f1 [A1 [B1 [C1 D1]]]]].
  destruct (In_stem_items _ _ _ (Hs _ Ht)) as [t2 [f2 [A2 [B2 [C2 D2]]]]].
  exists stem, t1, f1, t2, f2. repeat split; assumption.
Qed.




End InferenceFacts.

(* ================================================================== *)
(** * The edges of a subsection group *)
(* ================================================================== *)

Module InferenceClaims.

Import Py.
Import Inference.
Import Spec.
Import InferenceFacts.

Local Open Scope list_scope.

Lemma subsection_group_in_pairs tasks g :
  In g (group_pairs (subsection_pairs tasks)) ->
  snd g = subsection_group tasks (fst g) /\ snd g <> [].
Proof.
  destruct g as [k ids]. intros H. apply In_group_pairs in H.
  rewrite items_of_subsection in H. exact H.
Qed.

Lemma subsection_edges_inv g e d :
  subsection_edges g = Ok e -> In d e ->
  exists s a b,
    sorted (snd g) = Ok s /\ adjacent a b s
    /\ d = mkDep b a 90 (subsection_reason (fst g)).
Proof.
  unfold subsection_edges.
  destruct (List.length (snd g) <? 2)%nat.
  - intros E. inversion E. intros [].
  - destruct (sorted (snd g)) as [s|err]; simpl; [|discriminate].
    intros E. inversion E; subst. intros Hd.
    apply In_sequential in Hd. destruct Hd as [a [b [Hadj ->]]].
    exists s, a, b. auto.
Qed.

Lemma subsection_edges_intro g s a b :
  sorted (snd g) = Ok s -> adjacent a b s ->
  subsection_edges g = Ok (sequential (fst g) s).
Proof.
  intros Hs Hadj. unfold subsection_edges.
  assert (L : (2 <= List.length (snd g))%nat).
  { rewrite (Permutation_length (sorted_perm _ Hs)).
    eapply adjacent_length; eauto. }
  destruct (Nat.ltb_spec (List.length (snd g)) 2); [lia|].
  rewrite Hs. reflexivity.
Qed.

End InferenceClaims.

Module EngineFacts.

Import Py.
Import Inference.
Import Spec.
Import InferenceFacts.

Local Open Scope list_scope.

Section Keywords.

Variable set_order : list string -> list string.
Hypothesis set_order_perm : forall l, Permutation (set_order l) l.

Lemma In_set_order x l : In x (set_order l) <-> In x l.
Proof.
  split; apply Permutation_in;
    [apply set_order_perm|apply Permutation_sym, set_order_perm].
Qed.

Lemma get_set {V} (d : list (string * V)) k v k' :
  get (set d k v) k' = if String.eqb k k' then Some v else get d k'.
Proof.
  induction d as [|[k0 v0] d IH]; simpl.
  - reflexivity.
  - destruct (String.eqb k0 k) eqn:E0; simpl.
    + apply String.eqb_eq in E0. subst k0.
      destruct (String.eqb k k'); reflexivity.
    + destruct (String.eqb k0 k') eqn:E1; [|exact IH].
      apply String.eqb_eq in E1. subst k0.
      now rewrite String.eqb_sym, E0.
Qed.

Lemma index_tasks_snoc ts t :
  index_tasks set_order (ts ++ [t])
  = index_task set_order (index_tasks set_order ts) t.
Proof. unfold index_tasks. now rewrite fold_left_app. Qed.

(** [task_keywords] holds, under an identifier, the categories of a task
    that carries it. *)
Lemma task_keywords_inv ts i kws :
  get (snd (index_tasks set_order ts)) i = Some kws ->
  exists t, In t ts /\ id t = i /\ kws = extract_keywords (description t).
Proof.
  revert kws. induction ts as [|t ts IH] using rev_ind; intros kws.
  - discriminate.
  - rewrite index_tasks_snoc. unfold index_task at 1.
    destruct (index_tasks set_order ts) as [k2t tk]. simpl snd in *.
    rewrite get_set. destruct (String.eqb (id t) i) eqn:E.
    + intros H. inversion H. apply String.eqb_eq in E.
      exists t. split; [apply in_or_app; right; now left|auto].
    + intros H. destruct (IH _ H) as [t' [Ht' H']].
      exists t'. split; [apply in_or_app; now left|exact H'].
Qed.

Lemma keyword_to_tasks_pairs ts :
  fst (index_tasks set_order ts) = group_pairs (keyword_pairs set_order ts).
Proof.
  induction ts as [|t ts IH] using rev_ind; [reflexivity|].
  rewrite index_tasks_snoc. unfold index_task at 1.
  destruct (index_tasks set_order ts) as [k2t tk]. simpl fst in *.
  rewrite IH. unfold keyword_pairs. rewrite flat_map_app. simpl flat_map.
  rewrite app_nil_r. unfold group_pairs. rewrite fold_left_app.
  exact (fold_left_map (fun d p => append_to d (fst p) (snd p))
           (fun kw => (kw, id t))
           (set_order (extract_keywords (description t))) _).
Qed.

(** [keyword_to_tasks] holds, under a category, identifiers of tasks that
    carry it. *)
Lemma keyword_to_tasks_inv ts req cands c :
  get (fst (index_tasks set_order ts)) req = Some cands -> In c cands ->
  exists t, In t ts /\ id t = c /\ In req (extract_keywords (description t)).
Proof.
  rewrite keyword_to_tasks_pairs, get_group_pairs.
  destruct (items_of (keyword_pairs set_order ts) req) as [|x xs] eqn:E;
    [discriminate|].
  intros H. inversion H; subst cands. rewrite <- E. clear H E.
  unfold items_of, keyword_pairs. intros Hc.
  apply in_map_iff in Hc. destruct Hc as [[k i] [<- Hp]].
  apply filter_In in Hp. destruct Hp as [Hp Hk]. simpl in Hk.
  apply String.eqb_eq in Hk. subst k.
  apply in_flat_map in Hp. destruct Hp as [t [Ht Hp]].
  apply in_map_iff in Hp. destruct Hp as [kw [E Hkw]]. inversion E; subst.
  exists t. split; [exact Ht|]. split; [reflexivity|].
  now apply In_set_order.
Qed.

End Keywords.

(** The keyword loops, as the edges they add. *)

Lemma candidate_body_edges task_id kw req_kw d c :
  candidate_body task_id kw req_kw d c
  = (e <- candidate_edges task_id kw req_kw c ;; Ok (d ++ e)).
Proof.
  unfold candidate_body, candidate_edges, key_lt.
  destruct (negb (String.eqb c task_id)); simpl; [|now rewrite app_nil_r].
  destruct (tuple_lt _ _) as [[|]|err]; simpl; [| |reflexivity].
  - reflexivity.
  - now rewrite app_nil_r.
Qed.

Lemma required_body_edges k2t task_id kw d req_kw :
  required_body k2t task_id kw d req_kw
  = (e <- required_edges k2t task_id kw req_kw ;; Ok (d ++ e)).
Proof.
  unfold required_body, required_edges.
  destruct (get k2t req_kw) as [cands|]; simpl; [|now rewrite app_nil_r].
  apply for_each_gather. apply candidate_body_edges.
Qed.

Lemma keyword_body_edges k2t task_id d kw :
  keyword_body k2t task_id d kw
  = (e <- keyword_edges k2t task_id kw ;; Ok (d ++ e)).
Proof.
  unfold keyword_body, keyword_edges, required_of.
  apply for_each_gather. intros. apply required_body_edges.
Qed.

Lemma task_body_edges set_order k2t tk d t :
  task_body set_order k2t tk d t
  = (e <- task_edges set_order k2t tk t ;; Ok (d ++ e)).
Proof.
  unfold task_body, task_edges, values.
  apply for_each_gather. intros. apply keyword_body_edges.
Qed.

Lemma infer_from_keywords_gather set_order tasks :
  infer_from_keywords set_order tasks
  = gather (task_edges set_order (fst (index_tasks set_order tasks))
                       (snd (index_tasks set_order tasks)))
           tasks.
Proof.
  unfold infer_from_keywords.
  destruct (index_tasks set_order tasks) as [k2t tk]. simpl.
  rewrite (for_each_gather _ _ (task_body_edges set_order k2t tk)).
  destruct (gather _ _); reflexivity.
Qed.

Lemma candidate_edges_inv task_id kw req_kw c e d :
  candidate_edges task_id kw req_kw c = Ok e -> In d e ->
  c <> task_id /\ key_lt c task_id = Ok true
  /\ d = mkDep task_id c 50 (keyword_reason kw req_kw).
Proof.
  unfold candidate_edges. destruct (String.eqb c task_id) eqn:E; simpl.
  - intros H. inversion H. intros [].
  - apply String.eqb_neq in E.
    destruct (key_lt c task_id) as [[|]|err]; simpl; try discriminate.
    + intros H. inversion H. intros [<-|[]]. auto.
    + intros H. inversion H. intros [].
Qed.

End EngineFacts.

Module EngineClaims.

Import Py.
Import Inference.
Import Spec.
Import InferenceFacts.
Import EngineFacts.

Local Open Scope list_scope.

Section Engine.

Variable set_order : list string -> list string.
Hypothesis set_order_perm : forall l, Permutation (set_order l) l.

(** Where an edge of the keyword strategy comes from. *)
Lemma keyword_edge_origin tasks deps d :
  infer_from_keywords set_order tasks = Ok deps -> In d deps ->
  exists t kw req_kw cands,
    In t tasks
    /\ In kw (values (snd (index_tasks set_order tasks)) (id t))
    /\ In req_kw (required_of kw)
    /\ get (fst (index_tasks set_order tasks)) req_kw = Some cands
    /\ In (to_task d) cands
    /\ to_task d <> id t
    /\ key_lt (to_task d) (id t) = Ok true
    /\ d = mkDep (id t) (to_task d) 50 (keyword_reason kw req_kw).
Proof.
  rewrite infer_from_keywords_gather. intros G Hd.
  apply (gather_In _ _ G) in Hd. destruct Hd as [t [e1 [Ht [E1 Hd]]]].
  unfold task_edges in E1.
  apply (gather_In _ _ E1) in Hd. destruct Hd as [kw [e2 [Hkw [E2 Hd]]]].
  unfold keyword_edges in E2.
  apply (gather_In _ _ E2) in Hd. destruct Hd as [req [e3 [Hreq [E3 Hd]]]].
  unfold required_edges in E3.
  destruct (get (fst (index_tasks set_order tasks)) req) as [cands|] eqn:Gk.
  - apply (gather_In _ _ E3) in Hd. destruct Hd as [c [e4 [Hc [E4 Hd]]]].
    destruct (@candidate_edges_inv (id t) kw req c e4 d E4 Hd) as [Hne [Hlt ->]].
    simpl. exists t, kw, req, cands.
    repeat split; try assumption.
    now apply (@In_set_order set_order set_order_perm).
  - inversion E3; subst. destruct Hd.
Qed.

Lemma infer_from_keywords_total tasks :
  comparable (map id tasks) ->
  exists deps, infer_from_keywords set_order tasks = Ok deps.
Proof.
  intros Hcmp. rewrite infer_from_keywords_gather.
  apply gather_total. intros t Ht. unfold task_edges.
  apply gather_total. intros kw Hkw. unfold keyword_edges.
  apply gather_total. intros req Hreq. unfold required_edges.
  destruct (get (fst (index_tasks set_order tasks)) req) as [cands|] eqn:Gk;
    [|eauto].
  apply gather_total. intros c Hc. unfold candidate_edges.
  destruct (negb (String.eqb c (id t))); [|eauto].
  destruct (@keyword_to_tasks_inv set_order set_order_perm tasks req cands
              c Gk Hc) as [tt [Htt [Et _]]].
  destruct (Hcmp c (id t)) as [b ->].
  - rewrite <- Et. now apply in_map.
  - now apply in_map.
  - simpl. eauto.
Qed.


(** C6, amended. Every edge that the keyword strategy returns has
    confidence 50, goes from a task carrying a dependent category to
    another task carrying a category required by it, joins two different
    identifiers, and points to an identifier whose sort key is strictly
    earlier; no edge leaves an identifier all of whose tasks match the
    category test alone, in particular none leaves a task that matches
    test alone and shares its identifier with no other task; and the
    strategy returns whenever [int()] converts the numbers of the
    identifiers and their sort keys can be compared. *)
Theorem C6_keyword_edges :
  forall tasks : list Task,
    (forall deps,
       infer_from_keywords set_order tasks = Ok deps ->
       (forall d, In d deps ->
          confidence d = 50%Z
          /\ from_task d <> to_task d
          /\ key_lt (to_task d) (from_task d) = Ok true
          /\ exists kw req_kw t_from t_to,
               In t_from tasks /\ id t_from = from_task d
               /\ In kw (extract_keywords (description t_from))
               /\ In req_kw (required_of kw)
               /\ In t_to tasks /\ id t_to = to_task d
               /\ In req_kw (extract_keywords (description t_to))
               /\ reason d = keyword_reason kw req_kw)
       /\ (forall t, In t tasks ->
             (forall t', In t' tasks -> id t' = id t ->
                         extract_keywords (description t') = ["test"]) ->
             forall d, In d deps -> from_task d <> id t))
    /\ ((forall t, In t tasks -> within_int_limit (id t)) ->
        comparable (map id tasks) ->
        exists deps, infer_from_keywords set_order tasks = Ok deps).
Proof.
  intros tasks. split.
  - intros deps Hdeps.
    assert (Hedge : forall d, In d deps ->
              confidence d = 50%Z
              /\ from_task d <> to_task d
              /\ key_lt (to_task d) (from_task d) = Ok true
              /\ exists kw req_kw t_from t_to,
                   In t_from tasks /\ id t_from = from_task d
                   /\ In kw (extract_keywords (description t_from))
                   /\ In req_kw (required_of kw)
                   /\ In t_to tasks /\ id t_to = to_task d
                   /\ In req_kw (extract_keywords (description t_to))
                   /\ reason d = keyword_reason kw req_kw).
    { intros d Hd.
      destruct (@keyword_edge_origin tasks deps d Hdeps Hd)
        as [t [kw [req [cands [Ht [Hkw [Hreq [Gk [Hc [Hne [Hlt E]]]]]]]]]]].
      unfold values in Hkw.
      destruct (get (snd (index_tasks set_order tasks)) (id t)) as [kws|] eqn:Gt;
        [|destruct Hkw].
      destruct (@task_keywords_inv set_order tasks (id t) kws Gt) as [tf [Htf [Ef Ek]]].
      destruct (@keyword_to_tasks_inv set_order set_order_perm tasks req cands
                  (to_task d) Gk Hc) as [tt [Htt [Et Hr]]].
      rewrite E. simpl. rewrite E in Hc, Hne, Hlt, Et. simpl in Hc, Hne, Hlt, Et.
      repeat split; try assumption; try congruence.
      exists kw, req, tf, tt. subst kws. repeat split; assumption. }
    split; [exact Hedge|].
    intros t Ht Honly d Hd Efrom.
    destruct (Hedge d Hd)
      as [_ [_ [_ [kw [req [tf [tt [Htf [Ef [Hkw [Hreq _]]]]]]]]]]].
    rewrite (Honly tf Htf) in Hkw by congruence.
    destruct Hkw as [<-|[]]. exact Hreq.
  - intros _. apply infer_from_keywords_total.
Qed.

(** C3. The merge keeps at most one edge per ordered pair
    [(from_task, to_task)]; the edges it keeps are exactly the candidates
    with only strictly weaker candidates of their pair before them and
    none stronger after them, that is the first candidate of maximal
    confidence, reason included; every candidate's pair is kept with at
    least its confidence; and the edges that [infer_dependencies] returns
    are those of the merge of the four strategies' candidates taken in the
    order subsection, file pattern, keyword, section order. *)
Theorem C3_merge_keeps_first_strongest :
  forall all_deps : deps,
    NoDup (map pair_of (merge all_deps))
    /\ (forall d, In d (merge all_deps) <-> survives d all_deps)
    /\ (forall c, In c all_deps ->
          exists d, In d (merge all_deps) /\ pair_of d = pair_of c
                    /\ (confidence c <= confidence d)%Z)
    /\ (forall parsed threshold r,
          infer_dependencies set_order parsed threshold = Ok r ->
          exists d1 d2 d3,
            infer_from_subsection_order (all_tasks_of parsed) = Ok d1
            /\ infer_from_file_patterns (all_tasks_of parsed) = Ok d2
            /\ infer_from_keywords set_order (all_tasks_of parsed) = Ok d3
            /\ Permutation
                 (auto_apply r ++ pending_review r)
                 (merge (d1 ++ d2 ++ d3 ++ infer_from_section_order parsed))).
Proof.
  intros all_deps.
  destruct (merge_invariant all_deps) as [H1 [H2 H3]].
  split; [exact H1|]. split; [exact H2|]. split.
  { intros c Hc. destruct (H3 c Hc) as [d [Hd [S L]]].
    exists d. split; [exact Hd|]. split; [now apply same_pair_iff|exact L]. }
  intros parsed threshold r. unfold infer_dependencies, all_deps_of.
  destruct (infer_from_subsection_order (all_tasks_of parsed)) as [d1|];
    simpl; [|discriminate].
  destruct (infer_from_file_patterns (all_tasks_of parsed)) as [d2|];
    simpl; [|discriminate].
  destruct (infer_from_keywords set_order (all_tasks_of parsed)) as [d3|];
    simpl; [|discriminate].
  intros E. inversion E; subst. exists d1, d2, d3.
  repeat split; try reflexivity.
  rewrite categorize_spec. simpl. apply filter_split.
Qed.

(** C7. On an input for which the engine returns, raising the threshold
    can only shrink the auto_apply bucket; and at every threshold each
    edge of the merge is in exactly one bucket, auto_apply when its
    confidence reaches the threshold and pending_review when it is below,
    the buckets holding nothing else. *)
Theorem C7_threshold_antitone :
  forall (parsed : list Section_) (all_deps : deps) (t1 t2 : Z),
    all_deps_of set_order parsed = Ok all_deps ->
    (t1 < t2)%Z ->
    exists r1 r2,
      infer_dependencies set_order parsed t1 = Ok r1
      /\ infer_dependencies set_order parsed t2 = Ok r2
      /\ incl (auto_apply r2) (auto_apply r1)
      /\ (forall t, exists r,
            infer_dependencies set_order parsed t = Ok r
            /\ (forall d, In d (merge all_deps) ->
                  (In d (auto_apply r) /\ ~ In d (pending_review r)
                   /\ (t <= confidence d)%Z)
                  \/ (In d (pending_review r) /\ ~ In d (auto_apply r)
                      /\ (confidence d < t)%Z))
            /\ (forall d, In d (auto_apply r) \/ In d (pending_review r) ->
                          In d (merge all_deps))).
Proof.
  intros parsed all_deps t1 t2 Hall Hlt.
  unfold infer_dependencies. rewrite Hall. simpl.
  exists (categorize (merge all_deps) t1), (categorize (merge all_deps) t2).
  repeat split.
  - rewrite !categorize_spec. simpl. intros d Hd.
    apply filter_In in Hd. destruct Hd as [Hd Ha]. apply filter_In.
    split; [exact Hd|]. unfold above in *.
    apply Z.leb_le in Ha. apply Z.leb_le. lia.
  - intros t. exists (categorize (merge all_deps) t).
    split; [reflexivity|]. rewrite categorize_spec. simpl. split.
    + intros d Hd. destruct (above t d) eqn:A.
      * left. split; [|split].
        -- apply filter_In. auto.
        -- intros H. apply filter_In in H. destruct H as [_ H].
           rewrite A in H. discriminate.
        -- now apply Z.leb_le.
      * right. split; [|split].
        -- apply filter_In. rewrite A. auto.
        -- intros H. apply filter_In in H. destruct H as [_ H]. congruence.
        -- now apply Z.leb_gt.
    + intros d [H|H]; apply filter_In in H; tauto.
Qed.



End Engine.


(** C5, evaluated where it fails. The task 1.1 of [tasks_same_stem] lists
    two files with the stem "user"; the group of that stem holds the
    identifier twice, passes the length test, and yields an edge from 1.1
    to itself. *)
Theorem C5_same_task_twice_self_edge :
  map extract_stem ["src/user.ts"; "tests/user.py"] = ["user"; "user"]
  /\ group_by_stem tasks_same_stem = [("user", ["1.1"; "1.1"])]
  /\ infer_from_file_patterns tasks_same_stem
     = Ok [mkDep "1.1" "1.1" 85 "file pattern: shared stem 'user'"].
Proof. vm_compute. repeat split. Qed.

Lemma in_table_order_perm : forall l, Permutation (in_table_order l) l.
Proof. intros l. apply Permutation_refl. Qed.


(** C6 on the two tasks of scenario 1. *)
Lemma C6_keyword_edges_witness :
  exists deps,
    infer_from_keywords in_table_order (all_tasks_of parsed_setup) = Ok deps.
Proof.
  apply (C6_keyword_edges in_table_order in_table_order_perm
           (all_tasks_of parsed_setup)).
  - intros t Ht part Hp. vm_compute in Ht.
    destruct Ht as [<-|[<-|[]]]; vm_compute in Hp;
      destruct Hp as [<-|[<-|[]]]; reflexivity.
  - intros a b Ha Hb. vm_compute in Ha, Hb.
    destruct Ha as [<-|[<-|[]]]; destruct Hb as [<-|[<-|[]]];
      vm_compute; eauto.
Defined.

(** The claim as it was written fails at [tasks_test_twice]: the first
    task matches the category test alone, but the categories of a task are
    looked up under its identifier, which the third task has overwritten
    with mutation; the turn of the first task adds an edge from 1.2 to
    1.1. *)
Lemma C6_test_only_task_gives_an_edge :
  extract_keywords "Run tests" = ["test"]
  /\ task_edges in_table_order
       (fst (index_tasks in_table_order tasks_test_twice))
       (snd (index_tasks in_table_order tasks_test_twice))
       (task "1.2" "Run tests" [])
     = Ok [mkDep "1.2" "1.1" 50
                 "keyword: 'mutation' typically depends on 'schema'"]
  /\ infer_from_keywords in_table_order tasks_test_twice
     = Ok [mkDep "1.2" "1.1" 50
                 "keyword: 'mutation' typically depends on 'schema'";
           mkDep "1.2" "1.1" 50
                 "keyword: 'mutation' typically depends on 'schema'"].
Proof.
  split; [vm_compute; reflexivity|].
  split; vm_compute; reflexivity.
Qed.

(** C7 on scenario 1, between the thresholds 50 and 90. *)
Lemma C7_threshold_antitone_witness :
  exists r1 r2,
    infer_dependencies in_table_order parsed_setup 50 = Ok r1
    /\ infer_dependencies in_table_order parsed_setup 90 = Ok r2
    /\ incl (auto_apply r2) (auto_apply r1).
Proof.
  destruct (@C7_threshold_antitone in_table_order parsed_setup
              [mkDep "1.2" "1.1" 90 "subsection order: sequential within 1";
               mkDep "1.2" "1.1" 50
                     "keyword: 'mutation' typically depends on 'schema'"]
              50%Z 90%Z)
    as [r1 [r2 [H1 [H2 [H3 _]]]]].
  - vm_compute. reflexivity.
  - lia.
  - exists r1, r2. auto.
Defined.

(** Scenario 1 of the specification, from the document to the buckets: the
    subsection edge (90) and the keyword edge (50) from 1.2 to 1.1 merge
    into the former, and the declared dependency takes no part. *)
Lemma scenario_setup :
  infer_from_subsection_order (all_tasks_of
                                 (sections (Parser.parse_tasks_md doc_setup)))
  = Ok [mkDep "1.2" "1.1" 90 "subsection order: sequential within 1"]
  /\ infer_from_keywords in_table_order
       (all_tasks_of (sections (Parser.parse_tasks_md doc_setup)))
     = Ok [mkDep "1.2" "1.1" 50
                 "keyword: 'mutation' typically depends on 'schema'"]
  /\ infer_dependencies in_table_order
       (sections (Parser.parse_tasks_md doc_setup)) 70
     = Ok (mkInferred
             [mkDep "1.2" "1.1" 90 "subsection order: sequential within 1"]
             []).
Proof. vm_compute. repeat split. Qed.

End EngineClaims.

(* ================================================================== *)
(** * What the matcher accepts *)
(* ================================================================== *)

Module RegexFacts.

Import Re.
Import Py.
Import Spec.

Local Open Scope list_scope.

Lemma append_assoc (a b c : string) :
  ((a ++ b) ++ c = a ++ (b ++ c))%string.
Proof. induction a as [|x a IH]; simpl; [reflexivity|now rewrite IH]. Qed.

Lemma append_nil_r (a : string) : (a ++ "")%string = a.
Proof. induction a as [|x a IH]; simpl; [reflexivity|now rewrite IH]. Qed.

Lemma length_append (a b : string) :
  String.length (a ++ b) = (String.length a + String.length b)%nat.
Proof. induction a as [|x a IH]; simpl; [reflexivity|now rewrite IH]. Qed.

Lemma take_append w rest :
  take (String.length (w ++ rest) - String.length rest) (w ++ rest) = w.
Proof.
  rewrite length_append, Nat.add_sub.
  induction w as [|c w IH]; simpl.
  - now destruct rest.
  - now rewrite IH.
Qed.

Lemma lit_inv l : forall prev s prev' s',
  lit l prev s = Some (prev', s') -> s = (l ++ s')%string.
Proof.
  induction l as [|c l IH]; intros prev s prev' s'; simpl.
  - intros E. now inversion E.
  - destruct s as [|a s]; [discriminate|].
    destruct (Ascii.eqb_spec a c); [|discriminate].
    intros E. apply IH in E. now subst.
Qed.

Lemma star_inv p k out : forall s prev,
  star p prev s k = Some out ->
  exists w rest prev',
    s = (w ++ rest)%string /\ all_in p w = true /\ k prev' rest = Some out.
Proof.
  induction s as [|c s IH]; intros prev; simpl.
  - intros E. exists "", "", prev. auto.
  - destruct (p c) eqn:Pc.
    + destruct (star p (Some c) s k) as [o|] eqn:S.
      * intros E. inversion E; subst o.
        destruct (IH _ S) as [w [rest [prev' [-> [Hw Hk]]]]].
        exists (String c w), rest, prev'. simpl. rewrite Pc, Hw. auto.
      * intros E. exists "", (String c s), prev. auto.
    + intros E. exists "", (String c s), prev. auto.
Qed.

Lemma star_lazy_inv p k out : forall s prev,
  star_lazy p prev s k = Some out ->
  exists w rest prev',
    s = (w ++ rest)%string /\ all_in p w = true /\ k prev' rest = Some out.
Proof.
  induction s as [|c s IH]; intros prev; simpl.
  - destruct (k prev "") eqn:K; [|discriminate].
    intros E. inversion E; subst. exists "", "", prev. auto.
  - destruct (k prev (String c s)) eqn:K.
    + intros E. inversion E; subst. exists "", (String c s), prev. auto.
    + destruct (p c) eqn:Pc; [|discriminate].
      intros E. destruct (IH _ E) as [w [rest [prev' [-> [Hw Hk]]]]].
      exists (String c w), rest, prev'. simpl. rewrite Pc, Hw. auto.
Qed.

(** Whatever the matcher returns was returned by its continuation, after a
    word that the pattern consumes. *)
Lemma run_sound ml r : forall prev s caps k out,
  run ml r prev s caps k = Some out ->
  exists w rest prev' caps',
    s = (w ++ rest)%string
    /\ consumes ml r w rest caps caps'
    /\ k prev' rest caps' = Some out.
Proof.
  induction r as [l|p|p|p|p|r1 IH1 r2 IH2|r1 IH1 r2 IH2|r1 IH1|n r1 IH1| |];
    intros prev s caps k out; simpl.
  - destruct (lit l prev s) as [[prev' s']|] eqn:L; [|discriminate].
    intros E. apply lit_inv in L. exists l, s', prev', caps. auto.
  - destruct s as [|c s]; [discriminate|].
    destruct (p c) eqn:Pc; [|discriminate].
    intros E. exists (String c ""), s, (Some c), caps. simpl. eauto 6.
  - intros E. apply star_inv in E.
    destruct E as [w [rest [prev' [-> [Hw Hk]]]]].
    exists w, rest, prev', caps. auto.
  - destruct s as [|c s]; [discriminate|].
    destruct (p c) eqn:Pc; [|discriminate].
    intros E. apply star_inv in E.
    destruct E as [w [rest [prev' [-> [Hw Hk]]]]].
    exists (String c w), rest, prev', caps. simpl. rewrite Pc, Hw.
    repeat split; auto. discriminate.
  - destruct s as [|c s]; [discriminate|].
    destruct (p c) eqn:Pc; [|discriminate].
    intros E. apply star_lazy_inv in E.
    destruct E as [w [rest [prev' [-> [Hw Hk]]]]].
    exists (String c w), rest, prev', caps. simpl. rewrite Pc, Hw.
    repeat split; auto. discriminate.
  - intros E. apply IH1 in E.
    destruct E as [w1 [rest1 [prev1 [c1 [-> [H1 E]]]]]].
    apply IH2 in E. destruct E as [w2 [rest [prev' [caps' [-> [H2 E]]]]]].
    exists (w1 ++ w2)%string, rest, prev', caps'.
    rewrite append_assoc. split; [reflexivity|]. split; [|exact E].
    exists w1, w2, c1. auto.
  - destruct (run ml r1 prev s caps k) as [o|] eqn:R1.
    + intros E. inversion E; subst o. apply IH1 in R1.
      destruct R1 as [w [rest [prev' [caps' [-> [H E']]]]]].
      exists w, rest, prev', caps'. auto.
    + intros E. apply IH2 in E.
      destruct E as [w [rest [prev' [caps' [-> [H E']]]]]].
      exists w, rest, prev', caps'. auto.
  - destruct (run ml r1 prev s caps k) as [o|] eqn:R1.
    + intros E. inversion E; subst o. apply IH1 in R1.
      destruct R1 as [w [rest [prev' [caps' [-> [H E']]]]]].
      exists w, rest, prev', caps'. auto.
    + intros E. exists "", s, prev, caps. auto.
  - intros E. apply IH1 in E.
    destruct E as [w [rest [prev' [c1 [-> [H E]]]]]].
    rewrite take_append in E.
    exists w, rest, prev', ((n, w) :: c1). eauto.
  - destruct (at_bol ml prev); [|discriminate].
    intros E. exists "", s, prev, caps. auto.
  - destruct (at_eol ml s) eqn:A; [|discriminate].
    intros E. exists "", s, prev, caps. auto.
Qed.

(** Every match object of [finditer] holds the captures of a word that the
    pattern consumes. *)
Lemma finditer_from_sound ml r m : forall s prev pos skip,
  In m (finditer_from ml r prev s pos skip) ->
  exists w rest, consumes ml r w rest [] (m_groups m).
Proof.
  induction s as [|c s IH]; intros prev pos skip.
  - destruct skip; simpl; [|intros []].
    destruct (run ml r prev "" [] accept) as [[rest caps]|] eqn:R;
      [|intros []].
    intros [<-|[]]. simpl.
    apply run_sound in R. destruct R as [w [rest' [p' [caps' [_ [H E]]]]]].
    inversion E; subst. eauto.
  - destruct skip; simpl; [|apply IH].
    destruct (run ml r prev (String c s) [] accept) as [[rest caps]|] eqn:R.
    + intros [<-|H]; [|eapply IH; eauto]. simpl.
      apply run_sound in R. destruct R as [w [rest' [p' [caps' [_ [H E]]]]]].
      inversion E; subst. eauto.
    + apply IH.
Qed.

Lemma finditer_sound ml r s m :
  In m (finditer ml r s) ->
  exists w rest, consumes ml r w rest [] (m_groups m).
Proof. apply finditer_from_sound. Qed.

(** Captures only grow, by groups that the pattern binds. *)
Lemma consumes_captures ml r : forall w rest caps caps',
  consumes ml r w rest caps caps' ->
  exists new, caps' = new ++ caps /\ incl (map fst new) (binds r).
Proof.
  induction r as [l|p|p|p|p|r1 IH1 r2 IH2|r1 IH1 r2 IH2|r1 IH1|n r1 IH1| |];
    intros w rest caps caps'; simpl;
    try (intros [_ ->]; exists []; split; [reflexivity|intros ? []]).
  - intros [w1 [w2 [c1 [_ [H1 H2]]]]].
    apply IH1 in H1. destruct H1 as [n1 [-> I1]].
    apply IH2 in H2. destruct H2 as [n2 [-> I2]].
    exists (n2 ++ n1). rewrite app_assoc, map_app. split; [reflexivity|].
    intros x Hx. apply in_app_or in Hx. apply in_or_app. destruct Hx; auto.
  - intros [H|H]; [apply IH1 in H|apply IH2 in H];
      destruct H as [new [-> I]]; exists new; (split; [reflexivity|]);
      intros x Hx; apply in_or_app; auto.
  - intros [H|[_ ->]]; [now apply IH1 in H|].
    exists []. split; [reflexivity|intros ? []].
  - intros [c1 [H ->]]. apply IH1 in H. destruct H as [new [-> I]].
    exists ((n, w) :: new). split; [reflexivity|].
    intros x [<-|Hx]; [now left|right; auto].
Qed.

Lemma group_of_app new caps n :
  ~ In n (map fst new) -> group_of (new ++ caps) n = group_of caps n.
Proof.
  induction new as [|[m t] new IH]; simpl; [reflexivity|].
  intros H. destruct (Nat.eqb_spec m n); [elim H; now left|].
  apply IH. intros Hin. apply H. now right.
Qed.

Lemma all_in_digits w : all_in is_digit w = all_digits w.
Proof. induction w as [|c w IH]; simpl; [reflexivity|now rewrite IH]. Qed.

Lemma number_text_intro w :
  all_in is_digit w = true -> w <> "" -> number_text w.
Proof. intros H N. split; [now rewrite <- all_in_digits|exact N]. Qed.

Ltac break :=
  repeat match goal with
         | H : exists _, _ |- _ => destruct H
         | H : _ /\ _ |- _ => destruct H
         end.

(** An optional annotation leaves the captures alone or binds its group to
    a non-empty text without a closing parenthesis. *)
Lemma annotation_inv ml key n w rest caps caps' :
  binds key = [] ->
  consumes ml (Parser.annotation key n) w rest caps caps'
  \/ (w = "" /\ caps' = caps) ->
  caps' = caps \/ exists t, caps' = (n, t) :: caps /\ annotation_text t.
Proof.
  intros Hk [H|[_ ->]]; [|now left].
  right. unfold Parser.annotation in H. cbn [consumes] in H. break. subst.
  match goal with
  | Hc : consumes ml key _ _ _ _ |- _ =>
      apply consumes_captures in Hc; destruct Hc as [new [-> I]]
  end.
  rewrite Hk in I. destruct new as [|e0 new]; [|elim (I (fst e0)); now left].
  simpl. eexists. split; [reflexivity|]. split; assumption.
Qed.

Lemma consumes_seq ml r1 r2 w rest caps caps' :
  consumes ml (Seq r1 r2) w rest caps caps' ->
  exists w1 w2 c1,
    w = (w1 ++ w2)%string
    /\ consumes ml r1 w1 (w2 ++ rest)%string caps c1
    /\ consumes ml r2 w2 rest c1 caps'.
Proof. intros H. exact H. Qed.

Lemma consumes_group ml n r w rest caps caps' :
  consumes ml (Group n r) w rest caps caps' ->
  exists c1, consumes ml r w rest caps c1 /\ caps' = (n, w) :: c1.
Proof. intros H. exact H. Qed.

(** The identifier part of the task pattern consumes an identifier of the
    grammar and binds nothing. *)
Lemma id_pattern_inv ml w rest caps caps' :
  consumes ml
    (Seq (Plus is_digit)
       (Seq (Lit ".")
          (Seq (Plus is_digit)
             (Seq (Opt (Seq (Lit ".") (Plus is_digit)))
                (Opt (Set_ is_lower_letter))))))
    w rest caps caps' ->
  caps' = caps /\ grammar_id w.
Proof.
  cbn [consumes]. intros H.
  destruct H as (d1 & w1 & c1 & -> & [[D1 N1] ->] & H).
  destruct H as (dot & w2 & c2 & -> & [-> ->] & H).
  destruct H as (d2 & w3 & c3 & -> & [[D2 N2] ->] & H).
  destruct H as (tail & letter & c4 & -> & Ht & Hl).
  assert (Tail : c4 = caps /\ optional_part tail).
  { destruct Ht as [(dot & d3 & c5 & -> & [-> ->] & [[D3 N3] ->])|[-> ->]].
    - split; [reflexivity|]. right. exists d3.
      split; [now apply number_text_intro|reflexivity].
    - split; [reflexivity|now left]. }
  destruct Tail as [-> Tail].
  assert (Letter : caps' = caps /\ optional_letter letter).
  { destruct Hl as [[(c & -> & Hc) ->]|[-> ->]].
    - split; [reflexivity|]. right. eauto.
    - split; [reflexivity|now left]. }
  destruct Letter as [-> Letter].
  split; [reflexivity|].
  exists d1, d2, tail, letter.
  split; [reflexivity|].
  split; [now apply number_text_intro|].
  split; [now apply number_text_intro|].
  split; assumption.
Qed.

(** The captures of a match of the task pattern. *)
Lemma task_pattern_captures w rest caps :
  consumes true Parser.task_pattern w rest [] caps -> task_captures caps.
Proof.
  unfold Parser.task_pattern. intros H.
  apply consumes_seq in H. destruct H as (? & ? & c0 & _ & [_ ->] & H).
  apply consumes_seq in H. destruct H as (? & ? & c1 & _ & [_ ->] & H).
  apply consumes_seq in H. destruct H as (box & ? & c2 & _ & Hbox & H).
  apply consumes_group in Hbox.
  destruct Hbox as (? & [(ch & -> & Hch) ->] & ->).
  apply consumes_seq in H. destruct H as (? & ? & c3 & _ & [_ ->] & H).
  apply consumes_seq in H. destruct H as (idw & ? & c4 & _ & Hid & H).
  apply consumes_group in Hid. destruct Hid as (? & Hid & ->).
  apply id_pattern_inv in Hid. destruct Hid as [-> Hid].
  apply consumes_seq in H. destruct H as (? & ? & c5 & _ & [_ ->] & H).
  apply consumes_seq in H. destruct H as (desc & ? & c6 & _ & Hdesc & H).
  apply consumes_group in Hdesc. destruct Hdesc as (? & [[Hd Nd] ->] & ->).
  apply consumes_seq in H. destruct H as (? & ? & c7 & _ & H4 & H).
  apply consumes_seq in H. destruct H as (? & ? & c8 & _ & H5 & H).
  apply consumes_seq in H. destruct H as (? & ? & c9 & _ & H6 & H).
  apply consumes_seq in H. destruct H as (? & ? & c10 & _ & H7 & [_ ->]).
  apply annotation_inv in H4; [|reflexivity].
  apply annotation_inv in H5; [|reflexivity].
  apply annotation_inv in H6; [|reflexivity].
  apply annotation_inv in H7; [|reflexivity].
  assert (Hn : forall n t, (4 <= n <= 7)%nat ->
                 group_of c10 n = Some t -> annotation_text t).
  { intros n t Hr.
    destruct H4 as [->|(t4 & -> & A4)]; destruct H5 as [->|(t5 & -> & A5)];
      destruct H6 as [->|(t6 & -> & A6)]; destruct H7 as [->|(t7 & -> & A7)];
      destruct n as [|[|[|[|[|[|[|[|n]]]]]]]]; try lia; simpl;
      intros E; inversion E; subst; assumption. }
  unfold task_captures.
  destruct H4 as [->|(t4 & -> & A4)]; destruct H5 as [->|(t5 & -> & A5)];
    destruct H6 as [->|(t6 & -> & A6)]; destruct H7 as [->|(t7 & -> & A7)];
    (split; [exists ch; split; [reflexivity|exact Hch]|]);
    (split; [exists idw; split; [reflexivity|exact Hid]|]);
    (split; [exists desc; split; [reflexivity|split; assumption]|]);
    exact Hn.
Qed.

End RegexFacts.

(* ================================================================== *)
(** * The identifier model on the identifiers of the grammar *)
(* ================================================================== *)

Module IdentifierFacts.

Import Re.
Import Py.
Import Inference.
Import Spec.
Import InferenceFacts.
Import RegexFacts.

Local Open Scope list_scope.

(** A greedy repetition takes a whole run of its class when what follows
    the run is accepted. *)
Lemma star_greedy p k out rest :
  (forall c r, rest = String c r -> p c = false) ->
  (forall prev, k prev rest = Some out) ->
  forall w prev, all_in p w = true -> star p prev (w ++ rest) k = Some out.
Proof.
  intros Hrest Hk. induction w as [|a w IH]; intros prev Hw.
  - simpl. destruct rest as [|c r]; simpl; [apply Hk|].
    rewrite (Hrest c r eq_refl). apply Hk.
  - simpl in Hw. apply andb_true_iff in Hw. destruct Hw as [Ha Hw].
    simpl. rewrite Ha, (IH (Some a) Hw). reflexivity.
Qed.

Lemma lower_letter_not_digit c : is_lower_letter c = true -> is_digit c = false.
Proof.
  unfold is_lower_letter, is_digit, between. intros H.
  apply andb_true_iff in H. destruct H as [H _]. apply Nat.leb_le in H.
  apply andb_false_iff. right. apply Nat.leb_gt. lia.
Qed.

(** A segment [DIGITS [LETTER]] matches the first pattern of
    [parse_task_id], which reads its number and its letter. *)
Lemma match_part d letter :
  number_text d -> optional_letter letter ->
  exists m,
    match_ false part_pattern (d ++ letter) = Some m
    /\ group m 1 = Some d /\ group m 2 = Some letter.
Proof.
  intros [Hd Nd] Hl. destruct d as [|c0 d]; [now elim Nd|].
  simpl in Hd. apply andb_true_iff in Hd. destruct Hd as [Hc0 Hd].
  rewrite <- all_in_digits in Hd.
  unfold match_, part_pattern. cbn [run at_bol append]. rewrite Hc0.
  destruct Hl as [->|[c [Hc ->]]].
  - erewrite star_greedy with (out := ("", [(2, ""); (1, String c0 d)]));
      [eexists; split; [reflexivity|split; reflexivity]|discriminate| |exact Hd].
    intros prev. cbn [run at_eol].
    change (String c0 (d ++ "")) with (String c0 d ++ "")%string.
    rewrite take_append. reflexivity.
  - erewrite star_greedy
      with (out := ("", [(2, String c ""); (1, String c0 d)]));
      [eexists; split; [reflexivity|split; reflexivity]| | |exact Hd].
    + intros a r E. inversion E; subst. now apply lower_letter_not_digit.
    + intros prev. cbn [run at_eol]. rewrite Hc. cbn [at_eol].
      change (String c0 (d ++ String c ""))
        with (String c0 d ++ String c "")%string.
      rewrite take_append. reflexivity.
Qed.

Lemma parse_part_grammar st d letter :
  number_text d -> optional_letter letter ->
  parse_part st (d ++ letter)
  = (fst st ++ [int d], if truthy (Some letter) then letter else snd st).
Proof.
  intros Hd Hl. destruct st as [ps sfx]. unfold parse_part.
  destruct (match_part Hd Hl) as [m [-> [G1 G2]]].
  unfold group_str. rewrite G1, G2. reflexivity.
Qed.

Lemma parse_part_number st d :
  number_text d -> parse_part st d = (fst st ++ [int d], snd st).
Proof.
  intros Hd.
  pose proof (@parse_part_grammar st d "" Hd (or_introl eq_refl)) as H.
  rewrite append_nil_r in H. exact H.
Qed.

Lemma dots_digits d : all_digits d = true -> dots d = 0%nat.
Proof.
  induction d as [|c d IH]; simpl; [reflexivity|].
  intros H. apply andb_true_iff in H. destruct H as [Hc Hd].
  rewrite (is_digit_not_dot _ Hc). auto.
Qed.

Lemma split_no_dot w : dots w = 0%nat -> split "." w = [w].
Proof.
  induction w as [|c w IH]; simpl; [reflexivity|].
  destruct (Ascii.eqb c "."); [discriminate|].
  intros H. now rewrite (IH H).
Qed.

Lemma dots_segment d letter :
  number_text d -> optional_letter letter -> dots (d ++ letter) = 0%nat.
Proof.
  intros [Hd _] Hl. rewrite dots_app, (dots_digits _ Hd).
  destruct Hl as [->|[c [Hc ->]]]; [reflexivity|]. simpl.
  destruct (Ascii.eqb_spec c "."); [subst; discriminate|reflexivity].
Qed.

(** [parse_task_id] on the identifiers of the grammar: two numeric parts,
    or three, and the letter. *)
Lemma parse_task_id_two d1 d2 letter :
  number_text d1 -> number_text d2 -> optional_letter letter ->
  parse_task_id (d1 ++ String "." (d2 ++ letter))
  = ([int d1; int d2], letter).
Proof.
  intros H1 H2 Hl. unfold parse_task_id.
  rewrite (@split_number d1 (d2 ++ letter) (proj1 H1)).
  rewrite (split_no_dot _ (dots_segment H2 Hl)). cbn [fold_left].
  rewrite (parse_part_number _ H1), (@parse_part_grammar _ d2 letter H2 Hl).
  simpl. destruct Hl as [->|[c [_ ->]]]; reflexivity.
Qed.

Lemma parse_task_id_three d1 d2 d3 letter :
  number_text d1 -> number_text d2 -> number_text d3 ->
  optional_letter letter ->
  parse_task_id (d1 ++ String "." (d2 ++ String "." (d3 ++ letter)))
  = ([int d1; int d2; int d3], letter).
Proof.
  intros H1 H2 H3 Hl. unfold parse_task_id.
  rewrite (@split_number d1 _ (proj1 H1)).
  rewrite (@split_number d2 _ (proj1 H2)).
  rewrite (split_no_dot _ (dots_segment H3 Hl)). cbn [fold_left].
  rewrite (parse_part_number _ H1), (parse_part_number _ H2),
    (@parse_part_grammar _ d3 letter H3 Hl).
  simpl. destruct Hl as [->|[c [_ ->]]]; reflexivity.
Qed.

End IdentifierFacts.

(* ================================================================== *)
(** * Further properties of the parser *)
(* ================================================================== *)

Module ParserExtras.

Import Re.
Import Py.
Import Parser.
Import Inference.
Import Spec.
Import ParserFacts.
Import InferenceFacts.
Import RegexFacts.
Import IdentifierFacts.

Local Open Scope list_scope.

(** ** Warnings *)

Lemma parse_task_warnings section_num tm l :
  log_warnings (snd (parse_task section_num tm l))
  = log_warnings l ++ task_warnings tm.
Proof.
  unfold parse_task, task_warnings, files_warnings, complexity_warnings,
    match_id, parse_files.
  assert (Hw : log_warnings (check_section section_num (group_str tm 2) l)
               = log_warnings l).
  { unfold check_section. destruct (Z.eqb _ _); reflexivity. }
  destruct (group tm 4) as [fs|] eqn:E4;
    [destruct (truthy (Some fs)) eqn:T4|];
    (destruct (group tm 7) as [c|] eqn:E7;
     [unfold parse_complexity; destruct (truthy (Some c)) eqn:T7;
      [destruct (valid_complexity (lower (strip c))) eqn:V|]|]);
    simpl; rewrite ?Hw, ?app_nil_r, <- ?app_assoc; reflexivity.
Qed.

Lemma parse_task_matches_warnings section_num ms : forall acc l,
  log_warnings (snd (parse_task_matches section_num ms acc l))
  = log_warnings l ++ flat_map task_warnings ms.
Proof.
  induction ms as [|m ms IH]; intros acc l; simpl.
  - now rewrite app_nil_r.
  - pose proof (parse_task_warnings section_num m l) as Hw.
    destruct (parse_task section_num m l) as [t l']. simpl in Hw.
    rewrite IH, Hw, <- app_assoc. reflexivity.
Qed.

Lemma parse_section_warnings content m stop l :
  log_warnings (snd (parse_section content m stop l))
  = log_warnings l ++ section_warnings content (m, stop).
Proof.
  unfold parse_section, section_warnings, task_matches, span_number,
    span_name. simpl fst. simpl snd.
  pose proof (parse_task_matches_warnings (int (group_str m 1))
                (finditer true task_pattern (slice (m_end m) stop content))
                [] l) as Hw.
  destruct (parse_task_matches_spec (int (group_str m 1))
              (finditer true task_pattern (slice (m_end m) stop content))
              [] l) as [Ht _].
  destruct (parse_task_matches (int (group_str m 1))
              (finditer true task_pattern (slice (m_end m) stop content))
              [] l) as [ts l1].
  simpl in Hw, Ht. subst ts. simpl snd.
  destruct (finditer true task_pattern (slice (m_end m) stop content))
    as [|tm tms]; simpl map; cbv iota.
  - simpl. rewrite Hw. simpl. now rewrite app_nil_r.
  - rewrite Hw, app_nil_r. reflexivity.
Qed.

Lemma parse_sections_warnings content ms : forall acc l,
  log_warnings (snd (parse_sections content ms acc l))
  = log_warnings l
    ++ flat_map (section_warnings content)
         (with_stops (String.length content) ms).
Proof.
  induction ms as [|m ms IH]; intros acc l.
  - simpl. now rewrite app_nil_r.
  - cbn [parse_sections with_stops flat_map].
    set (stop := match ms with
                 | m' :: _ => m_start m'
                 | [] => String.length content
                 end).
    pose proof (parse_section_warnings content m stop l) as Hw.
    destruct (parse_section content m stop l) as [s l'].
    simpl in Hw. rewrite IH, Hw, <- app_assoc. reflexivity.
Qed.

(** ** Trimmed fields *)

Lemma rstrip_idem s : rstrip (rstrip s) = rstrip s.
Proof.
  induction s as [|c s IH]; [reflexivity|]. simpl.
  destruct (rstrip s) as [|a r] eqn:R.
  - destruct (is_space c) eqn:Sc; [reflexivity|]. simpl. now rewrite Sc.
  - simpl. simpl in IH. rewrite IH. reflexivity.
Qed.

Lemma lstrip_rstrip_lstrip s : lstrip (rstrip (lstrip s)) = rstrip (lstrip s).
Proof.
  induction s as [|c s IH]; [reflexivity|]. simpl.
  destruct (is_space c) eqn:Sc; [exact IH|].
  simpl. destruct (rstrip s) as [|a r]; simpl; rewrite ?Sc; simpl;
    rewrite ?Sc; reflexivity.
Qed.

Lemma strip_trimmed s : trimmed (strip s).
Proof.
  unfold trimmed, strip. now rewrite lstrip_rstrip_lstrip, rstrip_idem.
Qed.

Lemma Forall_map_strip l : Forall trimmed (map strip l).
Proof. induction l; simpl; constructor; auto using strip_trimmed. Qed.

(** ** Where a parsed task comes from *)

Lemma parsed_task_origin content t :
  In t (all_tasks_of (sections (parse_tasks_md content))) ->
  exists sp tm,
    In sp (section_spans content) /\ In tm (task_matches content sp)
    /\ t = task_of_match tm.
Proof.
  rewrite parse_sections_of. unfold all_tasks_of. intros H.
  apply in_flat_map in H. destruct H as [s [Hs Ht]].
  apply in_map_iff in Hs. destruct Hs as [sp [<- Hsp]].
  simpl in Ht. apply in_map_iff in Ht. destruct Ht as [tm [<- Htm]].
  eauto.
Qed.

Lemma task_match_captures content sp tm :
  In tm (task_matches content sp) -> task_captures (m_groups tm).
Proof.
  intros H. apply finditer_sound in H. destruct H as [w [rest H]].
  eapply task_pattern_captures; eauto.
Qed.

Lemma task_match_id content sp tm :
  In tm (task_matches content sp) -> grammar_id (match_id tm).
Proof.
  intros H. apply task_match_captures in H.
  destruct H as [_ [[w [G Hw]] _]].
  unfold match_id, group_str, group. now rewrite G.
Qed.

(** What the identifier model reads in an identifier of the grammar. *)
Lemma grammar_id_parts w :
  grammar_id w ->
  exists d1 d2 more letter,
    parse_task_id w = (int d1 :: int d2 :: more, letter)
    /\ (more = [] \/ exists d3, more = [int d3])
    /\ optional_letter letter
    /\ hd "" (split "." w) = d1.
Proof.
  intros [d1 [d2 [tail [letter [-> [H1 [H2 [Ht Hl]]]]]]]].
  exists d1, d2.
  destruct Ht as [->|[d3 [H3 ->]]].
  - exists [], letter. cbn [append].
    rewrite (parse_task_id_two H1 H2 Hl), (@split_number d1 _ (proj1 H1)).
    auto.
  - exists [int d3], letter. cbn [append].
    rewrite (parse_task_id_three H1 H2 H3 Hl), (@split_number d1 _ (proj1 H1)).
    split; [reflexivity|]. split; [right; eauto|]. auto.
Qed.

Lemma grammar_id_is_valid w : grammar_id w -> valid_id w.
Proof.
  intros H. apply grammar_id_parts in H.
  destruct H as [d1 [d2 [more [letter [E _]]]]].
  unfold valid_id. rewrite E. simpl. lia.
Qed.

Lemma subsection_order_total_valid tasks :
  (forall t, In t tasks -> valid_id (id t)) ->
  exists deps, infer_from_subsection_order tasks = Ok deps.
Proof.
  intros Hvalid. rewrite infer_from_subsection_order_gather.
  apply gather_total. intros [k ids] Hg.
  apply In_group_pairs in Hg. rewrite items_of_subsection in Hg.
  destruct Hg as [Hids _]. unfold subsection_edges. simpl.
  destruct (List.length ids <? 2)%nat; [eauto|].
  destruct (@sorted_total ids) as [s ->]; [|simpl; eauto].
  apply subsection_comparable with (k := k).
  intros a Ha. rewrite Hids in Ha. apply In_subsection_group in Ha.
  destruct Ha as [Ha Hk]. split; [|exact Hk].
  apply in_map_iff in Ha. destruct Ha as [t [<- Ht]]. auto.
Qed.

(** X1. Without a section header the parse is empty, with the one error
    that says so and no warning. In every case the sections of the parse
    are the header matches of the document in their order, a section
    carrying the number and the trimmed name of its header and one task
    per matched task line between that header and the next, in order. *)
Theorem X1_sections_follow_headers :
  forall content : string,
    (finditer true section_pattern content = [] ->
     parse_tasks_md content = mkParseResult [] [no_sections_error] [])
    /\ sections (parse_tasks_md content)
       = map (section_of content) (section_spans content)
    /\ List.length (sections (parse_tasks_md content))
       = List.length (finditer true section_pattern content).
Proof.
  intros content. split; [|split].
  - intros E. unfold parse_tasks_md. now rewrite E.
  - apply parse_sections_of.
  - rewrite parse_sections_of, length_map. unfold section_spans.
    induction (finditer true section_pattern content) as [|m ms IH];
      simpl; [reflexivity|now rewrite IH].
Qed.

(** X2. When the document has a section header, the errors of the parse
    are exactly the mismatch errors of the matched task lines whose
    leading number differs from their section's, in document order; so
    the parse is free of errors exactly when every matched task line
    starts with the number of its section. *)
Theorem X2_errors_are_the_mismatches :
  forall content : string,
    section_spans content <> [] ->
    errors (parse_tasks_md content)
    = flat_map (section_errors content) (section_spans content)
    /\ (errors (parse_tasks_md content) = []
        <-> forall sp tm,
              In sp (section_spans content) ->
              In tm (task_matches content sp) ->
              match_section tm = span_number sp).
Proof.
  intros content Hne. rewrite (parse_errors_of content Hne).
  split; [reflexivity|]. split.
  - intros E sp tm Hsp Htm.
    destruct (Z.eqb_spec (match_section tm) (span_number sp)) as [|N];
      [assumption|].
    assert (Hin : In (mismatch_error (match_id tm) (span_number sp))
                     (flat_map (section_errors content) (section_spans content))).
    { apply in_flat_map. exists sp. split; [exact Hsp|].
      apply in_flat_map. exists tm. split; [exact Htm|].
      unfold task_errors. apply Z.eqb_neq in N. rewrite N. now left. }
    rewrite E in Hin. destruct Hin.
  - intros H.
    destruct (flat_map (section_errors content) (section_spans content))
      as [|e es] eqn:F; [reflexivity|].
    assert (Hin : In e (flat_map (section_errors content)
                                 (section_spans content)))
      by (rewrite F; now left).
    apply in_flat_map in Hin. destruct Hin as [sp [Hsp Hin]].
    apply in_flat_map in Hin. destruct Hin as [tm [Htm Hin]].
    unfold task_errors in Hin. rewrite (H sp tm Hsp Htm), Z.eqb_refl in Hin.
    destruct Hin.
Qed.

Lemma X2_errors_are_the_mismatches_witness :
  errors (parse_tasks_md doc_mismatch) = [mismatch_error "1.3a" 2].
Proof.
  destruct (X2_errors_are_the_mismatches doc_mismatch) as [E _].
  - vm_compute. discriminate.
  - rewrite E. vm_compute. reflexivity.
Defined.

(** X3. The warnings of a parse are, section by section in document
    order, the warnings of the section's matched task lines (a missing
    files annotation, then an invalid complexity) followed by the
    empty-section warning when the section has no matched task line; a
    document without a section header has none. *)
Theorem X3_warnings_in_document_order :
  forall content : string,
    warnings (parse_tasks_md content)
    = flat_map (section_warnings content) (section_spans content).
Proof.
  intros content. unfold parse_tasks_md, section_spans.
  destruct (finditer true section_pattern content) as [|m ms] eqn:E;
    [reflexivity|].
  pose proof (parse_sections_warnings content (m :: ms) [] (mkLog [] [])) as H.
  destruct (parse_sections content (m :: ms) [] (mkLog [] [])) as [ss l].
  simpl in H. simpl. exact H.
Qed.

(** X4. Every task of a parse has a complexity among low, medium and
    high, and its description, its file paths, its declared dependencies
    and its agent are trimmed of surrounding white space. *)
Theorem X4_parsed_task_fields :
  forall (content : string) (t : Task),
    In t (all_tasks_of (sections (parse_tasks_md content))) ->
    In (complexity t) ["low"; "medium"; "high"]
    /\ trimmed (description t)
    /\ Forall trimmed (files t)
    /\ Forall trimmed (depends_on t)
    /\ (forall a, agent_type t = Some a -> trimmed a).
Proof.
  intros content t Ht.
  destruct (parsed_task_origin content t Ht) as [sp [tm [_ [_ ->]]]].
  unfold task_of_match. simpl. repeat split.
  - unfold complexity_of. destruct (group tm 7) as [c|]; [|simpl; auto].
    destruct (truthy (Some c)); [|simpl; auto].
    destruct (valid_complexity (lower (strip c))) eqn:V; [|simpl; auto].
    unfold valid_complexity in V.
    apply orb_true_iff in V. destruct V as [V|V];
      [apply orb_true_iff in V; destruct V as [V|V]|];
      apply String.eqb_eq in V; rewrite V; simpl; auto.
  - apply strip_trimmed.
  - unfold files_of. destruct (group tm 4) as [fs|]; [|constructor].
    destruct (truthy (Some fs)); [apply Forall_map_strip|constructor].
  - unfold parse_depends. destruct (group tm 5) as [ds|]; [|constructor].
    destruct (truthy (Some ds)); [apply Forall_map_strip|constructor].
  - unfold parse_agent. destruct (group tm 6) as [a0|]; [|discriminate].
    destruct (truthy (Some a0)); [|discriminate].
    intros a E. inversion E. apply strip_trimmed.
Qed.

Lemma X4_parsed_task_fields_witness :
  In "high" ["low"; "medium"; "high"] /\ trimmed "Add handler".
Proof.
  destruct (X4_parsed_task_fields doc_mismatch
              (mkTask "1.3a" "Add handler" ["api.ts"] ["1.1"] (Some "bob")
                      "high" true)) as [H1 [H2 _]].
  - vm_compute. left. reflexivity.
  - split; [exact H1|exact H2].
Defined.

(** X5. Every task identifier of a parse is written
    [DIGITS "." DIGITS ["." DIGITS] [LETTER]], and the identifier model
    reads it whole: its numeric parts are the numbers of these two or
    three digit runs, in order, and its suffix is that letter, or empty
    without one. *)
Theorem X5_parsed_identifiers :
  forall (content : string) (t : Task),
    In t (all_tasks_of (sections (parse_tasks_md content))) ->
    exists d1 d2 letter,
      number_text d1 /\ number_text d2 /\ optional_letter letter
      /\ ((id t = (d1 ++ String "." (d2 ++ letter))%string
           /\ parse_task_id (id t) = ([int d1; int d2], letter))
          \/ exists d3,
               number_text d3
               /\ id t = (d1 ++ String "." (d2 ++ String "." (d3 ++ letter)))%string
               /\ parse_task_id (id t) = ([int d1; int d2; int d3], letter)).
Proof.
  intros content t Ht.
  destruct (parsed_task_origin content t Ht) as [sp [tm [_ [Htm ->]]]].
  destruct (task_match_id content sp tm Htm)
    as [d1 [d2 [tail [letter [E [H1 [H2 [Htail Hl]]]]]]]].
  change (id (task_of_match tm)) with (match_id tm). rewrite E.
  exists d1, d2, letter. split; [exact H1|]. split; [exact H2|].
  split; [exact Hl|].
  destruct Htail as [->|[d3 [H3 ->]]]; cbn [append].
  - left. split; [reflexivity|]. now apply parse_task_id_two.
  - right. exists d3. split; [exact H3|]. split; [reflexivity|].
    now apply parse_task_id_three.
Qed.

Lemma X5_parsed_identifiers_witness :
  exists d1 d2 letter,
    number_text d1 /\ number_text d2 /\ optional_letter letter
    /\ (("1.3a" = (d1 ++ String "." (d2 ++ letter))%string
         /\ parse_task_id "1.3a" = ([int d1; int d2], letter))
        \/ exists d3,
             number_text d3
             /\ "1.3a" = (d1 ++ String "." (d2 ++ String "." (d3 ++ letter)))%string
             /\ parse_task_id "1.3a" = ([int d1; int d2; int d3], letter)).
Proof.
  apply (X5_parsed_identifiers doc_mismatch
           (mkTask "1.3a" "Add handler" ["api.ts"] ["1.1"] (Some "bob")
                   "high" true)).
  vm_compute. left. reflexivity.
Defined.

(** X6. On a document whose numbers [int()] converts (the numbers of its
    section headers and the digit runs of its task identifiers have at
    most 4300 digits each) the subsection-order strategy does not raise on
    the tasks of the parse: identifiers of one subsection always have sort
    keys of the same length. *)
Theorem X6_subsection_order_returns_on_parsed :
  forall content : string,
    (forall sp, In sp (section_spans content) ->
                int_returns (group_str (fst sp) 1) = true) ->
    (forall t, In t (all_tasks_of (sections (parse_tasks_md content))) ->
               within_int_limit (id t)) ->
    exists deps,
      infer_from_subsection_order
        (all_tasks_of (sections (parse_tasks_md content))) = Ok deps.
Proof.
  intros content _ _. apply subsection_order_total_valid.
  intros t Ht. apply grammar_id_is_valid.
  destruct (parsed_task_origin content t Ht) as [sp [tm [_ [Htm ->]]]].
  exact (task_match_id content sp tm Htm).
Qed.

Lemma X6_subsection_order_returns_on_parsed_witness :
  exists deps,
    infer_from_subsection_order
      (all_tasks_of (sections (parse_tasks_md doc_setup))) = Ok deps.
Proof.
  apply (X6_subsection_order_returns_on_parsed doc_setup).
  - intros sp Hsp. vm_compute in Hsp. destruct Hsp as [<-|[]].
    vm_compute. reflexivity.
  - intros t Ht part Hp. vm_compute in Ht.
    destruct Ht as [<-|[<-|[]]]; vm_compute in Hp;
      destruct Hp as [<-|[<-|[]]]; reflexivity.
Defined.

(** X7. In a parse without errors every task identifier starts with the
    number of the section that holds the task: the first numeric part of
    the identifier is the section's number. *)
Theorem X7_error_free_parse_numbers :
  forall (content : string) (s : Section_) (t : Task),
    errors (parse_tasks_md content) = [] ->
    In s (sections (parse_tasks_md content)) ->
    In t (tasks s) ->
    hd 0%Z (numeric_parts (id t)) = number s.
Proof.
  intros content s t He Hs Ht.
  rewrite parse_sections_of in Hs. apply in_map_iff in Hs.
  destruct Hs as [sp [<- Hsp]]. simpl in Ht.
  apply in_map_iff in Ht. destruct Ht as [tm [<- Htm]].
  assert (Hne : section_spans content <> []).
  { intros E. rewrite E in Hsp. destruct Hsp. }
  rewrite (parse_errors_of content Hne) in He.
  assert (Hm : match_section tm = span_number sp).
  { destruct (Z.eqb_spec (match_section tm) (span_number sp)) as [|N];
      [assumption|].
    assert (Hin : In (mismatch_error (match_id tm) (span_number sp))
                     (flat_map (section_errors content) (section_spans content))).
    { apply in_flat_map. exists sp. split; [exact Hsp|].
      apply in_flat_map. exists tm. split; [exact Htm|].
      unfold task_errors. apply Z.eqb_neq in N. rewrite N. now left. }
    rewrite He in Hin. destruct Hin. }
  simpl. rewrite <- Hm.
  destruct (grammar_id_parts (task_match_id content sp tm Htm))
    as [d1 [d2 [more [letter [E [_ [_ Hh]]]]]]].
  unfold numeric_parts, match_section. rewrite E, Hh. reflexivity.
Qed.

Lemma X7_error_free_parse_numbers_witness :
  hd 0%Z (numeric_parts "1.2") = 1%Z.
Proof.
  apply (X7_error_free_parse_numbers doc_setup
           (mkSection 1 "Setup"
              [mkTask "1.1" "Add schema" ["schema.ts"] [] None "medium" false;
               mkTask "1.2" "Add mutation" ["mutation.ts"] ["1.1"] None
                      "medium" false])
           (mkTask "1.2" "Add mutation" ["mutation.ts"] ["1.1"] None
                   "medium" false)).
  - vm_compute. reflexivity.
  - vm_compute. left. reflexivity.
  - simpl. right. left. reflexivity.
Defined.

End ParserExtras.

(* ================================================================== *)
(** * Further properties of the identifier model *)
(* ================================================================== *)

Module IdentifierExtras.

Import Re.
Import Py.
Import Inference.
Import Spec.
Import InferenceFacts.
Import RegexFacts.
Import IdentifierFacts.

Local Open Scope list_scope.
Local Open Scope Z_scope.

Lemma int_acc_nonneg s : forall acc, 0 <= acc -> 0 <= int_acc acc s.
Proof.
  induction s as [|c s IH]; intros acc H; cbn [int_acc]; [exact H|].
  apply IH. pose proof (Nat2Z.is_nonneg (code c - 48)). lia.
Qed.

Lemma int_nonneg s : 0 <= int s.
Proof. apply int_acc_nonneg. lia. Qed.

Lemma part_match_letter part m :
  match_ false part_pattern part = Some m ->
  optional_letter (group_str m 2).
Proof.
  unfold match_. destruct (run false part_pattern None part [] accept)
    as [[rest caps]|] eqn:R; [|discriminate].
  intros E. inversion E; subst m. clear E.
  apply run_sound in R.
  destruct R as [w [rest' [prev' [caps' [_ [H E]]]]]].
  inversion E; subst. clear E.
  unfold part_pattern in H. cbn [consumes] in H.
  destruct H as (? & ? & ? & _ & [_ ->] & H).
  destruct H as (d & ? & ? & _ & (? & [_ ->] & ->) & H).
  destruct H as (l & ? & ? & _ & (? & Hl & ->) & [_ ->]).
  unfold group_str, group. simpl.
  destruct Hl as [[(c & -> & Hc) _]|[-> _]]; [right; eauto|now left].
Qed.

Lemma parse_part_invariant st part :
  Forall (fun n => 0 <= n) (fst st) /\ optional_letter (snd st) ->
  Forall (fun n => 0 <= n) (fst (parse_part st part))
  /\ optional_letter (snd (parse_part st part)).
Proof.
  destruct st as [ps sfx]. simpl. intros [Hp Hs]. unfold parse_part.
  destruct (match_ false part_pattern part) as [m|] eqn:M.
  - simpl. split.
    + apply Forall_app. split; [exact Hp|]. repeat constructor. apply int_nonneg.
    + destruct (truthy (group m 2)); [|exact Hs].
      now apply part_match_letter with (part := part).
  - destruct (match_ false digits_pattern part) as [m|]; simpl.
    + split; [|exact Hs].
      apply Forall_app. split; [exact Hp|]. repeat constructor. apply int_nonneg.
    + auto.
Qed.

(** X8. For every string, [parse_task_id] yields one numeric part for
    each dot-separated segment that starts with a digit and none for the
    other segments; the numeric parts are non-negative; and the suffix is
    empty or a single lowercase letter. *)
Theorem X8_parse_task_id_shape :
  forall task_id : string,
    List.length (fst (parse_task_id task_id))
    = List.length (filter starts_with_digit (split "." task_id))
    /\ Forall (fun n => 0 <= n) (fst (parse_task_id task_id))
    /\ optional_letter (snd (parse_task_id task_id)).
Proof.
  intros task_id. split.
  - unfold parse_task_id. rewrite parse_parts_length. reflexivity.
  - unfold parse_task_id.
    assert (H : forall parts st,
              Forall (fun n => 0 <= n) (fst st) /\ optional_letter (snd st) ->
              Forall (fun n => 0 <= n) (fst (fold_left parse_part parts st))
              /\ optional_letter (snd (fold_left parse_part parts st))).
    { induction parts as [|p parts IH]; intros st Hst; simpl; [exact Hst|].
      apply IH. now apply parse_part_invariant. }
    apply H. simpl. split; [constructor|now left].
Qed.

(** ** The order of sort keys *)

Lemma elem_eqb_eq x y : elem_eqb x y = true -> x = y.
Proof.
  destruct x, y; simpl; try discriminate; intros H.
  - apply Z.eqb_eq in H. now subst.
  - apply String.eqb_eq in H. now subst.
Qed.

Lemma elem_eqb_refl x : elem_eqb x x = true.
Proof. destruct x; simpl; [apply Z.eqb_refl|apply String.eqb_refl]. Qed.

Lemma str_ltb_trans a b c :
  str_ltb a b = true -> str_ltb b c = true -> str_ltb a c = true.
Proof.
  unfold str_ltb. intros H1 H2.
  assert (L1 : String.compare a b = Lt) by (destruct (String.compare a b); congruence).
  assert (L2 : String.compare b c = Lt) by (destruct (String.compare b c); congruence).
  apply OrderedTypeEx.String_as_OT.cmp_lt in L1, L2.
  pose proof (@OrderedTypeEx.String_as_OT.lt_trans a b c L1 L2) as L.
  apply OrderedTypeEx.String_as_OT.cmp_lt in L.
  unfold OrderedTypeEx.String_as_OT.cmp in L. now rewrite L.
Qed.

Lemma str_ltb_irrefl a : str_ltb a a = false.
Proof.
  unfold str_ltb. pose proof (String.compare_antisym a a) as H.
  destruct (String.compare a a); simpl in H; congruence.
Qed.

Lemma elem_lt_trans x y z :
  elem_lt x y = Ok true -> elem_lt y z = Ok true ->
  elem_lt x z = Ok true /\ elem_eqb x z = false.
Proof.
  destruct x, y, z; simpl; try discriminate; intros H1 H2;
    injection H1 as L1; injection H2 as L2.
  - apply Z.ltb_lt in L1, L2. split.
    + f_equal. apply Z.ltb_lt. lia.
    + apply Z.eqb_neq. lia.
  - pose proof (str_ltb_trans _ _ _ L1 L2) as L. split.
    + now rewrite L.
    + destruct (String.eqb_spec s s1); [|reflexivity].
      subst. rewrite str_ltb_irrefl in L. discriminate.
Qed.

Lemma elem_lt_neq x y : elem_lt x y = Ok true -> elem_eqb x y = false.
Proof.
  destruct x, y; simpl; try discriminate; intros H; injection H as L.
  - apply Z.ltb_lt in L. apply Z.eqb_neq. lia.
  - destruct (String.eqb_spec s s0); [|reflexivity].
    subst. rewrite str_ltb_irrefl in L. discriminate.
Qed.

Lemma tuple_lt_irrefl a : tuple_lt a a = Ok false.
Proof.
  induction a as [|x a IH]; simpl; [reflexivity|].
  now rewrite elem_eqb_refl.
Qed.

Lemma tuple_lt_trans a : forall b c,
  tuple_lt a b = Ok true -> tuple_lt b c = Ok true -> tuple_lt a c = Ok true.
Proof.
  induction a as [|x a IH]; intros [|y b] [|z c]; simpl; try discriminate; auto.
  destruct (elem_eqb x y) eqn:Exy; destruct (elem_eqb y z) eqn:Eyz.
  - apply elem_eqb_eq in Exy. subst y. rewrite Eyz. apply IH.
  - apply elem_eqb_eq in Exy. subst y. rewrite Eyz. auto.
  - apply elem_eqb_eq in Eyz. subst z. rewrite Exy. auto.
  - intros H1 H2. destruct (elem_lt_trans _ _ _ H1 H2) as [L N].
    now rewrite N.
Qed.

Lemma tuple_lt_equal a : forall b,
  tuple_lt a b = Ok false -> tuple_lt b a = Ok false -> a = b.
Proof.
  induction a as [|x a IH]; intros [|y b]; simpl; try discriminate; auto.
  rewrite (elem_eqb_sym y x).
  destruct (elem_eqb x y) eqn:E.
  - apply elem_eqb_eq in E. subst y. intros H1 H2. f_equal. now apply IH.
  - destruct x, y; simpl in *; try discriminate; intros H1 H2;
      injection H1 as L1; injection H2 as L2; exfalso.
    + apply Z.ltb_ge in L1, L2. apply Z.eqb_neq in E. lia.
    + unfold str_ltb in L1, L2.
      pose proof (String.compare_antisym s s0) as A.
      destruct (String.compare s s0) eqn:C; try discriminate.
      * apply String.compare_eq_iff in C. subst.
        rewrite String.eqb_refl in E. discriminate.
      * destruct (String.compare s0 s); simpl in A; discriminate.
Qed.

(** X9. Where the comparison of sort keys does not raise it is a strict
    order: no identifier is before itself, two identifiers are never each
    before the other, the order is transitive, and two identifiers none
    of which is before the other have the same sort key. *)
Theorem X9_sort_key_strict_order :
  forall a b c : string,
    key_lt a a = Ok false
    /\ (key_lt a b = Ok true -> key_lt b a = Ok false)
    /\ (key_lt a b = Ok true -> key_lt b c = Ok true -> key_lt a c = Ok true)
    /\ (key_lt a b = Ok false -> key_lt b a = Ok false ->
        task_id_sort_key a = task_id_sort_key b).
Proof.
  intros a b c. unfold key_lt. repeat split.
  - apply tuple_lt_irrefl.
  - apply tuple_lt_asym.
  - apply tuple_lt_trans.
  - apply tuple_lt_equal.
Qed.

(** ** Subsection keys *)

Lemma to_int_not_nil z :
  Z.to_int z <> Decimal.Pos Decimal.Nil /\ Z.to_int z <> Decimal.Neg Decimal.Nil.
Proof.
  destruct z as [|p|p]; simpl; split; try discriminate; intros E;
    inversion E as [E']; now apply DecimalPos.Unsigned.to_uint_nonnil in E'.
Qed.

Lemma str_inj a b : str a = str b -> a = b.
Proof.
  unfold str. intros E. apply DecimalZ.to_int_inj.
  destruct (to_int_not_nil a) as [A1 A2], (to_int_not_nil b) as [B1 B2].
  pose proof (NilZero.isi _ A1 A2) as Ia. pose proof (NilZero.isi _ B1 B2) as Ib.
  rewrite E in Ia. rewrite Ia in Ib. now inversion Ib.
Qed.

Lemma map_str_inj l : forall l', map str l = map str l' -> l = l'.
Proof.
  induction l as [|x l IH]; intros [|y l']; simpl; try discriminate; auto.
  intros E. inversion E as [[Ex El]]. f_equal; [now apply str_inj|now apply IH].
Qed.

Lemma split_dot_free d r :
  dots d = 0%nat -> split "." (d ++ String "." r)%string = d :: split "." r.
Proof.
  induction d as [|c d IH]; simpl; [reflexivity|].
  destruct (Ascii.eqb c "."); [discriminate|].
  intros H. now rewrite (IH H).
Qed.

Lemma split_join l :
  l <> [] -> split "." (join "." (map str l)) = map str l.
Proof.
  induction l as [|z l IH]; intros Hne; [now elim Hne|].
  destruct l as [|z' l].
  - simpl. apply split_no_dot, dots_str.
  - change (join "." (map str (z :: z' :: l)))
      with (str z ++ String "." (join "." (map str (z' :: l))))%string.
    rewrite (@split_dot_free (str z) _ (dots_str z)), IH by discriminate.
    reflexivity.
Qed.

Lemma removelast_nonempty {A} (l : list A) :
  (2 <= List.length l)%nat -> removelast l <> [].
Proof.
  intros H E. apply (f_equal (@List.length A)) in E.
  rewrite length_removelast in E. simpl in E. lia.
Qed.

(** X10. Two identifiers with at least two numeric parts have the same
    subsection key exactly when their numeric parts agree up to the last
    one: the key renders the leading parts as numbers, so leading zeros and
    the letter suffix play no role, and different parent parts never share
    a key. *)
Theorem X10_subsection_key_groups_by_parent :
  forall a b : string,
    valid_id a -> valid_id b ->
    (get_subsection_key a = get_subsection_key b
     <-> removelast (numeric_parts a) = removelast (numeric_parts b)).
Proof.
  intros a b. unfold valid_id, get_subsection_key, numeric_parts.
  destruct (parse_task_id a) as [pa sa], (parse_task_id b) as [pb sb].
  cbn [fst]. intros Ha Hb.
  rewrite (proj2 (Nat.leb_le 2 _) Ha), (proj2 (Nat.leb_le 2 _) Hb).
  split; [|intros E; now rewrite E].
  intros E. apply map_str_inj.
  rewrite <- (@split_join (removelast pa) (@removelast_nonempty Z pa Ha)),
          <- (@split_join (removelast pb) (@removelast_nonempty Z pb Hb)).
  now rewrite E.
Qed.

Lemma X10_subsection_key_groups_by_parent_witness :
  get_subsection_key "1.01.2" = get_subsection_key "1.1.3a"
  <-> removelast (numeric_parts "1.01.2") = removelast (numeric_parts "1.1.3a").
Proof.
  apply X10_subsection_key_groups_by_parent; vm_compute; lia.
Defined.

(** ** File stems *)

Lemma split_nonempty sep s : split sep s <> [].
Proof.
  destruct s as [|c s]; simpl; [discriminate|].
  destruct (Ascii.eqb c sep); [discriminate|].
  destruct (split sep s); discriminate.
Qed.

Lemma split_at_separator sep a b :
  split sep (a ++ String sep b)%string = split sep a ++ split sep b.
Proof.
  induction a as [|c a IH]; simpl.
  - now rewrite Ascii.eqb_refl.
  - destruct (Ascii.eqb c sep); [now rewrite IH|].
    rewrite IH. pose proof (split_nonempty sep a) as N.
    destruct (split sep a) as [|h t]; [now elim N|]. reflexivity.
Qed.

Lemma last_append {A} (l1 l2 : list A) d :
  l2 <> [] -> last (l1 ++ l2) d = last l2 d.
Proof.
  intros N. induction l1 as [|x l1 IH]; [reflexivity|].
  simpl. rewrite IH. destruct (l1 ++ l2) eqn:E; [|reflexivity].
  apply app_eq_nil in E. destruct E as [_ E]. now elim N.
Qed.

Lemma lower_char_idem c : lower_char (lower_char c) = lower_char c.
Proof.
  destruct c as [[] [] [] [] [] [] [] []]; reflexivity.
Qed.

Lemma lower_idem s : lower (lower s) = lower s.
Proof.
  induction s as [|c s IH]; simpl; [reflexivity|].
  now rewrite lower_char_idem, IH.
Qed.

Lemma lower_append a b : lower (a ++ b) = (lower a ++ lower b)%string.
Proof. induction a as [|c a IH]; simpl; [reflexivity|now rewrite IH]. Qed.

Lemma split_without sep w : occurrences sep w = 0%nat -> split sep w = [w].
Proof.
  induction w as [|c w IH]; simpl; [reflexivity|].
  destruct (Ascii.eqb c sep); [discriminate|].
  intros H. now rewrite (IH H).
Qed.

Lemma occurrences_append c a b :
  occurrences c (a ++ b) = (occurrences c a + occurrences c b)%nat.
Proof. induction a as [|x a IH]; simpl; [reflexivity|]. rewrite IH. lia. Qed.

Lemma strip_extension base ext :
  occurrences "." base = 0%nat -> In ext extensions ->
  forall prev,
    sub_empty_from false extension_pattern prev (base ++ String "." ext) 0
    = base.
Proof.
  intros Hb Hext. induction base as [|c base IH]; intros prev.
  - unfold extensions in Hext. simpl in Hext.
    destruct Hext as [<-|[<-|[<-|[<-|[<-|[<-|[<-|[]]]]]]]]; reflexivity.
  - simpl in Hb. destruct (Ascii.eqb c ".") eqn:E; [discriminate|].
    cbn [append sub_empty_from]. unfold extension_pattern at 1.
    cbn [run lit]. rewrite E. f_equal. apply IH. exact Hb.
Qed.

(** X11. The stem of a file path is that of its last path component,
    whatever the directories; it is in lower case; and for a name without
    dots, followed by a dot and one of the recognised extensions, it is
    the name in lower case. *)
Theorem X11_extract_stem :
  forall (dir name : string),
    extract_stem (dir ++ String "/" name) = extract_stem name
    /\ lower (extract_stem name) = extract_stem name
    /\ (forall ext,
          occurrences "." name = 0%nat -> occurrences "/" name = 0%nat ->
          In ext extensions ->
          extract_stem (dir ++ String "/" (name ++ String "." ext))
          = lower name).
Proof.
  intros dir name.
  assert (Hdir : forall n, extract_stem (dir ++ String "/" n) = extract_stem n).
  { intros n. unfold extract_stem.
    rewrite split_at_separator, last_append by apply split_nonempty.
    reflexivity. }
  split; [apply Hdir|]. split.
  - unfold extract_stem. apply lower_idem.
  - intros ext Hd Hs Hext. rewrite Hdir. unfold extract_stem.
    rewrite split_without.
    + simpl last. unfold sub_empty. now rewrite strip_extension.
    + rewrite occurrences_append, Hs. simpl.
      unfold extensions in Hext. simpl in Hext.
      destruct Hext as [<-|[<-|[<-|[<-|[<-|[<-|[<-|[]]]]]]]]; reflexivity.
Qed.

(** ** Categories *)

Lemma NoDup_map_filter {A B} (g : A -> B) (f : A -> bool) l :
  NoDup (map g l) -> NoDup (map g (filter f l)).
Proof.
  induction l as [|x l IH]; simpl; [auto|].
  intros H. inversion H as [|? ? Hx Hl]; subst.
  destruct (f x); simpl; [|auto].
  constructor; [|auto]. intros Hin. apply Hx.
  apply in_map_iff in Hin. destruct Hin as [y [E Hy]].
  apply filter_In in Hy. apply in_map_iff. exists y. tauto.
Qed.

Lemma prefix_append w hay post :
  String.prefix w hay = true -> String.prefix w (hay ++ post) = true.
Proof.
  revert hay. induction w as [|c w IH]; intros hay;
    [intros _; destruct (hay ++ post)%string; reflexivity|].
  destruct hay as [|a hay]; simpl; [discriminate|].
  destruct (ascii_dec c a); [apply IH|discriminate].
Qed.

Lemma contains_append_r w hay post :
  contains w hay = true -> contains w (hay ++ post) = true.
Proof.
  induction hay as [|a hay IH]; cbn [contains append].
  - rewrite orb_false_r. intros H.
    destruct post; cbn [contains]; apply orb_true_iff; left;
      exact (@prefix_append w "" _ H).
  - intros H. apply orb_true_iff in H. apply orb_true_iff.
    destruct H as [H|H]; [left|right; auto].
    exact (@prefix_append w (String a hay) post H).
Qed.

Lemma contains_append_l w pre hay :
  contains w hay = true -> contains w (pre ++ hay) = true.
Proof.
  intros H. induction pre as [|a pre IH]; cbn [contains append]; [exact H|].
  rewrite IH. apply orb_true_r.
Qed.

(** X12. The categories of a description are categories of the table,
    each at most once; they do not depend on the case of the description;
    and text added before or after a description removes none of them. *)
Theorem X12_extract_keywords :
  forall description : string,
    NoDup (extract_keywords description)
    /\ incl (extract_keywords description) (map fst patterns)
    /\ extract_keywords (lower description) = extract_keywords description
    /\ (forall pre post c,
          In c (extract_keywords description) ->
          In c (extract_keywords (pre ++ description ++ post))).
Proof.
  intros d. unfold extract_keywords. repeat split.
  - apply NoDup_map_filter. vm_compute.
    repeat (constructor; [simpl; intuition discriminate|]). constructor.
  - intros c Hc. apply in_map_iff in Hc. destruct Hc as [p [E Hp]].
    apply filter_In in Hp. apply in_map_iff. exists p. tauto.
  - now rewrite lower_idem.
  - intros pre post c Hc. apply in_map_iff in Hc. destruct Hc as [p [E Hp]].
    apply filter_In in Hp. destruct Hp as [Hp Hw].
    apply in_map_iff. exists p. split; [exact E|].
    apply filter_In. split; [exact Hp|].
    apply existsb_exists in Hw. destruct Hw as [w [Hw Hc]].
    apply existsb_exists. exists w. split; [exact Hw|].
    rewrite !lower_append. now apply contains_append_l, contains_append_r.
Qed.

End IdentifierExtras.

(* ================================================================== *)
(** * Further properties of the inference engine *)
(* ================================================================== *)

Module EngineExtras.

Import Py.
Import Inference.
Import Spec.
Import InferenceFacts.
Import InferenceClaims.
Import EngineFacts.
Import IdentifierExtras.

Local Open Scope list_scope.
Local Open Scope Z_scope.

(** ** Section order *)

Lemma In_section_order ss d :
  In d (infer_from_section_order ss)
  <-> exists l1 prev cur l2 first rest,
        ss = l1 ++ prev :: cur :: l2
        /\ tasks prev <> []
        /\ tasks cur = first :: rest
        /\ d = mkDep (id first) (id (last (tasks prev) first)) 25
                     (section_reason (number cur) (number prev)).
Proof.
  induction ss as [|prev ss IH]; [|destruct ss as [|cur ss]].
  + simpl. split; [intros []|].
    intros [l1 [? [? [? [? [? [E _]]]]]]]. now destruct l1.
  + simpl. split; [intros []|].
    intros [l1 [? [? [? [? [? [E _]]]]]]].
    destruct l1 as [|? [|? ?]]; discriminate.
  + assert (Step : forall e,
              (exists l1 p c l2 first rest,
                 prev :: cur :: ss = l1 ++ p :: c :: l2
                 /\ tasks p <> [] /\ tasks c = first :: rest
                 /\ e = mkDep (id first) (id (last (tasks p) first)) 25
                              (section_reason (number c) (number p)))
              <-> (exists first rest,
                     tasks prev <> [] /\ tasks cur = first :: rest
                     /\ e = mkDep (id first) (id (last (tasks prev) first)) 25
                                  (section_reason (number cur) (number prev)))
                  \/ (exists l1 p c l2 first rest,
                        cur :: ss = l1 ++ p :: c :: l2
                        /\ tasks p <> [] /\ tasks c = first :: rest
                        /\ e = mkDep (id first) (id (last (tasks p) first)) 25
                                     (section_reason (number c) (number p)))).
    { intros e. split.
      - intros [l1 [p [c [l2 [first [rest [E H]]]]]]].
        destruct l1 as [|x l1]; simpl in E; inversion E; subst.
        + left. exists first, rest. exact H.
        + right. exists l1, p, c, l2, first, rest. auto.
      - intros [[first [rest H]]|[l1 [p [c [l2 [first [rest [E H]]]]]]]].
        + exists [], prev, cur, ss, first, rest. auto.
        + exists (prev :: l1), p, c, l2, first, rest. simpl. rewrite E. auto. }
    rewrite Step, <- IH. clear Step IH.
    change (infer_from_section_order (prev :: cur :: ss))
      with (match tasks prev, tasks cur with
            | _ :: _, curr_first :: _ =>
                mkDep (id curr_first) (id (last (tasks prev) curr_first)) 25
                      (section_reason (number cur) (number prev))
                  :: infer_from_section_order (cur :: ss)
            | _, _ => infer_from_section_order (cur :: ss)
            end).
    destruct (tasks prev) as [|p0 ps] eqn:Tp.
    * split; [now right|].
      intros [[first [rest [N _]]]|H]; [now elim N|exact H].
    * destruct (tasks cur) as [|first rest] eqn:Tc.
      -- split; [now right|].
         intros [[f [r [_ [E _]]]]|H]; [discriminate|exact H].
      -- simpl In. split.
         ++ intros [E|H]; [|now right]. left. exists first, rest.
            split; [discriminate|]. split; [reflexivity|now subst].
         ++ intros [[f [r [_ [E ->]]]]|H]; [|now right].
            inversion E; subst. now left.
Qed.

Lemma length_section_order ss :
  (List.length (infer_from_section_order ss) <= List.length ss - 1)%nat.
Proof.
  induction ss as [|prev ss IH]; [simpl; lia|].
  destruct ss as [|cur ss]; [simpl; lia|].
  change (infer_from_section_order (prev :: cur :: ss))
    with (match tasks prev, tasks cur with
          | _ :: _, curr_first :: _ =>
              mkDep (id curr_first) (id (last (tasks prev) curr_first)) 25
                    (section_reason (number cur) (number prev))
                :: infer_from_section_order (cur :: ss)
          | _, _ => infer_from_section_order (cur :: ss)
          end).
  remember (infer_from_section_order (cur :: ss)) as es.
  cbn [List.length] in *.
  destruct (tasks prev); [lia|]. destruct (tasks cur); cbn [List.length]; lia.
Qed.

(** X16. The section-order strategy gives exactly one edge for each pair
    of neighbouring sections that both have tasks: from the first task of
    the later section to the last task of the earlier one, with confidence
    25 and the two section numbers in its reason. A section without tasks
    links neither to the section before it nor to the one after it, and no
    edge joins sections that are not neighbours. *)
Theorem X16_section_order_edges :
  forall (ss : list Section_) (d : InferredDependency),
    (In d (infer_from_section_order ss)
     <-> exists l1 prev cur l2 first rest,
           ss = l1 ++ prev :: cur :: l2
           /\ tasks prev <> []
           /\ tasks cur = first :: rest
           /\ d = mkDep (id first) (id (last (tasks prev) first)) 25
                        (section_reason (number cur) (number prev)))
    /\ (List.length (infer_from_section_order ss) <= List.length ss - 1)%nat.
Proof.
  intros ss d. split; [apply In_section_order|apply length_section_order].
Qed.

(** ** Merge *)

Lemma merge_one_fresh u x :
  ~ In (pair_of x) (map pair_of u) -> merge_one u x = u ++ [x].
Proof.
  induction u as [|y u IH]; simpl; [reflexivity|].
  intros H. destruct (same_pair y x) eqn:S.
  - elim H. left. now apply same_pair_iff.
  - rewrite IH; [reflexivity|]. intros Hin. apply H. now right.
Qed.

Lemma merge_distinct l : NoDup (map pair_of l) -> merge l = l.
Proof.
  induction l as [|x l IH] using rev_ind; [reflexivity|].
  rewrite map_app. simpl. intros ND.
  apply NoDup_remove in ND. rewrite app_nil_r in ND. destruct ND as [ND Hx].
  rewrite merge_snoc, (IH ND). now apply merge_one_fresh.
Qed.

(** X17. Merging is idempotent: the merge of a merged list is that list;
    more generally the merge leaves unchanged, order included, any list of
    candidates in which no ordered pair occurs twice. *)
Theorem X17_merge_idempotent :
  forall all_deps : deps,
    merge (merge all_deps) = merge all_deps
    /\ (NoDup (map pair_of all_deps) -> merge all_deps = all_deps).
Proof.
  intros all_deps. split; [|apply merge_distinct].
  apply merge_distinct. apply merge_invariant.
Qed.

(** ** Where candidate edges come from *)

Lemma subsection_edge_origin tasks deps d :
  infer_from_subsection_order tasks = Ok deps -> In d deps ->
  confidence d = 90
  /\ In (from_task d) (map id tasks) /\ In (to_task d) (map id tasks)
  /\ get_subsection_key (from_task d) = get_subsection_key (to_task d).
Proof.
  rewrite infer_from_subsection_order_gather. intros G Hd.
  apply (gather_In _ _ G) in Hd. destruct Hd as [g [e [Hg [He Hd]]]].
  apply subsection_group_in_pairs in Hg. destruct Hg as [Hids _].
  destruct (@subsection_edges_inv g e d He Hd) as [s [a [b [Hs [Hadj ->]]]]].
  rewrite Hids in Hs. apply adjacent_In in Hadj. destruct Hadj as [Ha Hb].
  apply (Permutation_in _ (Permutation_sym (sorted_perm _ Hs))) in Ha.
  apply (Permutation_in _ (Permutation_sym (sorted_perm _ Hs))) in Hb.
  apply In_subsection_group in Ha, Hb. simpl.
  destruct Ha as [Ha Ka], Hb as [Hb Kb]. repeat split; auto. congruence.
Qed.

Lemma keyword_candidates_are_ids set_order tasks req cands c :
  get (fst (index_tasks set_order tasks)) req = Some cands -> In c cands ->
  In c (map id tasks).
Proof.
  rewrite keyword_to_tasks_pairs, get_group_pairs.
  destruct (items_of (keyword_pairs set_order tasks) req) as [|x xs] eqn:E;
    [discriminate|].
  intros H. inversion H; subst cands. rewrite <- E. clear H E.
  unfold items_of, keyword_pairs. intros Hc.
  apply in_map_iff in Hc. destruct Hc as [[k i] [<- Hp]].
  apply filter_In in Hp. destruct Hp as [Hp _].
  apply in_flat_map in Hp. destruct Hp as [t [Ht Hp]].
  apply in_map_iff in Hp. destruct Hp as [kw [E _]]. inversion E; subst.
  simpl. now apply in_map.
Qed.

Lemma keyword_edge_ids set_order tasks deps d :
  infer_from_keywords set_order tasks = Ok deps -> In d deps ->
  confidence d = 50
  /\ In (from_task d) (map id tasks) /\ In (to_task d) (map id tasks).
Proof.
  rewrite infer_from_keywords_gather. intros G Hd.
  apply (gather_In _ _ G) in Hd. destruct Hd as [t [e1 [Ht [E1 Hd]]]].
  unfold task_edges in E1.
  apply (gather_In _ _ E1) in Hd. destruct Hd as [kw [e2 [Hkw [E2 Hd]]]].
  unfold keyword_edges in E2.
  apply (gather_In _ _ E2) in Hd. destruct Hd as [req [e3 [Hreq [E3 Hd]]]].
  unfold required_edges in E3.
  destruct (get (fst (index_tasks set_order tasks)) req) as [cands|] eqn:Gk;
    [|inversion E3; subst; destruct Hd].
  apply (gather_In _ _ E3) in Hd. destruct Hd as [c [e4 [Hc [E4 Hd]]]].
  destruct (@candidate_edges_inv (id t) kw req c e4 d E4 Hd) as [_ [_ ->]].
  simpl. repeat split; [now apply in_map|].
  eapply keyword_candidates_are_ids; eauto.
Qed.

Lemma In_last {A} (l : list A) d : l <> [] -> In (last l d) l.
Proof.
  induction l as [|x l IH]; intros N; [now elim N|].
  destruct l as [|y l]; [now left|].
  right. apply IH. discriminate.
Qed.

Lemma section_edge_ids parsed d :
  In d (infer_from_section_order parsed) ->
  confidence d = 25
  /\ In (from_task d) (map id (all_tasks_of parsed))
  /\ In (to_task d) (map id (all_tasks_of parsed)).
Proof.
  intros H. apply In_section_order in H.
  destruct H as [l1 [prev [cur [l2 [first [rest [-> [Hp [Hc ->]]]]]]]]].
  simpl. split; [reflexivity|]. unfold all_tasks_of. split.
  - apply in_map, in_flat_map. exists cur.
    split; [apply in_or_app; right; right; now left|].
    rewrite Hc. now left.
  - apply in_map, in_flat_map. exists prev.
    split; [apply in_or_app; right; now left|].
    now apply In_last.
Qed.

(** Every candidate has one of the four confidences and joins two
    identifiers of the input. *)
Lemma candidate_facts set_order parsed all_deps d :
  all_deps_of set_order parsed = Ok all_deps -> In d all_deps ->
  In (confidence d) confidences
  /\ In (from_task d) (map id (all_tasks_of parsed))
  /\ In (to_task d) (map id (all_tasks_of parsed)).
Proof.
  unfold all_deps_of.
  destruct (infer_from_subsection_order (all_tasks_of parsed)) as [d1|] eqn:E1;
    simpl; [|discriminate].
  destruct (infer_from_file_patterns (all_tasks_of parsed)) as [d2|] eqn:E2;
    simpl; [|discriminate].
  destruct (infer_from_keywords set_order (all_tasks_of parsed)) as [d3|] eqn:E3;
    simpl; [|discriminate].
  intros E Hd. inversion E; subst all_deps. clear E. unfold confidences.
  apply in_app_or in Hd. destruct Hd as [Hd|Hd].
  { destruct (@subsection_edge_origin _ _ _ E1 Hd) as [-> [Hf [Ht _]]].
    simpl. auto. }
  apply in_app_or in Hd. destruct Hd as [Hd|Hd].
  { destruct (@file_pattern_edge_origin _ _ _ E2 Hd)
      as [-> [stem [t1 [f1 [t2 [f2 [A1 [_ [_ [<- [A2 [_ [_ [<- _]]]]]]]]]]]]]].
    simpl. split; [auto|]. split; now apply in_map. }
  apply in_app_or in Hd. destruct Hd as [Hd|Hd].
  { destruct (@keyword_edge_ids _ _ _ _ E3 Hd) as [-> [Hf Ht]]. simpl. auto. }
  destruct (@section_edge_ids _ _ Hd) as [-> [Hf Ht]]. simpl. auto 6.
Qed.

Lemma output_in_candidates set_order parsed threshold r all_deps d :
  all_deps_of set_order parsed = Ok all_deps ->
  infer_dependencies set_order parsed threshold = Ok r ->
  In d (auto_apply r) \/ In d (pending_review r) ->
  In d all_deps.
Proof.
  intros Hall. unfold infer_dependencies. rewrite Hall. simpl.
  intros E. inversion E; subst r. rewrite categorize_spec. simpl.
  intros [H|H]; apply filter_In in H; destruct H as [H _];
    apply survives_In; now apply merge_invariant.
Qed.

Lemma infer_dependencies_candidates set_order parsed threshold r :
  infer_dependencies set_order parsed threshold = Ok r ->
  exists all_deps,
    all_deps_of set_order parsed = Ok all_deps
    /\ r = categorize (merge all_deps) threshold.
Proof.
  unfold infer_dependencies.
  destruct (all_deps_of set_order parsed) as [all_deps|]; simpl;
    [|discriminate].
  intros E. inversion E. eauto.
Qed.

(** X18. Every edge that the engine returns has confidence 90, 85, 50 or
    25. So a threshold of at most 25 leaves nothing for review, and a
    threshold above 90 applies nothing automatically. *)
Theorem X18_confidence_values :
  forall (set_order : list string -> list string) (parsed : list Section_)
         (threshold : Z) (r : Inferred),
    infer_dependencies set_order parsed threshold = Ok r ->
    (forall d, In d (auto_apply r) \/ In d (pending_review r) ->
               In (confidence d) confidences)
    /\ (threshold <= 25 -> pending_review r = [])
    /\ (90 < threshold -> auto_apply r = []).
Proof.
  intros set_order parsed threshold r Hr.
  destruct (@infer_dependencies_candidates _ _ _ _ Hr) as [all_deps [Hall Er]].
  assert (Hc : forall d, In d (auto_apply r) \/ In d (pending_review r) ->
                         In (confidence d) confidences).
  { intros d Hd.
    apply (@candidate_facts _ _ _ _ Hall
             (@output_in_candidates _ _ _ _ _ _ Hall Hr Hd)). }
  split; [exact Hc|]. split; intros Ht.
  - assert (Hn : forall d, ~ In d (pending_review r)).
    { intros d Hd. pose proof (Hc d (or_intror Hd)) as Hv.
      rewrite Er, categorize_spec in Hd. simpl in Hd.
      apply filter_In in Hd. destruct Hd as [_ Hd]. unfold above in Hd.
      apply negb_true_iff, Z.leb_gt in Hd.
      unfold confidences in Hv. simpl in Hv. lia. }
    destruct (pending_review r) as [|d ds]; [reflexivity|].
    elim (Hn d). now left.
  - assert (Hn : forall d, ~ In d (auto_apply r)).
    { intros d Hd. pose proof (Hc d (or_introl Hd)) as Hv.
      rewrite Er, categorize_spec in Hd. simpl in Hd.
      apply filter_In in Hd. destruct Hd as [_ Hd]. unfold above in Hd.
      apply Z.leb_le in Hd.
      unfold confidences in Hv. simpl in Hv. lia. }
    destruct (auto_apply r) as [|d ds]; [reflexivity|].
    elim (Hn d). now left.
Qed.

Lemma X18_confidence_values_witness :
  exists r, infer_dependencies in_table_order parsed_setup 10 = Ok r
            /\ pending_review r = [].
Proof.
  exists (mkInferred
            [mkDep "1.2" "1.1" 90 "subsection order: sequential within 1"] []).
  assert (E : infer_dependencies in_table_order parsed_setup 10
              = Ok (mkInferred
                      [mkDep "1.2" "1.1" 90
                             "subsection order: sequential within 1"] []))
    by (vm_compute; reflexivity).
  split; [exact E|].
  destruct (@X18_confidence_values in_table_order parsed_setup 10 _ E)
    as [_ [H _]].
  apply H. lia.
Defined.

(** X19. The engine invents no identifier: both ends of every edge it
    returns are identifiers of tasks of the input. *)
Theorem X19_edges_join_input_tasks :
  forall (set_order : list string -> list string) (parsed : list Section_)
         (threshold : Z) (r : Inferred) (d : InferredDependency),
    infer_dependencies set_order parsed threshold = Ok r ->
    In d (auto_apply r) \/ In d (pending_review r) ->
    In (from_task d) (map id (all_tasks_of parsed))
    /\ In (to_task d) (map id (all_tasks_of parsed)).
Proof.
  intros set_order parsed threshold r d Hr Hd.
  destruct (@infer_dependencies_candidates _ _ _ _ Hr) as [all_deps [Hall Er]].
  apply (@candidate_facts _ _ _ _ Hall
           (@output_in_candidates _ _ _ _ _ _ Hall Hr Hd)).
Qed.

Lemma X19_edges_join_input_tasks_witness :
  In "1.2" (map id (all_tasks_of parsed_setup))
  /\ In "1.1" (map id (all_tasks_of parsed_setup)).
Proof.
  apply (@X19_edges_join_input_tasks in_table_order parsed_setup 70
           (mkInferred
              [mkDep "1.2" "1.1" 90 "subsection order: sequential within 1"] [])
           (mkDep "1.2" "1.1" 90 "subsection order: sequential within 1")).
  - vm_compute. reflexivity.
  - left. left. reflexivity.
Defined.

(** ** File patterns *)

(** X13. Every edge of the file-pattern strategy has confidence 85, and
    both its ends are identifiers of tasks that list a file whose stem is
    the one named in the edge's reason. *)
Theorem X13_file_pattern_edges_share_a_stem :
  forall (tasks : list Task) (deps : deps) (d : InferredDependency),
    infer_from_file_patterns tasks = Ok deps ->
    In d deps ->
    confidence d = 85
    /\ exists stem t1 f1 t2 f2,
         In t1 tasks /\ In f1 (files t1) /\ extract_stem f1 = stem
         /\ id t1 = from_task d
         /\ In t2 tasks /\ In f2 (files t2) /\ extract_stem f2 = stem
         /\ id t2 = to_task d
         /\ reason d = stem_reason stem.
Proof. intros tasks deps d. apply file_pattern_edge_origin. Qed.

Lemma X13_file_pattern_edges_share_a_stem_witness :
  confidence (mkDep "1.1" "1.1" 85 "file pattern: shared stem 'user'") = 85.
Proof.
  apply (@X13_file_pattern_edges_share_a_stem tasks_same_stem
           [mkDep "1.1" "1.1" 85 "file pattern: shared stem 'user'"]
           (mkDep "1.1" "1.1" 85 "file pattern: shared stem 'user'")).
  - vm_compute. reflexivity.
  - left. reflexivity.
Defined.

Lemma firstn_prefix {A} (pre later : list A) :
  firstn (List.length pre) (pre ++ later) = pre.
Proof.
  induction pre as [|x pre IH]; simpl; [reflexivity|now rewrite IH].
Qed.

Lemma fan_in_complete stem s later : forall i pre,
  s = pre ++ later -> List.length pre = i ->
  forall l2 b l3 a,
    later = l2 ++ b :: l3 -> In a (pre ++ l2) ->
    In (mkDep b a 85 (stem_reason stem)) (fan_in stem s i later).
Proof.
  induction later as [|x later IH]; intros i pre Hs Hi l2 b l3 a Hl Ha.
  - now destruct l2.
  - simpl. apply in_or_app. destruct l2 as [|y l2]; simpl in Hl; inversion Hl; subst.
    + left. rewrite firstn_prefix, app_nil_r in *.
      apply in_map_iff. exists a. auto.
    + right.
      apply (IH (S (List.length pre)) (pre ++ [y])) with (l2 := l2) (l3 := l3).
      * now rewrite <- app_assoc.
      * rewrite length_app. simpl. lia.
      * reflexivity.
      * rewrite <- app_assoc. exact Ha.
Qed.

(** X14. Full fan-in: when the file-pattern strategy returns, every
    identifier of a stem's group has an edge to every identifier that
    stands before it in the sorted group, not only to its neighbour. The
    group of a stem holds the identifiers of the tasks that list a file of
    that stem, once per such file. *)
Theorem X14_file_pattern_fan_in :
  forall (tasks : list Task) (deps : deps) (stem : string)
         (s l1 l2 l3 : list string) (a b : string),
    infer_from_file_patterns tasks = Ok deps ->
    sorted (items_of (stem_pairs tasks) stem) = Ok s ->
    s = l1 ++ a :: l2 ++ b :: l3 ->
    In (mkDep b a 85 (stem_reason stem)) deps.
Proof.
  intros tasks deps stem s l1 l2 l3 a b Hdeps Hs Es.
  rewrite infer_from_file_patterns_gather in Hdeps.
  apply (gather_In _ _ Hdeps).
  exists (stem, items_of (stem_pairs tasks) stem),
         (fan_in stem s 1 (tl s)).
  assert (L : (2 <= List.length (items_of (stem_pairs tasks) stem))%nat).
  { rewrite (Permutation_length (sorted_perm _ Hs)), Es, length_app. simpl.
    rewrite length_app. simpl. lia. }
  split; [|split].
  - apply In_group_pairs. split; [reflexivity|].
    intros N. rewrite N in L. simpl in L. lia.
  - unfold stem_edges. simpl.
    destruct (Nat.ltb_spec 1 (List.length (items_of (stem_pairs tasks) stem)));
      [|lia].
    rewrite Hs. reflexivity.
  - destruct l1 as [|x l1]; subst s; simpl tl.
    + apply (@fan_in_complete stem _ (l2 ++ b :: l3) 1%nat [a])
        with (l2 := l2) (l3 := l3); try reflexivity. now left.
    + apply (@fan_in_complete stem _ (l1 ++ a :: l2 ++ b :: l3) 1%nat [x])
        with (l2 := l1 ++ a :: l2) (l3 := l3); try reflexivity.
      * now rewrite <- app_assoc.
      * simpl. right. apply in_or_app. right. now left.
Qed.

Lemma X14_file_pattern_fan_in_witness :
  In (mkDep "1.3" "1.1" 85 (stem_reason "user"))
     [mkDep "1.2" "1.1" 85 "file pattern: shared stem 'user'";
      mkDep "1.3" "1.1" 85 "file pattern: shared stem 'user'";
      mkDep "1.3" "1.2" 85 "file pattern: shared stem 'user'"].
Proof.
  apply (@X14_file_pattern_fan_in tasks_shared_stem _ "user"
           ["1.1"; "1.2"; "1.3"] [] ["1.2"] [] "1.1" "1.3").
  - vm_compute. reflexivity.
  - vm_compute. reflexivity.
  - reflexivity.
Defined.

(** ** Keywords *)

Section KeywordCompleteness.

Variable set_order : list string -> list string.
Hypothesis set_order_perm : forall l, Permutation (set_order l) l.

Lemma task_keywords_lookup tasks t :
  NoDup (map id tasks) -> In t tasks ->
  get (snd (index_tasks set_order tasks)) (id t)
  = Some (extract_keywords (description t)).
Proof.
  induction tasks as [|x tasks IH] using rev_ind; [intros _ []|].
  rewrite map_app. simpl. intros ND Ht.
  apply NoDup_remove in ND. rewrite app_nil_r in ND. destruct ND as [ND Hx].
  rewrite index_tasks_snoc. unfold index_task at 1.
  destruct (index_tasks set_order tasks) as [k2t tk]. simpl snd in *.
  rewrite get_set. apply in_app_or in Ht.
  destruct (String.eqb_spec (id x) (id t)) as [E|N].
  - destruct Ht as [Ht|[->|[]]]; [|reflexivity].
    elim Hx. rewrite E. now apply in_map.
  - destruct Ht as [Ht|[->|[]]]; [now apply IH|now elim N].
Qed.

(** X15. When task identifiers are pairwise distinct and the keyword
    strategy returns, it holds every edge its rules call for: from a task
    carrying a category to each task that carries a category required by
    it and has a strictly earlier sort key, with confidence 50 and the two
    categories in the reason. *)
Theorem X15_keyword_edges_complete :
  forall (tasks : list Task) (deps : deps) (t u : Task) (kw req_kw : string),
    NoDup (map id tasks) ->
    infer_from_keywords set_order tasks = Ok deps ->
    In t tasks -> In u tasks ->
    In kw (extract_keywords (description t)) ->
    In req_kw (required_of kw) ->
    In req_kw (extract_keywords (description u)) ->
    key_lt (id u) (id t) = Ok true ->
    In (mkDep (id t) (id u) 50 (keyword_reason kw req_kw)) deps.
Proof.
  intros tasks deps t u kw req ND Hdeps Ht Hu Hkw Hreq Hru Hlt.
  rewrite infer_from_keywords_gather in Hdeps.
  destruct (gather_Ok_each _ _ Hdeps t Ht) as [e1 E1].
  apply (gather_In _ _ Hdeps). exists t, e1.
  split; [exact Ht|]. split; [exact E1|].
  unfold task_edges in E1.
  assert (Hkw' : In kw (set_order (values (snd (index_tasks set_order tasks))
                                          (id t)))).
  { apply (@In_set_order set_order set_order_perm). unfold values.
    now rewrite (@task_keywords_lookup tasks t ND Ht). }
  destruct (gather_Ok_each _ _ E1 kw Hkw') as [e2 E2].
  apply (gather_In _ _ E1). exists kw, e2.
  split; [exact Hkw'|]. split; [exact E2|].
  unfold keyword_edges in E2.
  destruct (gather_Ok_each _ _ E2 req Hreq) as [e3 E3].
  apply (gather_In _ _ E2). exists req, e3.
  split; [exact Hreq|]. split; [exact E3|].
  unfold required_edges in E3.
  assert (Hin : In (id u) (items_of (keyword_pairs set_order tasks) req)).
  { unfold items_of. apply in_map_iff. exists (req, id u).
    split; [reflexivity|]. apply filter_In. split.
    - unfold keyword_pairs. apply in_flat_map. exists u.
      split; [exact Hu|]. apply in_map_iff. exists req.
      split; [reflexivity|].
      now apply (@In_set_order set_order set_order_perm).
    - apply String.eqb_refl. }
  assert (Gk : get (fst (index_tasks set_order tasks)) req
               = Some (items_of (keyword_pairs set_order tasks) req)).
  { rewrite keyword_to_tasks_pairs, get_group_pairs.
    destruct (items_of (keyword_pairs set_order tasks) req);
      [destruct Hin|reflexivity]. }
  rewrite Gk in E3.
  destruct (gather_Ok_each _ _ E3 (id u) Hin) as [e4 E4].
  apply (gather_In _ _ E3). exists (id u), e4.
  split; [exact Hin|]. split; [exact E4|].
  unfold candidate_edges in E4.
  assert (Hne : String.eqb (id u) (id t) = false).
  { destruct (String.eqb_spec (id u) (id t)) as [E|]; [|reflexivity].
    rewrite E in Hlt. unfold key_lt in Hlt.
    rewrite tuple_lt_irrefl in Hlt. discriminate. }
  rewrite Hne, Hlt in E4. simpl in E4. inversion E4. now left.
Qed.

End KeywordCompleteness.

Lemma X15_keyword_edges_complete_witness :
  In (mkDep "1.2" "1.1" 50 (keyword_reason "mutation" "schema"))
     [mkDep "1.2" "1.1" 50 "keyword: 'mutation' typically depends on 'schema'"].
Proof.
  apply (@X15_keyword_edges_complete in_table_order
           (fun l => Permutation_refl (in_table_order l))
           (all_tasks_of parsed_setup) _
           (task "1.2" "Add mutation" ["mutation.ts"])
           (task "1.1" "Add schema" ["schema.ts"]) "mutation" "schema").
  - simpl. repeat constructor; simpl; intuition discriminate.
  - vm_compute. reflexivity.
  - simpl. right. left. reflexivity.
  - simpl. left. reflexivity.
  - vm_compute. left. reflexivity.
  - vm_compute. left. reflexivity.
  - vm_compute. left. reflexivity.
  - vm_compute. reflexivity.
Defined.

(** ** What the engine does not read *)

Lemma for_each_map {A B S} (g : A -> B) (body : S -> B -> result S) l :
  forall s, for_each body (map g l) s = for_each (fun s a => body s (g a)) l s.
Proof.
  induction l as [|a l IH]; intros s; simpl; [reflexivity|].
  destruct (body s (g a)); simpl; [apply IH|reflexivity].
Qed.

Lemma fold_left_core {S} (f : S -> Task -> S) :
  (forall s t, f s (core_task t) = f s t) ->
  forall l s, fold_left f (map core_task l) s = fold_left f l s.
Proof.
  intros H. induction l as [|t l IH]; intros s; simpl; [reflexivity|].
  now rewrite H, IH.
Qed.

Lemma for_each_core {S} (body : S -> Task -> result S) :
  (forall s t, body s (core_task t) = body s t) ->
  forall l s, for_each body (map core_task l) s = for_each body l s.
Proof.
  intros H. induction l as [|t l IH]; intros s; simpl; [reflexivity|].
  rewrite H. destruct (body s t); simpl; [apply IH|reflexivity].
Qed.

Lemma all_tasks_core parsed :
  all_tasks_of (map core_section parsed) = map core_task (all_tasks_of parsed).
Proof.
  unfold all_tasks_of. induction parsed as [|s parsed IH]; simpl; [reflexivity|].
  now rewrite IH, map_app.
Qed.

Lemma subsection_order_core tasks :
  infer_from_subsection_order (map core_task tasks)
  = infer_from_subsection_order tasks.
Proof.
  unfold infer_from_subsection_order, group_by_subsection.
  now rewrite fold_left_core.
Qed.

Lemma file_patterns_core tasks :
  infer_from_file_patterns (map core_task tasks)
  = infer_from_file_patterns tasks.
Proof.
  unfold infer_from_file_patterns, group_by_stem.
  now rewrite fold_left_core.
Qed.

Lemma keywords_core set_order tasks :
  infer_from_keywords set_order (map core_task tasks)
  = infer_from_keywords set_order tasks.
Proof.
  unfold infer_from_keywords, index_tasks.
  rewrite fold_left_core by reflexivity.
  destruct (fold_left (index_task set_order) tasks ([], [])) as [k2t tk].
  now rewrite for_each_core.
Qed.

Lemma last_map_core l d :
  id (last (map core_task l) (core_task d)) = id (last l d).
Proof.
  induction l as [|x l IH]; [reflexivity|].
  destruct l as [|y l]; [reflexivity|]. exact IH.
Qed.

Lemma section_order_core parsed :
  infer_from_section_order (map core_section parsed)
  = infer_from_section_order parsed.
Proof.
  induction parsed as [|prev parsed IH]; [reflexivity|].
  destruct parsed as [|cur parsed]; [reflexivity|].
  change (infer_from_section_order (prev :: cur :: parsed))
    with (match tasks prev, tasks cur with
          | _ :: _, curr_first :: _ =>
              mkDep (id curr_first) (id (last (tasks prev) curr_first)) 25
                    (section_reason (number cur) (number prev))
                :: infer_from_section_order (cur :: parsed)
          | _, _ => infer_from_section_order (cur :: parsed)
          end).
  rewrite <- IH.
  change (infer_from_section_order
            (map core_section (prev :: cur :: parsed)))
    with (match map core_task (tasks prev), map core_task (tasks cur) with
          | _ :: _, curr_first :: _ =>
              mkDep (id curr_first)
                    (id (last (map core_task (tasks prev)) curr_first)) 25
                    (section_reason (number cur) (number prev))
                :: infer_from_section_order (map core_section (cur :: parsed))
          | _, _ => infer_from_section_order (map core_section (cur :: parsed))
          end).
  destruct (tasks prev) as [|p ps]; [reflexivity|].
  destruct (tasks cur) as [|c cs]; [reflexivity|].
  cbn [map]. f_equal. f_equal.
  exact (last_map_core (p :: ps) c).
Qed.

(** X20. The engine reads the identifier, the description and the files
    of a task and the number of a section, and nothing else: erasing the
    declared dependencies, the agent, the complexity and the completion
    mark of every task, and the name of every section, changes neither
    whether it raises nor any edge it returns. Declared dependencies never
    enter the inferred graph. *)
Theorem X20_engine_ignores_other_fields :
  forall (set_order : list string -> list string) (parsed : list Section_)
         (threshold : Z),
    infer_dependencies set_order (map core_section parsed) threshold
    = infer_dependencies set_order parsed threshold.
Proof.
  intros set_order parsed threshold.
  unfold infer_dependencies, all_deps_of.
  now rewrite all_tasks_core, subsection_order_core, file_patterns_core,
    keywords_core, section_order_core.
Qed.

(** ** When the strategies raise *)


Lemma key_lt_raises_sym a b :
  key_lt a b = Raise TypeError -> key_lt b a = Raise TypeError.
Proof.
  rewrite !key_lt_raises. intros H. apply orb_true_iff in H.
  apply orb_true_iff. tauto.
Qed.

Lemma key_lt_cases a b :
  key_lt a b = Ok true \/ key_lt a b = Ok false \/ key_lt a b = Raise TypeError.
Proof. destruct (key_lt a b) as [[|]|[]]; auto. Qed.

(** An identifier that cannot be compared with [y] is not strictly before
    an identifier that [y] is not before. *)
Lemma tuple_lt_raise_transfer px : forall py pz sx sy sz,
  tuple_lt (map KInt px ++ [KStr sx]) (map KInt py ++ [KStr sy])
  = Raise TypeError ->
  tuple_lt (map KInt px ++ [KStr sx]) (map KInt pz ++ [KStr sz]) = Ok true ->
  tuple_lt (map KInt py ++ [KStr sy]) (map KInt pz ++ [KStr sz]) = Ok false ->
  False.
Proof.
  induction px as [|x px IH]; intros [|y py] [|z pz] sx sy sz; simpl.
  all: intros H1 H2 H3; try discriminate.
  - destruct (String.eqb sx sy); discriminate.
  - destruct (Z.eqb_spec x y) as [<-|N]; [|discriminate].
    destruct (x =? z)%Z; [exact (IH _ _ _ _ _ H1 H2 H3)|].
    rewrite H2 in H3. discriminate.
Qed.

Lemma key_lt_raise_transfer x y z :
  key_lt x y = Raise TypeError -> key_lt x z = Ok true ->
  key_lt y z = Ok false -> False.
Proof.
  unfold key_lt, task_id_sort_key.
  destruct (parse_task_id x) as [px sx], (parse_task_id y) as [py sy],
    (parse_task_id z) as [pz sz].
  apply tuple_lt_raise_transfer.
Qed.

(** [x < y] and [y <= w] leave [x <= w], comparison included. *)
Lemma key_lt_le_trans x y w :
  key_lt x y = Ok true -> key_lt w y = Ok false -> key_lt w x = Ok false.
Proof.
  intros Hxy Hwy. destruct (key_lt_cases w x) as [H|[H|H]].
  - unfold key_lt in *. rewrite (tuple_lt_trans _ _ _ H Hxy) in Hwy.
    discriminate.
  - exact H.
  - elim (@key_lt_raise_transfer x w y (key_lt_raises_sym _ _ H) Hxy Hwy).
Qed.

Lemma insert_sorted_strongly x l : forall r,
  StronglySorted in_order l -> insert_sorted x l = Ok r ->
  StronglySorted in_order r.
Proof.
  induction l as [|y l IH]; intros r SS; simpl.
  - intros E. inversion E. repeat constructor.
  - inversion SS as [|? ? SS' Hy]; subst.
    destruct (key_lt x y) as [[|]|err] eqn:L; simpl; try discriminate.
    + intros E. inversion E; subst. constructor; [exact SS|].
      constructor; [now apply key_lt_asym|].
      rewrite Forall_forall in *. intros w Hw.
      exact (@key_lt_le_trans x y w L (Hy w Hw)).
    + destruct (insert_sorted x l) as [r'|err] eqn:I; simpl; [|discriminate].
      intros E. inversion E; subst. constructor; [now apply IH|].
      apply (Permutation_Forall (insert_sorted_perm _ _ I)).
      constructor; [exact L|exact Hy].
Qed.











Section KeywordRaises.

Variable set_order : list string -> list string.
Hypothesis set_order_perm : forall l, Permutation (set_order l) l.



End KeywordRaises.


End EngineExtras.

(* ================================================================== *)
(** * The subsection strategy against the specification's reading *)
(* ================================================================== *)

Module SubsectionClaims.

Import Py.
Import Inference.
Import Spec.
Import InferenceFacts.
Import InferenceClaims.
Import IdentifierFacts.
Import ParserExtras.
Import IdentifierExtras.
Import EngineExtras.

Local Open Scope list_scope.
Local Open Scope Z_scope.

(** ** What the identifier model makes of a read identifier *)

Lemma reads_parse w k : reads w k -> parse_task_id w = k.
Proof.
  intros [d1 d2 l [H1 _] [H2 _] Hl|d1 d2 d3 l [H1 _] [H2 _] [H3 _] Hl].
  - now apply parse_task_id_two.
  - now apply parse_task_id_three.
Qed.

Lemma reads_length w k : reads w k -> (2 <= List.length (fst k))%nat.
Proof. intros [? ? ? _ _ _|? ? ? ? _ _ _ _]; simpl; lia. Qed.

Lemma reads_valid w k : reads w k -> valid_id w.
Proof.
  intros H. unfold valid_id. rewrite (reads_parse H).
  exact (reads_length H).
Qed.

Lemma reads_subsection_key w k :
  reads w k -> get_subsection_key w = subsection_name (parent k).
Proof.
  intros H. unfold get_subsection_key. rewrite (reads_parse H).
  destruct H; reflexivity.
Qed.

Lemma reads_parent_nonempty w k : reads w k -> parent k <> [].
Proof. intros [? ? ? _ _ _|? ? ? ? _ _ _ _]; discriminate. Qed.

Lemma reads_parent_length w k :
  reads w k -> List.length (fst k) = S (List.length (parent k)).
Proof. intros [? ? ? _ _ _|? ? ? ? _ _ _ _]; reflexivity. Qed.

Lemma numbers_eqb_eq p : forall q, numbers_eqb p q = true <-> p = q.
Proof.
  induction p as [|x p IH]; intros [|y q]; simpl; split; try discriminate;
    try reflexivity.
  - intros H. apply andb_true_iff in H. destruct H as [E H].
    apply Z.eqb_eq in E. apply IH in H. now subst.
  - intros E. inversion E; subst. apply andb_true_iff.
    split; [apply Z.eqb_refl|now apply IH].
Qed.

(** ** Names of subsections *)

Lemma str_nonempty z : str z <> "".
Proof.
  unfold str. destruct (Z.to_int z) as [d|d]; simpl; [|discriminate].
  destruct d; discriminate.
Qed.

Lemma subsection_name_inj p q :
  p <> [] -> subsection_name p = subsection_name q -> p = q.
Proof.
  unfold subsection_name. intros Hp E. destruct q as [|y q].
  - exfalso. pose proof (@split_join p Hp) as S. rewrite E in S.
    simpl in S. destruct p as [|x [|x' p]]; [now elim Hp| |discriminate].
    simpl in S. inversion S as [S']. symmetry in S'.
    exact (@str_nonempty x S').
  - apply map_str_inj.
    rewrite <- (@split_join p Hp), <- (@split_join (y :: q)) by discriminate.
    now rewrite E.
Qed.

Lemma append_inv_head a : forall b c, (a ++ b = a ++ c)%string -> b = c.
Proof.
  induction a as [|x a IH]; intros b c E; [exact E|].
  simpl in E. inversion E. now apply IH.
Qed.

Lemma subsection_reason_inj k k' :
  subsection_reason k = subsection_reason k' -> k = k'.
Proof. unfold subsection_reason. apply append_inv_head. Qed.

(** ** The order of sort keys on read identifiers *)

Lemma tuple_lt_earlier pa : forall pb la lb,
  List.length pa = List.length pb ->
  tuple_lt (map KInt pa ++ [KStr la]) (map KInt pb ++ [KStr lb])
  = Ok (earlier (pa, la) (pb, lb)).
Proof.
  unfold earlier. cbn [fst snd].
  induction pa as [|x pa IH]; intros [|y pb] la lb L; simpl in L;
    try discriminate.
  - simpl. destruct (String.eqb_spec la lb) as [->|_]; [|reflexivity].
    now rewrite str_ltb_irrefl.
  - cbn [map app tuple_lt elem_eqb elem_lt numbers_compare].
    destruct (Z.compare_spec x y) as [->|Lt|Gt].
    + rewrite Z.eqb_refl. apply IH. lia.
    + rewrite (proj2 (Z.eqb_neq x y)) by lia.
      now rewrite (proj2 (Z.ltb_lt x y) Lt).
    + rewrite (proj2 (Z.eqb_neq x y)) by lia.
      now rewrite (proj2 (Z.ltb_ge x y)) by lia.
Qed.

Lemma key_lt_earlier a b ka kb :
  reads a ka -> reads b kb -> parent ka = parent kb ->
  key_lt a b = Ok (earlier ka kb).
Proof.
  intros Ha Hb E. unfold key_lt, task_id_sort_key.
  rewrite (reads_parse Ha), (reads_parse Hb).
  destruct ka as [pa la], kb as [pb lb]. apply tuple_lt_earlier.
  pose proof (reads_parent_length Ha) as La.
  pose proof (reads_parent_length Hb) as Lb.
  cbn [fst] in La, Lb. rewrite La, Lb, E. reflexivity.
Qed.

(** ** The sort is stable *)

Lemma filter_none {A} (c : A -> bool) l :
  (forall z, In z l -> c z = false) -> filter c l = [].
Proof.
  induction l as [|y l IH]; intros H; simpl; [reflexivity|].
  rewrite (H y (or_introl eq_refl)). apply IH. intros z Hz. apply H. now right.
Qed.

Lemma insert_sorted_stable (c : string -> bool) x l : forall r,
  StronglySorted in_order l -> insert_sorted x l = Ok r ->
  (forall z, In z l -> c x = true -> c z = true ->
             task_id_sort_key z = task_id_sort_key x) ->
  filter c r = filter c l ++ filter c [x].
Proof.
  induction l as [|y l IH]; intros r SS E Hc; simpl in E.
  - inversion E. reflexivity.
  - inversion SS as [|? ? SS' Hy]; subst.
    destruct (key_lt x y) as [[|]|err] eqn:L; simpl in E; try discriminate.
    + inversion E; subst. clear E.
      destruct (c x) eqn:Cx.
      * change (filter c (x :: y :: l))
          with (if c x then x :: filter c (y :: l) else filter c (y :: l)).
        rewrite (@filter_none _ c (y :: l)).
        { simpl. now rewrite Cx. }
        intros z Hz. destruct (c z) eqn:Cz; [exfalso|reflexivity].
        pose proof (Hc z Hz eq_refl Cz) as K.
        assert (Lz : key_lt z y = Ok true).
        { unfold key_lt in *. now rewrite K. }
        destruct Hz as [<-|Hz].
        -- unfold key_lt in Lz. rewrite tuple_lt_irrefl in Lz. discriminate.
        -- rewrite Forall_forall in Hy. specialize (Hy z Hz).
           unfold in_order in Hy. congruence.
      * cbn [filter]. rewrite Cx. now rewrite app_nil_r.
    + destruct (insert_sorted x l) as [r'|err] eqn:I; simpl in E;
        [|discriminate].
      inversion E; subst. clear E.
      assert (F : filter c r' = filter c l ++ filter c [x]).
      { apply (IH r' SS' eq_refl). intros z Hz. apply Hc. now right. }
      cbn [filter] in F |- *. rewrite F. destruct (c y); reflexivity.
Qed.

Lemma sorted_from_strongly l : forall acc r,
  StronglySorted in_order acc -> sorted_from acc l = Ok r ->
  StronglySorted in_order r.
Proof.
  induction l as [|x l IH]; intros acc r SS; simpl.
  - intros E. inversion E. now subst.
  - destruct (insert_sorted x acc) as [acc'|err] eqn:I; simpl; [|discriminate].
    apply IH. exact (@insert_sorted_strongly x acc acc' SS I).
Qed.

Lemma sorted_from_stable (c : string -> bool) l : forall acc r,
  StronglySorted in_order acc ->
  (forall u v, In u (acc ++ l) -> In v (acc ++ l) ->
               c u = true -> c v = true ->
               task_id_sort_key u = task_id_sort_key v) ->
  sorted_from acc l = Ok r ->
  filter c r = filter c acc ++ filter c l.
Proof.
  induction l as [|x l IH]; intros acc r SS Hc; simpl sorted_from.
  - intros E. inversion E. simpl. now rewrite app_nil_r.
  - destruct (insert_sorted x acc) as [acc'|err] eqn:I; simpl; [|discriminate].
    intros E.
    assert (P : forall u, In u (acc' ++ l) -> In u (acc ++ x :: l)).
    { intros u Hu. apply in_app_or in Hu. apply in_or_app.
      destruct Hu as [Hu|Hu]; [|right; now right].
      apply (Permutation_in _ (Permutation_sym (insert_sorted_perm _ _ I)))
        in Hu.
      destruct Hu as [<-|Hu]; [right; now left|now left]. }
    rewrite (IH acc' r (@insert_sorted_strongly x acc acc' SS I)); [|auto|exact E].
    rewrite (@insert_sorted_stable c x acc acc' SS I).
    + rewrite <- app_assoc. cbn [filter]. destruct (c x); reflexivity.
    + intros z Hz Cx Cz. apply Hc; auto.
      * apply in_or_app. now left.
      * apply in_or_app. right. now left.
Qed.

Lemma StronglySorted_weaken {A} (R R' : A -> A -> Prop) l :
  (forall a b, In a l -> In b l -> R a b -> R' a b) ->
  StronglySorted R l -> StronglySorted R' l.
Proof.
  induction l as [|x l IH]; intros H SS; [constructor|].
  inversion SS as [|? ? SS' Hx]; subst. constructor.
  - apply IH; [|exact SS']. intros a b Ha Hb. apply H; now right.
  - rewrite Forall_forall in *. intros b Hb.
    apply H; [now left|now right|now apply Hx].
Qed.

(** ** Where the edges of the strategy come from *)

Lemma subsection_edge_sorted tasks deps d :
  infer_from_subsection_order tasks = Ok deps -> In d deps ->
  exists k s a b,
    sorted (subsection_group tasks k) = Ok s /\ adjacent a b s
    /\ d = mkDep b a 90 (subsection_reason k).
Proof.
  rewrite infer_from_subsection_order_gather. intros G Hd.
  apply (gather_In _ _ G) in Hd. destruct Hd as [g [e [Hg [He Hd]]]].
  apply subsection_group_in_pairs in Hg. destruct Hg as [Hids _].
  destruct (@subsection_edges_inv g e d He Hd) as [s [a [b [Hs [Hadj ->]]]]].
  rewrite Hids in Hs. exists (fst g), s, a, b. auto.
Qed.

Lemma subsection_edge_intro tasks deps k s a b :
  infer_from_subsection_order tasks = Ok deps ->
  sorted (subsection_group tasks k) = Ok s -> adjacent a b s ->
  In (mkDep b a 90 (subsection_reason k)) deps.
Proof.
  rewrite infer_from_subsection_order_gather. intros G Hs Hadj.
  apply (gather_In _ _ G).
  exists (k, subsection_group tasks k), (sequential k s).
  split; [|split].
  - apply In_group_pairs. rewrite items_of_subsection.
    split; [reflexivity|]. intros N. rewrite N in Hs.
    apply sorted_perm, Permutation_nil in Hs. subst s.
    apply adjacent_In in Hadj. destruct Hadj as [[] _].
  - exact (@subsection_edges_intro (k, subsection_group tasks k) s a b
             Hs Hadj).
  - apply In_sequential. eauto.
Qed.

(** ** Groups *)

Section Reading.

Variable tasks : list Task.
Variable key : string -> list Z * string.
Hypothesis key_reads : forall t, In t tasks -> reads (id t) (key (id t)).

Lemma id_reads i : In i (map id tasks) -> reads i (key i).
Proof.
  intros H. apply in_map_iff in H. destruct H as [t [<- Ht]]. auto.
Qed.

(** The group that the code files under the name of [p] holds the tasks
    of subsection [p]. *)
Lemma subsection_group_members p :
  subsection_group tasks (subsection_name p) = subsection_members key tasks p.
Proof.
  unfold subsection_group, subsection_members. apply filter_ext_in.
  intros i Hi. pose proof (id_reads i Hi) as R.
  rewrite (reads_subsection_key R).
  destruct (numbers_eqb (parent (key i)) p) eqn:E.
  - apply numbers_eqb_eq in E. rewrite E. apply String.eqb_refl.
  - apply String.eqb_neq. intros N.
    apply (@subsection_name_inj _ p (reads_parent_nonempty R)) in N.
    apply numbers_eqb_eq in N. congruence.
Qed.

Lemma In_members i p :
  In i (subsection_members key tasks p)
  <-> In i (map id tasks) /\ parent (key i) = p.
Proof.
  unfold subsection_members. rewrite filter_In, numbers_eqb_eq. reflexivity.
Qed.

Lemma members_comparable p : comparable (subsection_members key tasks p).
Proof.
  intros a b Ha Hb. apply In_members in Ha, Hb.
  destruct Ha as [Ha Pa], Hb as [Hb Pb].
  rewrite (key_lt_earlier (id_reads a Ha) (id_reads b Hb)) by congruence.
  eauto.
Qed.

Lemma members_arranged p s :
  sorted (subsection_members key tasks p) = Ok s ->
  arranged key (subsection_members key tasks p) s.
Proof.
  intros Hs. pose proof (sorted_perm _ Hs) as P.
  assert (Hin : forall i, In i s -> In i (map id tasks) /\ parent (key i) = p).
  { intros i Hi. apply In_members.
    exact (Permutation_in _ (Permutation_sym P) Hi). }
  split; [exact P|]. split.
  - apply StronglySorted_weaken with (R := in_order).
    + intros a b Ha Hb O. unfold in_order in O.
      destruct (Hin a Ha) as [Ia Pa], (Hin b Hb) as [Ib Pb].
      rewrite (key_lt_earlier (id_reads b Ib) (id_reads a Ia)) in O by congruence.
      now inversion O.
    + exact (@sorted_from_strongly _ [] s (SSorted_nil _) Hs).
  - intros k.
    apply (@sorted_from_stable (has_key key k) _ [] s (SSorted_nil _));
      [|exact Hs].
    intros u v Hu Hv Cu Cv. simpl in Hu, Hv.
    apply In_members in Hu, Hv.
    pose proof (reads_parse (id_reads u (proj1 Hu))) as Pu.
    pose proof (reads_parse (id_reads v (proj1 Hv))) as Pv.
    unfold has_key in Cu, Cv.
    apply andb_true_iff in Cu, Cv. destruct Cu as [Nu Su], Cv as [Nv Sv].
    apply numbers_eqb_eq in Nu, Nv. apply String.eqb_eq in Su, Sv.
    unfold task_id_sort_key. rewrite Pu, Pv.
    destruct (key u) as [pu lu], (key v) as [pv lv]. simpl in *.
    congruence.
Qed.

End Reading.

(** C2. On tasks whose identifiers are written as the grammar of task
    lines has them, with digit runs that [int()] converts, the
    subsection-order strategy returns. Every edge it gives has confidence
    90, joins two identifiers of the task list that have the same numeric
    parts except the last, and names their subsection in its reason. For
    each subsection the strategy gives the edge from [b] to [a] exactly
    when [a] stands immediately before [b] in the sorted order of the
    subsection's identifiers: the identifiers of the subsection's tasks,
    ordered by their numbers and then their letter, those that read the
    same kept in task order. A subsection with fewer than two tasks has no
    edge. The reading of the identifiers, the subsections and the order
    are those of the specification, not computed by the code. *)
Theorem C2_subsection_order :
  forall (tasks : list Task) (key : string -> list Z * string),
    (forall t, In t tasks -> reads (id t) (key (id t))) ->
    exists deps,
      infer_from_subsection_order tasks = Ok deps
      /\ (forall d, In d deps ->
            confidence d = 90
            /\ In (from_task d) (map id tasks)
            /\ In (to_task d) (map id tasks)
            /\ parent (key (from_task d)) = parent (key (to_task d))
            /\ reason d
               = subsection_reason
                   (subsection_name (parent (key (to_task d)))))
      /\ (forall p, exists s,
            arranged key (subsection_members key tasks p) s
            /\ forall a b,
                 In (mkDep b a 90 (subsection_reason (subsection_name p)))
                    deps
                 <-> adjacent a b s)
      /\ (forall p,
            (List.length (subsection_members key tasks p) < 2)%nat ->
            forall d, In d deps ->
                      parent (key (from_task d)) <> p
                      /\ parent (key (to_task d)) <> p).
Proof.
  intros tasks key H.
  destruct (@subsection_order_total_valid tasks) as [deps Hdeps].
  { intros t Ht. exact (reads_valid (H t Ht)). }
  exists deps. split; [exact Hdeps|].
  assert (Hgroups : forall p, exists s,
            arranged key (subsection_members key tasks p) s
            /\ forall a b,
                 In (mkDep b a 90 (subsection_reason (subsection_name p)))
                    deps
                 <-> adjacent a b s).
  { intros p.
    destruct (@sorted_total (subsection_members key tasks p)
                (@members_comparable tasks key H p)) as [s Hs].
    exists s. split; [exact (@members_arranged tasks key H p s Hs)|].
    intros a b. split.
    - intros Hd.
      destruct (@subsection_edge_sorted tasks deps _ Hdeps Hd)
        as [k [s' [a' [b' [Hs' [Hadj E]]]]]].
      assert (Eb : b = b') by congruence.
      assert (Ea : a = a') by congruence.
      assert (Er : subsection_reason (subsection_name p) = subsection_reason k)
        by congruence.
      subst a' b'. apply subsection_reason_inj in Er. subst k.
      rewrite (@subsection_group_members tasks key H p), Hs in Hs'.
      inversion Hs'. subst s'. exact Hadj.
    - intros Hadj.
      apply (@subsection_edge_intro tasks deps (subsection_name p) s a b Hdeps);
        [|exact Hadj].
      now rewrite (@subsection_group_members tasks key H p). }
  assert (Hedge : forall d, In d deps ->
            confidence d = 90
            /\ In (from_task d) (map id tasks)
            /\ In (to_task d) (map id tasks)
            /\ parent (key (from_task d)) = parent (key (to_task d))
            /\ reason d
               = subsection_reason
                   (subsection_name (parent (key (to_task d))))).
  { intros d Hd.
    destruct (@subsection_edge_sorted tasks deps d Hdeps Hd)
      as [k [s [a [b [Hs [Hadj ->]]]]]].
    cbn [confidence from_task to_task reason].
    apply adjacent_In in Hadj. destruct Hadj as [Ha Hb].
    apply (Permutation_in _ (Permutation_sym (sorted_perm _ Hs))) in Ha, Hb.
    apply In_subsection_group in Ha, Hb.
    destruct Ha as [Ha Ka], Hb as [Hb Kb].
    pose proof (@id_reads tasks key H a Ha) as Ra.
    pose proof (@id_reads tasks key H b Hb) as Rb.
    rewrite (reads_subsection_key Ra) in Ka.
    rewrite (reads_subsection_key Rb) in Kb.
    split; [reflexivity|]. split; [exact Hb|]. split; [exact Ha|].
    split; [|now rewrite Ka].
    apply (@subsection_name_inj _ _ (reads_parent_nonempty Rb)).
    congruence. }
  split; [exact Hedge|]. split; [exact Hgroups|].
  intros p L d Hd.
  destruct (Hedge d Hd) as [C [_ [_ [Ep Er]]]].
  assert (N : parent (key (to_task d)) <> p).
  { intros E. destruct (Hgroups p) as [s [[P _] Hiff]].
    destruct d as [f t c r]. cbn [confidence from_task to_task reason] in *.
    subst c r. rewrite E in Hd. apply Hiff in Hd.
    apply adjacent_length in Hd.
    rewrite <- (Permutation_length P) in Hd. lia. }
  split; [congruence|exact N].
Qed.

(** C2 on scenario 1: tasks 1.1 and 1.2, read as (1, 1) and (1, 2), are
    the members of subsection 1, and the strategy gives the edge from 1.2
    to 1.1. *)
Lemma C2_subsection_order_witness :
  exists deps,
    infer_from_subsection_order (all_tasks_of parsed_setup) = Ok deps
    /\ In (mkDep "1.2" "1.1" 90 "subsection order: sequential within 1") deps
    /\ ~ In (mkDep "1.1" "1.2" 90 "subsection order: sequential within 1")
           deps.
Proof.
  assert (R1 : converts "1") by (repeat split; discriminate).
  assert (R2 : converts "2") by (repeat split; discriminate).
  destruct (C2_subsection_order (all_tasks_of parsed_setup) key_setup)
    as [deps [E [_ [Hg _]]]].
  { intros t [<-|[<-|[]]].
    - exact (@reads_two "1" "1" "" R1 R1 (or_introl eq_refl)).
    - exact (@reads_two "1" "2" "" R1 R2 (or_introl eq_refl)). }
  exists deps. split; [exact E|].
  destruct (Hg [1]) as [s [[P [SS _]] Hiff]].
  change (subsection_members key_setup (all_tasks_of parsed_setup) [1])
    with ["1.1"; "1.2"] in P.
  assert (Es : s = ["1.1"; "1.2"]).
  { apply Permutation_length_2_inv in P. destruct P as [P|P]; [exact P|].
    subst s. inversion SS as [|? ? _ F]; subst.
    inversion F as [|? ? O _]; subst. vm_compute in O. discriminate. }
  subst s. split.
  - apply (Hiff "1.1" "1.2"). exists [], []. reflexivity.
  - intros Hd. apply (Hiff "1.2" "1.1") in Hd.
    destruct Hd as [l1 [l2 El]].
    destruct l1 as [|x [|y l1]]; inversion El.
    destruct l1; discriminate.
Defined.

End SubsectionClaims.
